(* Verification development for the native scene viewer
   (src/src/native-viewer/main.js): binary mesh decoding, texture
   candidate fallback, countertop background removal, material
   configuration, sky backdrop, countertop normal harmonization and the
   countertop apply entry point. *)

From Stdlib Require Import List ZArith QArith Qabs Qreals Bool String Ascii Lia.
From Stdlib Require Import Reals Lra Psatz Sorting Permutation.
From Stdlib Require Floats.
Import ListNotations.
Open Scope Z_scope.

(* ------------------------------------------------------------------ *)
(** * JS numbers and byte buffers *)

Module Js.

(** A JS number: [Some q] for a finite value, [None] for NaN and the
    infinities (all non-finite values are collapsed into one).  Finite
    arithmetic is exact; IEEE rounding of finite results is not modelled. *)
Definition num := option Q.

Definition num_of_Z (z : Z) : num := Some (inject_Z z).

Definition num_mul (a b : num) : num :=
  match a, b with Some x, Some y => Some (x * y)%Q | _, _ => None end.

Definition num_add (a b : num) : num :=
  match a, b with Some x, Some y => Some (x + y)%Q | _, _ => None end.

(** [a / b]: division by zero leaves the finite numbers. *)
Definition num_div (a b : num) : num :=
  match a, b with
  | Some x, Some y => if Qeq_bool y 0 then None else Some (x / y)%Q
  | _, _ => None
  end.

(** An ArrayBuffer: its bytes, each in [0, 256). *)
Definition bytes := list Z.

(** The value of a stored byte: its low 8 bits. *)
Definition byte_val (b : Z) : Z := Z.land b 255.

Fixpoint le_word (bs : list Z) : Z :=
  match bs with [] => 0 | b :: r => byte_val b + 256 * le_word r end.

Fixpoint chunks_fuel (fuel k : nat) (bs : list Z) : list (list Z) :=
  match fuel with
  | O => []
  | S f =>
      match bs with
      | [] => []
      | _ => firstn k bs :: chunks_fuel f k (skipn k bs)
      end
  end.

(** [new XArray(buffer)] with [k]-byte elements: a RangeError (here
    [None]) when the byte length is not a multiple of [k]. *)
Definition element_words (k : nat) (bs : bytes) : option (list Z) :=
  if Nat.eqb (Nat.modulo (List.length bs) k) 0
  then Some (map le_word (chunks_fuel (List.length bs) k bs))
  else None.

Definition to_signed (bits : Z) (u : Z) : Z :=
  if u <? 2 ^ (bits - 1) then u else u - 2 ^ bits.

Definition uint16_view (bs : bytes) : option (list Z) := element_words 2 bs.
Definition uint32_view (bs : bytes) : option (list Z) := element_words 4 bs.
Definition int8_view (bs : bytes) : list Z := map (fun b => to_signed 8 (byte_val b)) bs.
Definition int16_view (bs : bytes) : option (list Z) :=
  option_map (map (to_signed 16)) (element_words 2 bs).
Definition int32_view (bs : bytes) : option (list Z) :=
  option_map (map (to_signed 32)) (element_words 4 bs).

Definition q_pow2 (k : Z) : Q :=
  if 0 <=? k then inject_Z (2 ^ k) else (1 / inject_Z (2 ^ (- k)))%Q.

(** IEEE-754 binary32 decoding of a 32-bit pattern (a [Float32Array]
    element); exponent 255 is NaN or an infinity. *)
Definition f32_of_bits (u : Z) : num :=
  let s := Z.shiftr u 31 in
  let e := Z.land (Z.shiftr u 23) 255 in
  let m := Z.land u (2 ^ 23 - 1) in
  let sign := if s =? 1 then (-1)%Q else 1%Q in
  if e =? 255 then None
  else if e =? 0 then Some (Qred (sign * inject_Z m * q_pow2 (-149)))
  else Some (Qred (sign * inject_Z (2 ^ 23 + m) * q_pow2 (e - 150))).

Definition float32_view (bs : bytes) : option (list num) :=
  option_map (map f32_of_bits) (element_words 4 bs).

(** [arr[i]] on a typed array: [None] is [undefined] (out of range). *)
Definition ta_get {A} (l : list A) (i : Z) : option A :=
  if i <? 0 then None else nth_error l (Z.to_nat i).

(** [Array.prototype.slice]-like window [start, start+len). *)
Definition window {A} (l : list A) (start len : Z) : list A :=
  firstn (Z.to_nat len) (skipn (Z.to_nat start) l).

(** Writing a 32-bit word as 4 little-endian bytes (two's complement). *)
Definition word_bytes (w : Z) : list Z :=
  let u := Z.modulo w (2 ^ 32) in
  [Z.land u 255; Z.land (Z.shiftr u 8) 255;
   Z.land (Z.shiftr u 16) 255; Z.land (Z.shiftr u 24) 255].

Definition words_bytes (ws : list Z) : bytes := flat_map word_bytes ws.

End Js.

(* ------------------------------------------------------------------ *)
(** * Mesh records and geometry (parseMeshProps, decodeMeshGeometry) *)

Module Mesh.
Import Js.

Record mesh_props := {
  nodeId : Z;
  materialIdx : Z;
  useFaces16 : bool;
  faceByteOffset : Z;
  faceCnt : Z;
  vertexByteOffset : Z;
  vertexCnt : Z;
  normalByteOffset : Z;
  uv0ByteOffset : Z;
  uv1ByteOffset : Z;
  lightMapIdx : Z;
  uv1CoordUScale : num;
  uv1CoordVScale : num;
  uv1CoordUOffset : Z;
  uv1CoordVOffset : Z;
  transformByteOffset : Z;
  boundsByteOffset : Z;
  quantVertexRange : num;
  quantVertexMax : Z;
  quantUv0Range : num;
  quantUv0Max : Z;
  autoLightmapResolution : option Z;  (* [None]: [undefined] past the table *)
  bounds : option (list Q)            (* min x, y, z then max x, y, z *)
}.

Inductive js_error :=
| RangeError
| UnsupportedStride (stride : Z)
| NoMeshEntries.

(** [ints[i]] inside the table ([offset + 20 < ints.length] holds). *)
Definition at_int (ints : list Z) (i : Z) : Z := nth (Z.to_nat i) ints 0.
Definition at_float (floats : list num) (i : Z) : num := nth (Z.to_nat i) floats None.

Definition all_finite (l : list num) : option (list Q) :=
  fold_right (fun x acc => match x, acc with
                           | Some q, Some r => Some (q :: r)
                           | _, _ => None end) (Some []) l.

(** The bounds record read at [boundsByteOffset]
    (stored max x, y, z then min x, y, z). *)
Definition read_bounds (boundsFloats : list num) (boundsByteOffset : Z) : option (list Q) :=
  let o := boundsByteOffset / 4 in
  if (0 <=? o) && (o + 6 <? Z.of_nat (List.length boundsFloats)) then
    match all_finite (window boundsFloats o 6) with
    | Some [mx; my; mz; nx; ny; nz] => Some [nx; ny; nz; mx; my; mz]
    | _ => None
    end
  else None.

Definition record_at (version : Z) (ints : list Z) (floats : list num)
    (boundsFloats : list num) (offset : Z) : mesh_props :=
  let I k := at_int ints (offset + k) in
  let F k := at_float floats (offset + k) in
  {| nodeId := I 0; materialIdx := I 1; useFaces16 := I 2 =? 1;
     faceByteOffset := I 3; faceCnt := I 4; vertexByteOffset := I 5;
     vertexCnt := I 6; normalByteOffset := I 7; uv0ByteOffset := I 8;
     uv1ByteOffset := I 9; lightMapIdx := I 10; uv1CoordUScale := F 11;
     uv1CoordVScale := F 12; uv1CoordUOffset := I 13; uv1CoordVOffset := I 14;
     transformByteOffset := I 15; boundsByteOffset := I 16;
     quantVertexRange := F 17; quantVertexMax := I 18; quantUv0Range := F 19;
     quantUv0Max := I 20;
     autoLightmapResolution :=
       if 2 <=? version then ta_get ints (offset + 21) else Some (-1);
     bounds := read_bounds boundsFloats (I 16) |}.

(** The record loop [for (offset = 2; offset + 20 < ints.length; offset += stride)];
    records with a non-positive face or vertex count are skipped. *)
Fixpoint parse_loop (fuel : nat) (version stride : Z) (ints : list Z)
    (floats boundsFloats : list num) (offset : Z) : list mesh_props :=
  match fuel with
  | O => []
  | S f =>
      if offset + 20 <? Z.of_nat (List.length ints) then
        let rest := parse_loop f version stride ints floats boundsFloats (offset + stride) in
        if (at_int ints (offset + 4) <=? 0) || (at_int ints (offset + 6) <=? 0)
        then rest
        else record_at version ints floats boundsFloats offset :: rest
      else []
  end.

Definition parseMeshProps (meshesBuffer boundsBuffer : bytes)
    : js_error + list mesh_props :=
  match int32_view meshesBuffer, float32_view meshesBuffer,
        float32_view boundsBuffer with
  | Some ints, Some floats, Some boundsFloats =>
      let version := nth 0 ints 0 in
      let stride := nth 1 ints 0 in
      if stride <? 21 then inl (UnsupportedStride stride)
      else inr (parse_loop (List.length ints) version stride ints floats boundsFloats 2)
  | _, _, _ => inl RangeError
  end.

Definition minBytesToHold (maxValue : Z) : Z :=
  if Z.abs maxValue <=? 127 then 1
  else if Z.abs maxValue <=? 32767 then 2 else 4.

(** The typed views [buildScene] hands to the decoder. *)
Record views := {
  faces16 : option (list Z);
  faces32 : option (list Z);
  vertices8 : list Z;
  vertices16 : list Z;
  vertices32 : list Z;
  transforms : list num;
  uvsU16 : option (list Z);
  uvsF32 : option (list num)
}.

Record geometry := {
  positions : list num;
  indices : list Z;
  uvs : option (list num)
}.

Definition getFloat32At (floatBuffer : list num) (byteOffset length : Z) : option (list num) :=
  let start := byteOffset / 4 in
  let end_ := start + length in
  if (start <? 0) || (Z.of_nat (List.length floatBuffer) <? end_) then None
  else Some (window floatBuffer start length).

Definition vertexFactor (p : mesh_props) : num :=
  if negb (quantVertexMax p =? 0)
  then num_div (quantVertexRange p) (num_of_Z (quantVertexMax p))
  else Some 1%Q.

(** The vertex view chosen by [minBytesToHold] and the element offset in it. *)
Definition vertex_source (p : mesh_props) (v : views) : list Z * Z :=
  let b := minBytesToHold (quantVertexMax p) in
  if b =? 1 then (vertices8 v, vertexByteOffset p)
  else if b =? 2 then (vertices16 v, vertexByteOffset p / 2)
  else (vertices32 v, vertexByteOffset p / 4).

Definition num_at (l : list Z) (i : Z) : num :=
  match ta_get l i with Some z => num_of_Z z | None => None end.

(** The dequantized coordinate [vertexArray[i] * vertexFactor]. *)
Definition dequantized (p : mesh_props) (vertexArray : list Z) (i : Z) : num :=
  num_mul (num_at vertexArray i) (vertexFactor p).

Definition m_at (m : list num) (k : nat) : num := nth k m None.

Definition transformPoint (m : list num) (x y z : num) : list num :=
  let row r := num_add (num_add (num_add (num_mul (m_at m (4*r)) x)
                 (num_mul (m_at m (4*r+1)) y)) (num_mul (m_at m (4*r+2)) z))
                 (m_at m (4*r+3)) in
  [row 0%nat; row 1%nat; row 2%nat].

Definition clamp_index (vertexCnt rawIndex : Z) : Z :=
  if rawIndex <? vertexCnt then rawIndex else 0.

Definition zrange (n : Z) : list Z := map Z.of_nat (seq 0 (Z.to_nat n)).

Definition decode_uvs (p : mesh_props) (v : views) : option (list num) :=
  match uvsF32 v, uvsU16 v with
  | Some f32, Some u16 =>
      if 0 <=? uv0ByteOffset p then
        let cnt := vertexCnt p * 2 in
        let zeros := repeat (Some 0%Q) (Z.to_nat cnt) in
        if quantUv0Max p =? 0 then
          let off := uv0ByteOffset p / 4 in
          if off + cnt <=? Z.of_nat (List.length f32)
          then Some (map (fun i => match ta_get f32 (off + i) with
                                   | Some x => x | None => None end) (zrange cnt))
          else Some zeros
        else
          let uvFactor :=
            if negb (quantUv0Max p =? 0)
            then num_div (quantUv0Range p) (num_of_Z (quantUv0Max p))
            else Some 1%Q in
          let off := uv0ByteOffset p / 2 in
          if off + cnt <=? Z.of_nat (List.length u16)
          then Some (map (fun i => num_mul (num_at u16 (off + i)) uvFactor) (zrange cnt))
          else Some zeros
      else None
  | _, _ => None
  end.

(** [decodeMeshGeometry]: [None] is the [null] return. *)
Definition decodeMeshGeometry (p : mesh_props) (v : views) : option geometry :=
  let (vertexArray, vertexElementOffset) := vertex_source p v in
  let vertexElementCount := vertexCnt p * 3 in
  if (vertexElementOffset <? 0)
     || (Z.of_nat (List.length vertexArray) <? vertexElementOffset + vertexElementCount)
  then None else
  match getFloat32At (transforms v) (transformByteOffset p) 16 with
  | None => None
  | Some m =>
  match (if useFaces16 p then faces16 v else faces32 v) with
  | None => None
  | Some faceArray =>
  let faceElementOffset := faceByteOffset p / (if useFaces16 p then 2 else 4) in
  let faceElementCount := faceCnt p * 3 in
  if (faceElementOffset <? 0)
     || (Z.of_nat (List.length faceArray) <? faceElementOffset + faceElementCount)
  then None else
  let pos := flat_map (fun vi =>
      let si := vertexElementOffset + vi * 3 in
      transformPoint m (dequantized p vertexArray si)
        (dequantized p vertexArray (si + 1)) (dequantized p vertexArray (si + 2)))
      (zrange (vertexCnt p)) in
  let idx := map (fun i => clamp_index (vertexCnt p)
                     (match ta_get faceArray (faceElementOffset + i) with
                      | Some r => r | None => 0 end))
                 (zrange faceElementCount) in
  Some {| positions := pos; indices := idx; uvs := decode_uvs p v |}
  end end.

(** The views of [buildScene]: empty face and UV buffers give [null]
    views; a typed-array constructor on a misaligned buffer throws. *)
Definition opt_view {A} (mk : bytes -> option A) (bs : bytes) : option (option A) :=
  match bs with [] => Some None | _ => option_map Some (mk bs) end.

Definition make_views (faces16Buffer faces32Buffer verticesBuffer transformsBuffer
    uvs0Buffer : bytes) : option views :=
  match opt_view uint16_view faces16Buffer, opt_view uint32_view faces32Buffer,
        int16_view verticesBuffer, int32_view verticesBuffer,
        float32_view transformsBuffer, opt_view uint16_view uvs0Buffer,
        opt_view float32_view uvs0Buffer with
  | Some f16, Some f32, Some v16, Some v32, Some tr, Some u16, Some uf =>
      Some {| faces16 := f16; faces32 := f32; vertices8 := int8_view verticesBuffer;
              vertices16 := v16; vertices32 := v32; transforms := tr;
              uvsU16 := u16; uvsF32 := uf |}
  | _, _, _, _, _, _, _ => None
  end.

(** The decode loop of [buildScene]: built and skipped counters. *)
Fixpoint decode_all (ps : list mesh_props) (v : views) : list geometry * nat :=
  match ps with
  | [] => ([], 0%nat)
  | p :: r =>
      let (gs, skipped) := decode_all r v in
      match decodeMeshGeometry p v with
      | Some g => (g :: gs, skipped)
      | None => (gs, S skipped)
      end
  end.

(** The load-complete status [Loaded <built> meshes (<skipped> skipped) ...]. *)
Record load_status := { loaded_built : nat; loaded_skipped : nat }.

(** The geometry path of [buildScene] from the fetched buffers to the final
    status.  The exterior and material steps run between parsing and
    decoding; they neither throw nor touch the mesh list or the counters. *)
Definition buildScene (meshesBuffer boundsBuffer faces16Buffer faces32Buffer
    verticesBuffer transformsBuffer uvs0Buffer : bytes)
    : js_error + (list geometry * load_status) :=
  match parseMeshProps meshesBuffer boundsBuffer with
  | inl e => inl e
  | inr [] => inl NoMeshEntries
  | inr ps =>
      match make_views faces16Buffer faces32Buffer verticesBuffer transformsBuffer
              uvs0Buffer with
      | None => inl RangeError
      | Some v =>
          let (gs, skipped) := decode_all ps v in
          inr (gs, {| loaded_built := List.length gs; loaded_skipped := skipped |})
      end
  end.

End Mesh.

(** A three-record scene: the middle record has no vertices. *)
Module SceneFixture.
Import Js Mesh.

Definition record_words (nodeId materialIdx vertexCnt : Z) : list Z :=
  [nodeId; materialIdx; 1; 0; 1; 0; vertexCnt; -1; -1; -1; -1;
   0; 0; 0; 0; 0; -1; 0; 0; 0; 0].

Definition meshes_buf : bytes :=
  words_bytes ([1; 21] ++ record_words 10 0 3 ++ record_words 11 0 0
               ++ record_words 12 1 3).
Definition bounds_buf : bytes := [].
Definition faces16_buf : bytes := [0; 0; 1; 0; 2; 0].
Definition faces32_buf : bytes := [].
Definition vertices_buf : bytes := [0; 0; 0; 1; 0; 0; 0; 1; 0; 0; 0; 0].
Definition float_one : Z := 1065353216.
Definition transforms_buf : bytes :=
  words_bytes [float_one; 0; 0; 0; 0; float_one; 0; 0;
               0; 0; float_one; 0; 0; 0; 0; float_one].
Definition uvs0_buf : bytes := [].

Definition blank_record : mesh_props := record_at 0 [] [] [] 0.
Definition blank_views : views :=
  {| faces16 := None; faces32 := None; vertices8 := []; vertices16 := [];
     vertices32 := []; transforms := []; uvsU16 := None; uvsF32 := None |}.
Definition blank_geometry : geometry := {| positions := []; indices := []; uvs := None |}.

Definition fixture_records : list mesh_props :=
  match parseMeshProps meshes_buf bounds_buf with inr ps => ps | inl _ => [] end.
Definition fixture_record : mesh_props := nth 0 fixture_records blank_record.
Definition fixture_views : views :=
  match make_views faces16_buf faces32_buf vertices_buf transforms_buf uvs0_buf with
  | Some v => v | None => blank_views end.
Definition fixture_meshes : list geometry := Eval vm_compute in
  match buildScene meshes_buf bounds_buf faces16_buf faces32_buf vertices_buf
          transforms_buf uvs0_buf with
  | inr (gs, _) => gs | inl _ => [] end.
Definition fixture_ints : list Z :=
  [1; 21] ++ record_words 10 0 3 ++ record_words 11 0 0 ++ record_words 12 1 3.
Definition fixture_floats : list num := Eval vm_compute in
  match float32_view meshes_buf with Some l => l | None => [] end.
Definition fixture_geometry : geometry :=
  match decodeMeshGeometry fixture_record fixture_views with
  | Some g => g | None => blank_geometry end.

End SceneFixture.

(* ------------------------------------------------------------------ *)
(** * Texture candidate fallback (loadTextureFromCandidates) *)

Module TextureLoad.

Section Loader.
(** The texture a successful load yields; the loader's outcome for one
    URL is [Some t] (onLoad) or [None] (onError). *)
Variable texture : Type.

(** [Array.from(new Set(l))]: first occurrences, in order. *)
Fixpoint dedup_from (seen : list string) (l : list string) : list string :=
  match l with
  | [] => []
  | c :: r => if existsb (String.eqb c) seen then dedup_from seen r
              else c :: dedup_from (c :: seen) r
  end.

Definition is_truthy (c : string) : bool := negb (String.eqb c EmptyString).

(** [uniqueCandidates = Array.from(new Set(candidates.filter(Boolean)))]. *)
Definition uniqueCandidates (candidates : list string) : list string :=
  dedup_from [] (filter is_truthy candidates).

(** The [attempt] chain: the next URL is loaded only from the error
    callback of the previous one.  Returns the URLs attempted, in order,
    and the resolved value (the texture with [userData.sourceUrl]). *)
Fixpoint attempt (load : string -> option texture) (pending : list string)
    : list string * option (texture * string) :=
  match pending with
  | [] => ([], None)
  | url :: rest =>
      match load url with
      | Some t => ([url], Some (t, url))
      | None => let (tried, res) := attempt load rest in (url :: tried, res)
      end
  end.

Definition loadTextureFromCandidates (load : string -> option texture)
    (candidates : list string) : list string * option (texture * string) :=
  attempt load (uniqueCandidates candidates).

(** The claim's reading: the first non-empty candidate, in list order,
    whose load succeeds. *)
Fixpoint first_loading_candidate (load : string -> option texture)
    (candidates : list string) : option (texture * string) :=
  match candidates with
  | [] => None
  | c :: r =>
      if is_truthy c then
        match load c with
        | Some t => Some (t, c)
        | None => first_loading_candidate load r
        end
      else first_loading_candidate load r
  end.

End Loader.

Arguments uniqueCandidates : clear implicits.
Arguments attempt {texture}.
Arguments loadTextureFromCandidates {texture}.
Arguments first_loading_candidate {texture}.

End TextureLoad.

(* ------------------------------------------------------------------ *)
(** * Countertop background removal (cropAndFillCountertopTextureImage) *)

Module Backdrop.

(** An image as drawn into the source canvas: RGBA bytes, row-major;
    [readable] is false when [getImageData] throws (tainted canvas). *)
Record image := { width : Z; height : Z; data : list Z; readable : bool }.

Fixpoint insert_sorted (x : Z) (l : list Z) : list Z :=
  match l with
  | [] => [x]
  | y :: r => if x <=? y then x :: l else y :: insert_sorted x r
  end.

(** [[...values].sort((a, b) => a - b)]. *)
Definition sort_num (l : list Z) : list Z := fold_right insert_sorted [] l.

Definition medianValue (values : list Z) : Z :=
  match values with
  | [] => 0
  | _ => nth (Nat.div (List.length values) 2) (sort_num values) 0
  end.

Fixpoint stepped_fuel (fuel : nat) (v end_ step : Z) : list Z :=
  match fuel with
  | O => []
  | S f => if v <? end_ then v :: stepped_fuel f (v + step) end_ step else []
  end.

(** [for (let v = start; v < end_; v += step)] with [step >= 1]. *)
Definition stepped (start end_ step : Z) : list Z :=
  stepped_fuel (Z.to_nat (end_ - start)) start end_ step.

Definition byte_at (img : image) (i : Z) : Z := nth (Z.to_nat i) (data img) 0.

(** The backdrop estimate.  Corner distances are kept squared; the sort by
    squared distance orders them as [Math.sqrt] would, and [p85sq] is the
    square of the 85th-percentile distance [p85].  The products
    [min * 0.06] and [length * 0.85] floor to the same integers as the
    exact rationals used here. *)
Record backdrop := { red : Z; green : Z; blue : Z; p85sq : Z }.

Definition estimateBackdropFromCorners (img : image) : backdrop :=
  let w := width img in
  let h := height img in
  let size := Z.max 8 (Z.min w h * 6 / 100) in
  let step := Z.max 1 (size / 10) in
  let cornerOffsets := [(0, 0); (Z.max 0 (w - size), 0); (0, Z.max 0 (h - size));
                        (Z.max 0 (w - size), Z.max 0 (h - size))] in
  let samples :=
    flat_map (fun '(ox, oy) =>
      flat_map (fun y =>
        map (fun x => let index := (y * w + x) * 4 in
                      (byte_at img index, byte_at img (index + 1), byte_at img (index + 2)))
            (stepped ox (Z.min w (ox + size)) step))
        (stepped oy (Z.min h (oy + size)) step)) cornerOffsets in
  let reds := map (fun '(r, _, _) => r) samples in
  let greens := map (fun '(_, g, _) => g) samples in
  let blues := map (fun '(_, _, b) => b) samples in
  let r0 := medianValue reds in
  let g0 := medianValue greens in
  let b0 := medianValue blues in
  let distances := sort_num (map (fun '(r, g, b) =>
                     (r - r0) * (r - r0) + (g - g0) * (g - g0) + (b - b0) * (b - b0))
                     samples) in
  let n := Z.of_nat (List.length distances) in
  let p85Index := Z.min (n - 1) (n * 85 / 100) in
  {| red := r0; green := g0; blue := b0;
     p85sq := if p85Index <? 0 then 0 else nth (Z.to_nat p85Index) distances 0 |}.

(** [distanceSquared <= threshold * threshold] with
    [threshold = max(20, min(84, p85 + 18))] and [p85 = sqrt p85sq],
    decided over the integers: [(sqrt d + 18)^2 = d + 36 sqrt d + 324]. *)
Definition within_threshold (p85sq distanceSquared : Z) : bool :=
  if p85sq <=? 4 then distanceSquared <=? 400
  else if 4356 <=? p85sq then distanceSquared <=? 7056
  else let l := distanceSquared - p85sq - 324 in
       (l <=? 0) || (l * l <=? 1296 * p85sq).

Record fill_state := { visited : list bool; bgmask : list bool; queue : list Z }.

Fixpoint set_true (l : list bool) (n : nat) : list bool :=
  match l, n with
  | [], _ => []
  | _ :: r, O => true :: r
  | b :: r, S k => b :: set_true r k
  end.

Definition flag (l : list bool) (i : Z) : bool := nth (Z.to_nat i) l false.

Definition enqueueIfBackground (img : image) (bd : backdrop) (st : fill_state)
    (x y : Z) : fill_state :=
  let index := y * width img + x in
  if flag (visited st) index then st else
  let visited' := set_true (visited st) (Z.to_nat index) in
  let off := index * 4 in
  let push := {| visited := visited'; bgmask := set_true (bgmask st) (Z.to_nat index);
                 queue := queue st ++ [index] |} in
  if byte_at img (off + 3) <? 8 then push else
  let dr := byte_at img off - red bd in
  let dg := byte_at img (off + 1) - green bd in
  let db := byte_at img (off + 2) - blue bd in
  if within_threshold (p85sq bd) (dr * dr + dg * dg + db * db) then push
  else {| visited := visited'; bgmask := bgmask st; queue := queue st |}.

Definition seed_border (img : image) (bd : backdrop) (st : fill_state) : fill_state :=
  let w := width img in
  let h := height img in
  let st := fold_left (fun st x => enqueueIfBackground img bd
              (enqueueIfBackground img bd st x 0) x (h - 1)) (Mesh.zrange w) st in
  fold_left (fun st y => enqueueIfBackground img bd
              (enqueueIfBackground img bd st 0 y) (w - 1) y) (Mesh.zrange h) st.

(** The 4-connected flood fill [while (queueStart < queueEnd)]; every
    pixel is queued at most once, so [width * height + 1] rounds suffice. *)
Fixpoint flood (fuel : nat) (img : image) (bd : backdrop) (st : fill_state) : fill_state :=
  match fuel with
  | O => st
  | S f =>
      match queue st with
      | [] => st
      | index :: q =>
          let w := width img in
          let x := index mod w in
          let y := index / w in
          let st := {| visited := visited st; bgmask := bgmask st; queue := q |} in
          let st := if 0 <? x then enqueueIfBackground img bd st (x - 1) y else st in
          let st := if x <? w - 1 then enqueueIfBackground img bd st (x + 1) y else st in
          let st := if 0 <? y then enqueueIfBackground img bd st x (y - 1) else st in
          let st := if y <? height img - 1 then enqueueIfBackground img bd st x (y + 1) else st in
          flood f img bd st
      end
  end.

Definition background_fill (img : image) : fill_state :=
  let total := width img * height img in
  let bd := estimateBackdropFromCorners img in
  let empty := repeat false (Z.to_nat total) in
  flood (S (Z.to_nat total)) img bd
    (seed_border img bd {| visited := empty; bgmask := empty; queue := [] |}).

(** Foreground pixel count and tight box [(count, minX, minY, maxX, maxY)]. *)
Definition foreground_stats (img : image) : Z * Z * Z * Z * Z :=
  let w := width img in
  let mask := bgmask (background_fill img) in
  fold_left (fun '(cnt, minX, minY, maxX, maxY) index =>
      if flag mask index then (cnt, minX, minY, maxX, maxY)
      else let x := index mod w in
           let y := index / w in
           (cnt + 1, Z.min minX x, Z.min minY y, Z.max maxX x, Z.max maxY y))
    (Mesh.zrange (w * height img)) (0, w, height img, -1, -1).

(** The crop rectangle: the tight box grown by the padding and clipped. *)
Record crop := { crop_x : Z; crop_y : Z; crop_w : Z; crop_h : Z }.

Definition padded_crop (img : image) : crop :=
  let '(_, minX, minY, maxX, maxY) := foreground_stats img in
  let w := width img in
  let h := height img in
  let padding := Z.max 2 (Z.min w h * 1 / 100) in
  let minX' := Z.max 0 (minX - padding) in
  let minY' := Z.max 0 (minY - padding) in
  let maxX' := Z.min (w - 1) (maxX + padding) in
  let maxY' := Z.min (h - 1) (maxY + padding) in
  {| crop_x := minX'; crop_y := minY'; crop_w := maxX' - minX' + 1;
     crop_h := maxY' - minY' + 1 |}.

(** [cropAndFillCountertopTextureImage]: [None] is the [null] return,
    [Some c] the canvas holding crop [c].  After the size checks the code
    only in-paints the crop canvas and returns it on every path. *)
Definition cropAndFillCountertopTextureImage (img : image) : option crop :=
  if (width img =? 0) || (height img =? 0) then None
  else if negb (readable img) then None
  else
    let '(cnt, _, _, _, _) := foreground_stats img in
    if cnt =? 0 then None
    else if cnt * 100 <? width img * height img * 4 then None
    else
      let c := padded_crop img in
      if (crop_w c <? 8) || (crop_h c <? 8) then None
      else Some c.

(** The texture [loadCountertopTexture] keeps: the processed canvas when
    there is one, else the texture as loaded. *)
Inductive countertop_texture :=
| AsLoaded
| FromCanvas (c : crop).

Definition processed_texture (img : image) : countertop_texture :=
  match cropAndFillCountertopTextureImage img with
  | Some c => FromCanvas c
  | None => AsLoaded
  end.

(** A 16x16 opaque white image with a black 4x4 square at (6..9, 6..9). *)
Definition square_image : image := Eval vm_compute in
  {| width := 16; height := 16; readable := true;
     data := flat_map (fun index =>
               let x := index mod 16 in
               let y := index / 16 in
               if (6 <=? x) && (x <=? 9) && (6 <=? y) && (y <=? 9)
               then [0; 0; 0; 255] else [255; 255; 255; 255]) (Mesh.zrange 256) |}.

End Backdrop.

(* ------------------------------------------------------------------ *)
(** * Scene materials (materialConfigFromSceneEntry, buildMaterialMap) *)

Module Materials.
Import Js.

(** A value of the parsed scene JSON (plus [undefined] for a missing
    property).  Object fields are kept in source order. *)
#[warnings="-register-all"]
Inductive jv :=
| JUndef
| JNull
| JBool (b : bool)
| JNum (n : num)
| JStr (s : string)
| JArr (l : list jv)
| JObj (fields : list (string * jv)).

(** [o.k]: the last binding of [k] ([JSON.parse] keeps the last duplicate);
    [undefined] when absent or when [o] is not an object. *)
Definition get (o : jv) (k : string) : jv :=
  match o with
  | JObj fs => fold_left (fun acc '(k', v) => if String.eqb k k' then v else acc) fs JUndef
  | _ => JUndef
  end.

(** JS truthiness. *)
Definition truthy (v : jv) : bool :=
  match v with
  | JUndef | JNull => false
  | JBool b => b
  | JNum None => false
  | JNum (Some q) => negb (Qeq_bool q 0)
  | JStr s => negb (String.eqb s EmptyString)
  | JArr _ | JObj _ => true
  end.

(** [StringToNumber] over ASCII strings: the JS white space among ASCII
    characters is trimmed; the empty string is 0; decimal literals with
    optional sign, fraction and exponent, [Infinity], and unsigned
    [0x]/[0o]/[0b] literals are accepted; anything else is NaN.  A
    magnitude at or above [2^1024 - 2^970] rounds to an infinity. *)
Definition is_ws (c : ascii) : bool :=
  match nat_of_ascii c with 9 | 10 | 11 | 12 | 13 | 32 => true | _ => false end%nat.

Fixpoint drop_ws (l : list ascii) : list ascii :=
  match l with
  | c :: r => if is_ws c then drop_ws r else l
  | [] => []
  end.

Definition trim (l : list ascii) : list ascii := rev (drop_ws (rev (drop_ws l))).

(** A 7-bit ASCII character.  On strings of such characters [trim] is
    [String.prototype.trim]; JS also strips non-ASCII white space (U+00A0,
    U+FEFF, U+2028, ...), which [trim] leaves in place. *)
Definition is_ascii7 (c : ascii) : bool := (nat_of_ascii c <? 128)%nat.

Definition digit_val (base : Z) (c : ascii) : option Z :=
  let n := Z.of_nat (nat_of_ascii c) in
  let d := if (48 <=? n) && (n <=? 57) then n - 48
           else if (97 <=? n) && (n <=? 122) then n - 87
           else if (65 <=? n) && (n <=? 90) then n - 55 else 99 in
  if d <? base then Some d else None.

(** The longest prefix of digits: (value, digit count, rest). *)
Fixpoint take_digits (base : Z) (l : list ascii) (acc : Z) (k : nat) : Z * nat * list ascii :=
  match l with
  | c :: r =>
      match digit_val base c with
      | Some d => take_digits base r (acc * base + d) (S k)
      | None => (acc, k, l)
      end
  | [] => (acc, k, [])
  end.

Definition overflow_bound : Q := inject_Z (2 ^ 1024 - 2 ^ 970).

Definition finite_or_inf (q : Q) : num :=
  if Qle_bool overflow_bound (Qabs q) then None else Some q.

Definition infinity_chars : list ascii := list_ascii_of_string "Infinity".

Definition parse_unsigned_decimal (l : list ascii) : num :=
  if list_eq_dec ascii_dec l infinity_chars then None else
  let '(ip, ni, r1) := take_digits 10 l 0 0 in
  let '(mant, nf, r2) :=
    match r1 with
    | "."%char :: r => let '(fp, nf, r') := take_digits 10 r ip 0 in (fp, nf, r')
    | _ => (ip, 0%nat, r1)
    end in
  if (ni + nf =? 0)%nat then None else
  let exp :=
    match r2 with
    | [] => Some 0
    | e :: r => if (Ascii.eqb e "e"%char || Ascii.eqb e "E"%char) then
                  let '(sg, r') := match r with
                                   | "-"%char :: r' => (-1, r')
                                   | "+"%char :: r' => (1, r')
                                   | _ => (1, r) end in
                  match take_digits 10 r' 0 0 with
                  | (ev, S _, []) => Some (sg * ev)
                  | _ => None
                  end
                else None
    end in
  match exp with
  | None => None
  | Some ev =>
      let e := ev - Z.of_nat nf in
      finite_or_inf (inject_Z mant * (if 0 <=? e then inject_Z (10 ^ e) else 1 / inject_Z (10 ^ (- e))))%Q
  end.

Definition parse_radix (base : Z) (l : list ascii) : num :=
  match take_digits base l 0 0 with
  | (v, S _, []) => finite_or_inf (inject_Z v)
  | _ => None
  end.

Definition string_to_number (s : string) : num :=
  match trim (list_ascii_of_string s) with
  | [] => Some 0%Q
  | "0"%char :: x :: r =>
      if (Ascii.eqb x "x"%char || Ascii.eqb x "X"%char) then parse_radix 16 r
      else if (Ascii.eqb x "o"%char || Ascii.eqb x "O"%char) then parse_radix 8 r
      else if (Ascii.eqb x "b"%char || Ascii.eqb x "B"%char) then parse_radix 2 r
      else parse_unsigned_decimal ("0"%char :: x :: r)
  | "-"%char :: r => option_map Qopp (parse_unsigned_decimal r)
  | "+"%char :: r => parse_unsigned_decimal r
  | l => parse_unsigned_decimal l
  end.

(** [Number(v)].  An array converts through [join(",")]: the empty array
    is 0, an array of two or more elements joins to a string with a comma
    (NaN), and a one-element array converts as its element's string
    ([null] and [undefined] give the empty string, a boolean a word, a
    number its own value).  A plain object gives ["[object Object]"], NaN. *)
Fixpoint to_number (v : jv) : num :=
  match v with
  | JUndef => None
  | JNull => Some 0%Q
  | JBool b => Some (if b then 1 else 0)%Q
  | JNum n => n
  | JStr s => string_to_number s
  | JArr [] => Some 0%Q
  | JArr [x] =>
      match x with
      | JUndef | JNull => Some 0%Q
      | JBool _ | JObj _ => None
      | _ => to_number x
      end
  | JArr _ => None
  | JObj _ => None
  end.

(** [Number.isFinite(Number(v)) ? Number(v) : d]. *)
Definition finite_or (v : jv) (d : Q) : Q :=
  match to_number v with Some q => q | None => d end.

Definition clamp01 (value : jv) (fallback : Q) : Q :=
  match to_number value with
  | None => fallback
  | Some parsed =>
      let m := if Qle_bool 0 parsed then parsed else 0%Q in
      if Qle_bool m 1 then m else 1%Q
  end.

(** A [THREE.Color]'s linear components. *)
Record color := { cr : Q; cg : Q; cb : Q }.

(** [new THREE.Color(hex)] as byte scaling: the hex channels over 255.
    three.js reads a hex color as sRGB and stores linear components, and
    the sRGB transfer fixes 0 and 1, so this is exact for 0x000000 and
    0xffffff (the fallbacks of [rgbArrayToColor]) but not for other hex
    values such as the [0xa49a90] of [fallback_material]; no property here
    reads that color. *)
Definition color_of_hex (hex : Z) : color :=
  {| cr := inject_Z (Z.land (Z.shiftr hex 16) 255) / 255;
     cg := inject_Z (Z.land (Z.shiftr hex 8) 255) / 255;
     cb := inject_Z (Z.land hex 255) / 255 |}.

Definition rgbArrayToColor (value : jv) (fallback : Z) : color :=
  match value with
  | JArr l =>
      if (List.length l <? 3)%nat then color_of_hex fallback
      else {| cr := clamp01 (nth 0 l JUndef) 1; cg := clamp01 (nth 1 l JUndef) 1;
              cb := clamp01 (nth 2 l JUndef) 1 |}
  | _ => color_of_hex fallback
  end.

(** The config object (the [side] flag, decided by name patterns, is left
    out: no property here depends on it). *)
Record material_config := {
  cfg_color : color;
  cfg_roughness : Q;
  cfg_metalness : Q;
  cfg_transparent : bool;
  cfg_opacity : Q;
  cfg_emissive : option color;
  cfg_emissiveIntensity : Q }.

(** [Number(x) < 1] on a [num]: [num] has no infinities ([None] stands for
    NaN and for both infinities), so this is exact except at [-Infinity],
    where JS's test is true and this one is false. *)
Definition lt_one (n : num) : bool :=
  match n with Some q => negb (Qle_bool 1 q) | None => false end.

Definition materialConfigFromSceneEntry (sceneMaterial : jv) : material_config :=
  {| cfg_color := rgbArrayToColor (get sceneMaterial "baseColor") 16777215;
     cfg_roughness := clamp01 (get sceneMaterial "roughness") (1 # 2);
     cfg_metalness := clamp01 (get sceneMaterial "metallic") 0;
     cfg_transparent := lt_one (to_number (get sceneMaterial "opacity"));
     cfg_opacity := finite_or (get sceneMaterial "opacity") 1;
     cfg_emissive := if truthy (get sceneMaterial "emissive")
                     then Some (rgbArrayToColor (get sceneMaterial "baseColor") 0)
                     else None;
     cfg_emissiveIntensity := finite_or (get sceneMaterial "emissionStrength") 1 |}.

(** The fields of a [THREE.MeshStandardMaterial] that the code sets; a new
    material has a black emissive color and intensity 1. *)
Record standard_material := {
  mat_color : color;
  mat_roughness : Q;
  mat_metalness : Q;
  mat_transparent : bool;
  mat_opacity : Q;
  mat_emissive : color;
  mat_emissiveIntensity : Q }.

Definition fallback_material : standard_material :=
  {| mat_color := color_of_hex 10787472; mat_roughness := 7 # 10; mat_metalness := 5 # 100;
     mat_transparent := false; mat_opacity := 1; mat_emissive := color_of_hex 0;
     mat_emissiveIntensity := 1 |}.

(** The material [buildMaterialMap] stores for [sceneJson.materials[index]]
    (texture map resolution left out). *)
Definition build_material (source : jv) : standard_material :=
  if negb (truthy source) then fallback_material else
  let config := materialConfigFromSceneEntry source in
  let material := {| mat_color := cfg_color config; mat_roughness := cfg_roughness config;
                     mat_metalness := cfg_metalness config;
                     mat_transparent := cfg_transparent config;
                     mat_opacity := cfg_opacity config; mat_emissive := color_of_hex 0;
                     mat_emissiveIntensity := 1 |} in
  match cfg_emissive config with
  | Some e => {| mat_color := mat_color material; mat_roughness := mat_roughness material;
                 mat_metalness := mat_metalness material;
                 mat_transparent := mat_transparent material;
                 mat_opacity := mat_opacity material; mat_emissive := e;
                 mat_emissiveIntensity := cfg_emissiveIntensity config |}
  | None => material
  end.

Definition build_material_at (materials : list jv) (index : nat) : standard_material :=
  build_material (nth index materials JUndef).

(** A scene material entry: emissive, with a [null] emission strength and
    base color [[0.5, 2, "x"]]. *)
Definition null_strength_entry : jv :=
  JObj [("emissive", JBool true); ("emissionStrength", JNull);
        ("baseColor", JArr [JNum (Some (1 # 2)); JNum (Some 2%Q); JStr "x"])]%string.

End Materials.

(* ------------------------------------------------------------------ *)
(** * Sky backdrop (applySceneExterior) *)

Module Exterior.
Import Js Materials.

(** A [THREE.Quaternion] (x, y, z, w). *)
Record quat := { qx : R; qy : R; qz : R; qw : R }.

Definition setFromAxisAngle (ax ay az angle : R) : quat :=
  let halfAngle := (angle / 2)%R in
  let s := sin halfAngle in
  {| qx := (ax * s)%R; qy := (ay * s)%R; qz := (az * s)%R; qw := cos halfAngle |}.

(** [a.multiply(b)], i.e. [multiplyQuaternions(a, b)]. *)
Definition quat_multiply (a b : quat) : quat :=
  {| qx := (qx a * qw b + qw a * qx b + qy a * qz b - qz a * qy b)%R;
     qy := (qy a * qw b + qw a * qy b + qz a * qx b - qx a * qz b)%R;
     qz := (qz a * qw b + qw a * qz b + qx a * qy b - qy a * qx b)%R;
     qw := (qw a * qw b - qx a * qx b - qy a * qy b - qz a * qz b)%R |}.

Definition degToRad (degrees : R) : R := (degrees * (PI / 180))%R.

Inductive texture_mapping := UVMapping | EquirectangularReflectionMapping.

(** The texture fields that matter here; [tex_rotation] is the texture's own
    UV rotation, which [clone] copies and the code never sets. *)
Record texture := {
  tex_image : string;
  tex_rotation : R;
  tex_flipY : bool;
  tex_mapping : texture_mapping }.

Record sky_mesh := { sky_map : texture; sky_quaternion : quat }.

(** The scene and runtime fields the function touches; a rotation field is
    [None] on a three.js build whose [Scene] has no such property. *)
Record scene_state := {
  st_skyMesh : option sky_mesh;
  st_environment : option texture;
  st_environmentRotation : option (R * R * R);
  st_backgroundRotation : option (R * R * R);
  st_exteriorMode : string }.

Definition clearSceneExterior (s : scene_state) : scene_state :=
  {| st_skyMesh := None; st_environment := None;
     st_environmentRotation := st_environmentRotation s;
     st_backgroundRotation := st_backgroundRotation s;
     st_exteriorMode := st_exteriorMode s |}.

Definition with_mode (s : scene_state) (m : string) : scene_state :=
  {| st_skyMesh := st_skyMesh s; st_environment := st_environment s;
     st_environmentRotation := st_environmentRotation s;
     st_backgroundRotation := st_backgroundRotation s; st_exteriorMode := m |}.

Definition first_sky (sceneJson : jv) : jv :=
  match get sceneJson "skies" with JArr l => nth 0 l JUndef | _ => JNull end.

(** The yaw in radians: [degToRad(Number(firstSky.yawRotation))] when finite, else 0. *)
Definition yaw_radians (firstSky : jv) : R :=
  match to_number (get firstSky "yawRotation") with
  | Some d => degToRad (Q2R d)
  | None => 0%R
  end.

(** [applySceneExterior]; [resolve] is the outcome of
    [resolveMaterialTexture(firstSky.texture, textureLookup)].  Returns the
    new state and the boolean result. *)
Definition applySceneExterior (resolve : jv -> option texture) (sceneJson : jv)
    (s : scene_state) : scene_state * bool :=
  let s := clearSceneExterior s in
  let firstSky := first_sky sceneJson in
  if negb (truthy (get (get firstSky "texture") "id")) then (with_mode s "none", false) else
  match resolve (get firstSky "texture") with
  | None => (with_mode s "none", false)
  | Some t =>
      let skyTexture := {| tex_image := tex_image t; tex_rotation := tex_rotation t;
                           tex_flipY := true; tex_mapping := tex_mapping t |} in
      let yawFinite := match to_number (get firstSky "yawRotation") with
                       | Some _ => true | None => false end in
      let yawRadians := yaw_radians firstSky in
      let zUpSkyQuat := setFromAxisAngle 1 0 0 (PI / 2) in
      let skyYawQuat := setFromAxisAngle 0 0 1 yawRadians in
      let skyMesh := {| sky_map := skyTexture;
                        sky_quaternion := quat_multiply skyYawQuat zUpSkyQuat |} in
      let environmentMap := {| tex_image := tex_image skyTexture;
                               tex_rotation := tex_rotation skyTexture; tex_flipY := true;
                               tex_mapping := EquirectangularReflectionMapping |} in
      let envRot := option_map (fun _ => (0, 0, yawRadians)%R) (st_environmentRotation s) in
      let bgRot := option_map (fun _ => (0, 0, 0)%R) (st_backgroundRotation s) in
      let envRot := if yawFinite then envRot
                    else option_map (fun _ => (0, 0, 0)%R) envRot in
      ({| st_skyMesh := Some skyMesh; st_environment := Some environmentMap;
          st_environmentRotation := envRot; st_backgroundRotation := bgRot;
          st_exteriorMode := "sky" |}, true)
  end.

(** A scene whose first sky has texture id ["sky"] and yaw 90 degrees, a
    texture that resolves, and a three.js scene with both rotation fields. *)
Definition yaw90_scene : jv :=
  JObj [("skies", JArr [JObj [("texture", JObj [("id", JStr "sky")]);
                              ("yawRotation", JNum (Some 90%Q))]])]%string.
Definition sky_texture : texture :=
  {| tex_image := "sky"; tex_rotation := 0; tex_flipY := false; tex_mapping := UVMapping |}.
Definition resolve_sky (_ : jv) : option texture := Some sky_texture.
Definition rotatable_scene : scene_state :=
  {| st_skyMesh := None; st_environment := None;
     st_environmentRotation := Some (0, 0, 0)%R; st_backgroundRotation := Some (0, 0, 0)%R;
     st_exteriorMode := "none" |}.

End Exterior.

(* ------------------------------------------------------------------ *)
(** * Applying a countertop texture (applyCountertopTexture) *)

Module CountertopApply.
Import Js Materials.

Section Apply.

(** Scene materials and textures are opaque objects here. *)
Variables (material texture : Type).
(** [sourceMaterial.side] of a scene material. *)
Variable material_side : material -> Z.
(** The fetch-and-process outcome of [loadCountertopTexture] for an id not
    yet in the cache ([null] when every candidate failed). *)
Variable fetch_texture : string -> option texture.

(** A mesh's material: an authored scene material, or the countertop
    override material cached under a material index (one shared object per
    index, so all meshes pointing at it see its updates). *)
Inductive mesh_material :=
| Authored (m : material)
| Override (materialIndex : Z).

Record mesh := {
  mesh_material_of : mesh_material;
  mesh_uv : list Q;
  mesh_normal : list Q;
  mesh_materialIdx : jv }.

(** The fields of an override [MeshBasicMaterial] that vary; color white,
    opacity 1, no transparency and no tone mapping are fixed. *)
Record override_material := { ov_map : texture; ov_side : Z }.

Record runtime := {
  rt_meshes : list mesh;
  rt_countertopMeshes : list nat;
  rt_materialByIndex : list (Z * material);
  rt_overrides : list (Z * override_material);
  rt_textureCache : list (string * option texture);
  rt_normalsHarmonized : bool;
  rt_countertopMaterialIndexes : list Z;
  rt_status : string * bool }.

(** [harmonizeCountertopNormals(meshes, 0.012, 0.5, true)] and
    [projectCountertopUvsWorld(meshes, 0.23)] on the countertop meshes. *)
Variable harmonize : list nat -> list mesh -> list mesh.
Variable project_uvs : list nat -> list mesh -> list mesh.

Fixpoint assoc_get {K V} (eqb : K -> K -> bool) (k : K) (l : list (K * V)) : option V :=
  match l with
  | [] => None
  | (k', v) :: r => if eqb k k' then Some v else assoc_get eqb k r
  end.

(** [Map.prototype.set]: an existing key keeps its place. *)
Fixpoint assoc_set {K V} (eqb : K -> K -> bool) (k : K) (v : V) (l : list (K * V))
    : list (K * V) :=
  match l with
  | [] => [(k, v)]
  | (k', v') :: r => if eqb k k' then (k, v) :: r else (k', v') :: assoc_set eqb k v r
  end.

Definition setStatus (rt : runtime) (message : string) (isError : bool) : runtime :=
  {| rt_meshes := rt_meshes rt; rt_countertopMeshes := rt_countertopMeshes rt;
     rt_materialByIndex := rt_materialByIndex rt; rt_overrides := rt_overrides rt;
     rt_textureCache := rt_textureCache rt; rt_normalsHarmonized := rt_normalsHarmonized rt;
     rt_countertopMaterialIndexes := rt_countertopMaterialIndexes rt;
     rt_status := (message, isError) |}.

(** [loadCountertopTexture(normalized)] for a non-empty id: the cached
    promise's result, else the fetch, cached. *)
Definition loadCountertopTexture (normalized : string) (rt : runtime)
    : option texture * runtime :=
  match assoc_get String.eqb normalized (rt_textureCache rt) with
  | Some r => (r, rt)
  | None =>
      let r := fetch_texture normalized in
      (r, {| rt_meshes := rt_meshes rt; rt_countertopMeshes := rt_countertopMeshes rt;
             rt_materialByIndex := rt_materialByIndex rt; rt_overrides := rt_overrides rt;
             rt_textureCache := assoc_set String.eqb normalized r (rt_textureCache rt);
             rt_normalsHarmonized := rt_normalsHarmonized rt;
             rt_countertopMaterialIndexes := rt_countertopMaterialIndexes rt;
             rt_status := rt_status rt |})
  end.

(** [getCountertopOverrideMaterial]: the cache after normalizing the
    existing material (its map set to [texture]) or adding a new one. *)
Definition getCountertopOverrideMaterial (materialIndex : Z) (tex : texture)
    (materialByIndex : list (Z * material)) (overrides : list (Z * override_material))
    : list (Z * override_material) :=
  match assoc_get Z.eqb materialIndex overrides with
  | Some existing =>
      assoc_set Z.eqb materialIndex {| ov_map := tex; ov_side := ov_side existing |} overrides
  | None =>
      let side := match assoc_get Z.eqb materialIndex materialByIndex with
                  | Some m => material_side m | None => 0 end in
      assoc_set Z.eqb materialIndex {| ov_map := tex; ov_side := side |} overrides
  end.

(** [Number.isInteger(Number(v))]. *)
Definition integer_index (v : jv) : option Z :=
  match to_number v with
  | Some q => let q' := Qred q in if (Qden q' =? 1)%positive then Some (Qnum q') else None
  | None => None
  end.

Definition set_mesh_material (meshes : list mesh) (i : nat) (m : mesh_material) : list mesh :=
  firstn i meshes ++
  match skipn i meshes with
  | [] => []
  | ms :: r => {| mesh_material_of := m; mesh_uv := mesh_uv ms; mesh_normal := mesh_normal ms;
                  mesh_materialIdx := mesh_materialIdx ms |} :: r
  end.

(** The [forEach] over the countertop meshes: (meshes, override cache,
    used material indexes in insertion order). *)
Definition assign_overrides (tex : texture) (materialByIndex : list (Z * material))
    (targets : list nat) (meshes : list mesh) (overrides : list (Z * override_material))
    : list mesh * list (Z * override_material) * list Z :=
  fold_left (fun '(meshes, overrides, used) i =>
      match nth_error meshes i with
      | None => (meshes, overrides, used)
      | Some ms =>
          match integer_index (mesh_materialIdx ms) with
          | None => (meshes, overrides, used)
          | Some materialIndex =>
              let used := if existsb (Z.eqb materialIndex) used then used
                          else used ++ [materialIndex] in
              let overrides := getCountertopOverrideMaterial materialIndex tex
                                 materialByIndex overrides in
              (set_mesh_material meshes i (Override materialIndex), overrides, used)
          end
      end) targets (meshes, overrides, []).

Definition normalize_id (textureId : string) : string :=
  string_of_list_ascii (trim (list_ascii_of_string textureId)).

(** [applyCountertopTexture(textureId)] for a string id, run to completion
    (the texture preview and select-box updates are left out). *)
Definition applyCountertopTexture (textureId : string) (rt : runtime) : runtime :=
  let normalized := normalize_id textureId in
  if String.eqb normalized EmptyString then
    setStatus rt "Select a slab texture before applying." true
  else match rt_countertopMeshes rt with
  | [] => setStatus rt "No countertop materials were detected for this scene." true
  | targets =>
      let rt := setStatus rt (String.append "Applying countertop texture "
                               (String.append normalized "...")) false in
      let '(loaded, rt) := loadCountertopTexture normalized rt in
      match loaded with
      | None => setStatus rt (String.append "Could not load countertop texture "
                               (String.append normalized ".")) true
      | Some tex =>
          let meshes := if rt_normalsHarmonized rt then rt_meshes rt
                        else harmonize targets (rt_meshes rt) in
          let meshes := project_uvs targets meshes in
          let '(meshes, overrides, used) :=
            assign_overrides tex (rt_materialByIndex rt) targets meshes (rt_overrides rt) in
          {| rt_meshes := meshes; rt_countertopMeshes := targets;
             rt_materialByIndex := rt_materialByIndex rt; rt_overrides := overrides;
             rt_textureCache := rt_textureCache rt; rt_normalsHarmonized := true;
             rt_countertopMaterialIndexes := used;
             rt_status := (String.append "Applied countertop texture "
                            (String.append normalized "."), false) |}
      end
  end.

End Apply.

Arguments Authored {material}.
Arguments Override {material}.
Arguments setStatus {material texture}.
Arguments rt_meshes {material texture}.
Arguments rt_countertopMeshes {material texture}.
Arguments rt_materialByIndex {material texture}.
Arguments rt_overrides {material texture}.
Arguments rt_textureCache {material texture}.
Arguments rt_normalsHarmonized {material texture}.
Arguments rt_countertopMaterialIndexes {material texture}.
Arguments rt_status {material texture}.
Arguments mesh_material_of {material}.
Arguments mesh_uv {material}.
Arguments mesh_normal {material}.
Arguments mesh_materialIdx {material}.
Arguments applyCountertopTexture {material texture}.

(** A scene with one authored mesh and no countertop meshes. *)
Definition plain_mesh : mesh unit :=
  {| mesh_material_of := Authored tt; mesh_uv := [0; 1]%Q; mesh_normal := [0; 0; 1]%Q;
     mesh_materialIdx := JNum (Some 0%Q) |}.
Definition no_countertop_runtime : runtime unit unit :=
  {| rt_meshes := [plain_mesh]; rt_countertopMeshes := []; rt_materialByIndex := [(0, tt)];
     rt_overrides := []; rt_textureCache := []; rt_normalsHarmonized := false;
     rt_countertopMaterialIndexes := []; rt_status := ("Ready.", false) |}%string.

End CountertopApply.

(* ------------------------------------------------------------------ *)
(** * A countertop scene fixture *)

Module CountertopFixture.
Import Js Materials CountertopApply.

(** One countertop mesh (index 0) with material index 0, a fresh texture
    cache and normals not yet harmonized. *)
Definition countertop_runtime : runtime unit unit :=
  {| rt_meshes := [plain_mesh]; rt_countertopMeshes := [0%nat];
     rt_materialByIndex := [(0, tt)]; rt_overrides := []; rt_textureCache := [];
     rt_normalsHarmonized := false; rt_countertopMaterialIndexes := [];
     rt_status := ("Ready.", false) |}%string.

(** The same scene after a first apply harmonized its normals. *)
Definition harmonized_runtime : runtime unit unit :=
  {| rt_meshes := [plain_mesh]; rt_countertopMeshes := [0%nat];
     rt_materialByIndex := [(0, tt)]; rt_overrides := []; rt_textureCache := [];
     rt_normalsHarmonized := true; rt_countertopMaterialIndexes := [];
     rt_status := ("Ready.", false) |}%string.

End CountertopFixture.

(* ------------------------------------------------------------------ *)
(** * Texture URLs (encodePathSegments, buildSceneTextureCandidates) *)

Module Urls.
Import Js Materials.

(** Strings are byte strings: a JS string is read as its UTF-8 bytes, so
    [encodeURIComponent], which escapes each UTF-8 byte of a reserved code
    point as [%XX], escapes each byte that is not unreserved. *)
Definition uri_unreserved (c : ascii) : bool :=
  let n := nat_of_ascii c in
  (((65 <=? n) && (n <=? 90)) || ((97 <=? n) && (n <=? 122)) ||
  ((48 <=? n) && (n <=? 57)) ||
  existsb (Nat.eqb n) [45; 95; 46; 33; 126; 42; 39; 40; 41]%nat)%nat.

Definition hex_digit (d : nat) : ascii :=
  nth d (list_ascii_of_string "0123456789ABCDEF") "0"%char.

Definition encode_char (c : ascii) : list ascii :=
  if uri_unreserved c then [c]
  else ["%"%char; hex_digit (nat_of_ascii c / 16)%nat; hex_digit (nat_of_ascii c mod 16)%nat].

Definition encodeURIComponent (s : string) : string :=
  string_of_list_ascii (flat_map encode_char (list_ascii_of_string s)).

(** [String.prototype.split] with a one-character separator. *)
Fixpoint split_on (sep : ascii) (l : list ascii) : list (list ascii) :=
  match l with
  | [] => [[]]
  | c :: r =>
      if Ascii.eqb c sep then [] :: split_on sep r
      else match split_on sep r with
           | [] => [[c]]
           | w :: ws => (c :: w) :: ws
           end
  end.

(** [Array.prototype.join]. *)
Fixpoint join_with (sep : list ascii) (ws : list (list ascii)) : list ascii :=
  match ws with
  | [] => []
  | [w] => w
  | w :: r => w ++ sep ++ join_with sep r
  end.

Definition slash : ascii := "/"%char.

(** [.split("/").map((part) => encodeURIComponent(part)).join("/")]. *)
Definition encode_path_string (s : string) : string :=
  string_of_list_ascii
    (join_with [slash]
       (map (fun part => list_ascii_of_string (encodeURIComponent (string_of_list_ascii part)))
            (split_on slash (list_ascii_of_string s)))).

Definition ends_with (suffix s : string) : bool :=
  let n := String.length s in
  let m := String.length suffix in
  ((m <=? n) && String.eqb (substring (n - m) m s) suffix)%nat.

Section Candidates.

(** [Number::toString], left abstract. *)
Variable number_to_string : num -> string.

(** [ToString] of a JSON value: arrays join their elements with commas
    ([null] and [undefined] as the empty string), objects print as
    [[object Object]]. *)
Fixpoint js_to_string (v : jv) : string :=
  match v with
  | JUndef => "undefined"
  | JNull => "null"
  | JBool true => "true"
  | JBool false => "false"
  | JNum n => number_to_string n
  | JStr s => s
  | JArr l => String.concat ","
                (map (fun e => match e with JUndef | JNull => EmptyString | _ => js_to_string e end) l)
  | JObj _ => "[object Object]"
  end%string.

(** [encodePathSegments(input)]: [String(input || "")], then per segment. *)
Definition encodePathSegments (input : jv) : string :=
  encode_path_string (if truthy input then js_to_string input else EmptyString).

(** The module constant [sceneBaseUrl]. *)
Variable sceneBaseUrl : string.

Definition buildSceneTextureCandidates (textureDefinition : jv) : list string :=
  let id := encodePathSegments (get textureDefinition "id") in
  let stdExt := get textureDefinition "stdExt" in
  let rawExt := get textureDefinition "rawExt" in
  let extension := js_to_string (if truthy stdExt then stdExt
                                 else if truthy rawExt then rawExt else JStr "jpg") in
  let formats := match get textureDefinition "webFormats" with JArr l => l | _ => [] end in
  let from_formats :=
    flat_map (fun format =>
                if ends_with "/std" (js_to_string format)
                then [sceneBaseUrl ++ "img/" ++ js_to_string format ++ "/" ++ id ++ "." ++ extension]%string
                else []) formats in
  let candidates :=
    from_formats ++
    [sceneBaseUrl ++ "img/small/std/" ++ id ++ "." ++ extension;
     sceneBaseUrl ++ "img/large/std/" ++ id ++ "." ++ extension;
     sceneBaseUrl ++ id ++ "." ++ extension]%string in
  TextureLoad.dedup_from [] candidates.

End Candidates.

End Urls.

(* ------------------------------------------------------------------ *)
(** * Countertop nodes (extractMaterialNameFromNodeConfig,
      extractCountertopNodeIds) *)

Module Countertops.
Import Js Materials.

(** [String.prototype.indexOf] of one character; [None] is [-1]. *)
Fixpoint index_of (c : ascii) (l : list ascii) : option nat :=
  match l with
  | [] => None
  | x :: r => if Ascii.eqb x c then Some 0%nat else option_map S (index_of c r)
  end.

(** Over ASCII strings, [trim] is [Materials.trim]. *)
Definition extractMaterialNameFromNodeConfig (configValue : jv) : string :=
  match configValue with
  | JStr s =>
      let source := trim (list_ascii_of_string s) in
      let starts := match source with c :: _ => Ascii.eqb c "{"%char | [] => false end in
      if negb starts then EmptyString else
      match index_of "}"%char source with
      | None => EmptyString
      | Some endBrace =>
          if (endBrace <=? 1)%nat then EmptyString
          else string_of_list_ascii (trim (firstn (endBrace - 1) (skipn 1 source)))
      end
  | _ => EmptyString
  end.

(** [extractMaterialNameFromNodeConfig(node.config) ||
    extractMaterialNameFromNodeConfig(node.meshType)]. *)
Definition node_material_name (node : jv) : string :=
  let c := extractMaterialNameFromNodeConfig (get node "config") in
  if String.eqb c EmptyString then extractMaterialNameFromNodeConfig (get node "meshType")
  else c.

(** [node && typeof node === "object"]: arrays and objects. *)
Definition is_object (v : jv) : bool :=
  match v with JArr _ | JObj _ => true | _ => false end.

(** [Number.isInteger(v)], with the integer. *)
Definition is_integer_number (v : jv) : option Z :=
  match v with
  | JNum (Some q) => let q' := Qred q in if (Qden q' =? 1)%positive then Some (Qnum q') else None
  | _ => None
  end.

(** The material-name set is given by the values added to it, in order;
    only its size and its membership of strings matter here. *)
Definition has_name (names : list jv) (name : string) : bool :=
  existsb (fun v => match v with JStr s => String.eqb s name | _ => false end) names.

(** [Set.prototype.add] on numbers. *)
Definition set_add (x : Z) (l : list Z) : list Z :=
  if existsb (Z.eqb x) l then l else l ++ [x].

(** The [while (queue.length)] loop: [queue.shift()], then the children
    pushed at the back. *)
Fixpoint node_bfs (fuel : nat) (names : list jv) (queue : list jv) (nodeIds : list Z)
    : list Z :=
  match fuel with
  | O => nodeIds
  | S fuel =>
      match queue with
      | [] => nodeIds
      | node :: queue =>
          if negb (is_object node) then node_bfs fuel names queue nodeIds else
          let configMaterialName := node_material_name node in
          let nodeIds :=
            match is_integer_number (get node "id") with
            | Some id =>
                if negb (String.eqb configMaterialName EmptyString) &&
                   has_name names configMaterialName
                then set_add id nodeIds else nodeIds
            | None => nodeIds
            end in
          let queue := match get node "children" with JArr l => queue ++ l | _ => queue end in
          node_bfs fuel names queue nodeIds
      end
  end.

Fixpoint jv_size (v : jv) : nat :=
  match v with
  | JArr l => S (list_sum (map jv_size l))
  | JObj fs => S (list_sum (map (fun '(_, x) => jv_size x) fs))
  | _ => 1
  end.

(** Each turn removes a node and adds its children, whose sizes sum to less
    than the node's, so the total size of the roots bounds the turns. *)
Definition extractCountertopNodeIds (sceneNodes : jv) (names : list jv) : list Z :=
  match sceneNodes with
  | JArr nodes =>
      match names with
      | [] => []
      | _ => node_bfs (list_sum (map jv_size nodes)) names nodes []
      end
  | _ => []
  end.

End Countertops.

(* ------------------------------------------------------------------ *)
(** * Countertop meshes of a built scene (buildScene, after decoding) *)

Module SceneIndex.
Import Js Mesh CountertopApply.

(** The records the decode loop builds a mesh for, in order: mesh [i] of
    the scene is the [i]-th of them. *)
Definition built_props (ps : list mesh_props) (v : views) : list mesh_props :=
  filter (fun p => match decodeMeshGeometry p v with Some _ => true | None => false end) ps.

(** [if (!map.has(nodeId)) map.set(nodeId, []); map.get(nodeId).push(mesh)]. *)
Definition push_mesh (byNode : list (Z * list nat)) (nodeId : Z) (i : nat)
    : list (Z * list nat) :=
  match assoc_get Z.eqb nodeId byNode with
  | Some ms => assoc_set Z.eqb nodeId (ms ++ [i]) byNode
  | None => assoc_set Z.eqb nodeId [i] byNode
  end.

Fixpoint index_meshes (i : nat) (built : list mesh_props) (byNode : list (Z * list nat))
    : list (Z * list nat) :=
  match built with
  | [] => byNode
  | p :: r => index_meshes (S i) r (push_mesh byNode (nodeId p) i)
  end.

(** [runtime.meshesByNodeId] once every mesh is built. *)
Definition meshesByNodeId (built : list mesh_props) : list (Z * list nat) :=
  index_meshes 0 built [].

(** [runtime.countertopNodeIds.flatMap((nodeId) => meshesByNodeId.get(nodeId) || [])]. *)
Definition countertopMeshes (built : list mesh_props) (countertopNodeIds : list Z)
    : list nat :=
  flat_map (fun nid => match assoc_get Z.eqb nid (meshesByNodeId built) with
                       | Some ms => ms | None => [] end) countertopNodeIds.

(** [Array.from(new Set(meshes.map((mesh) => Number(mesh.userData.materialIdx))
    .filter(Number.isInteger)))]: a record's material index is an int32, so
    every one passes the filter. *)
Definition countertopMaterialIndexes (built : list mesh_props) (meshes : list nat) : list Z :=
  fold_left (fun acc i => match nth_error built i with
                          | Some p => Countertops.set_add (materialIdx p) acc
                          | None => acc
                          end) meshes [].

End SceneIndex.

(* ------------------------------------------------------------------ *)
(** * Countertop normal harmonization (harmonizeCountertopNormals) *)

Module Harmonize.
Import Floats.
#[local] Set Warnings "-inexact-float".
Local Open Scope float_scope.

(** ** JS numbers as binary64 *)

(** [Math.fround], and the rounding of a store into a [Float32Array]:
    round to nearest even at 24 bits, with float32's range. *)
Definition fround (x : float) : float :=
  match Prim2SF x with
  | S754_finite s m e => SF2Prim (SpecFloat.binary_round 24 128 s m e)
  | _ => x
  end.

(** [Math.round]: [floor(x + 1/2)] computed exactly; [-0] for
    [-1/2 <= x < 0]; integers, zeros, infinities and NaN unchanged. *)
Definition js_round (x : float) : float :=
  match Prim2SF x with
  | S754_finite s m e =>
      if (0 <=? e)%Z then x else
      let k := (- e)%Z in
      let n := ((2 * (if s then - Zpos m else Zpos m) + 2 ^ k) / 2 ^ (k + 1))%Z in
      if (n =? 0)%Z then (if s then -0 else 0)
      else let f := of_uint63 (Uint63.of_Z (Z.abs n)) in
           if (n <? 0)%Z then - f else f
  | _ => x
  end.

Definition is_neg_zero (x : float) : bool :=
  match Prim2SF x with S754_zero true => true | _ => false end.

(** [Math.max(a, b)]: NaN if either is NaN, and [+0] above [-0]. *)
Definition js_max (a b : float) : float :=
  if is_nan a || is_nan b then nan
  else if a <? b then b else if b <? a then a
  else if is_neg_zero a then b else a.

(** [Number.isFinite] on a number. *)
Definition js_isFinite (x : float) : bool := is_finite x.

(** ** three.js vectors and matrices *)

Module Vector3.

Record vec3 := V3 { vx : float; vy : float; vz : float }.

(** [Matrix3]/[Matrix4] [elements], column-major. *)
Definition el (m : list float) (k : nat) : float := nth k m 0.

Definition worldUp : vec3 := V3 0 0 1.

Definition multiplyScalar (v : vec3) (s : float) : vec3 :=
  V3 (vx v * s) (vy v * s) (vz v * s).

Definition divideScalar (v : vec3) (s : float) : vec3 := multiplyScalar v (1 / s).

Definition lengthSq (v : vec3) : float := vx v * vx v + vy v * vy v + vz v * vz v.

Definition length (v : vec3) : float := sqrt (vx v * vx v + vy v * vy v + vz v * vz v).

(** [this.divideScalar(this.length() || 1)]: a zero or NaN length
    divides by 1. *)
Definition normalize (v : vec3) : vec3 :=
  let l := length v in
  divideScalar v (if (l =? 0) || is_nan l then 1 else l).

Definition dot (a b : vec3) : float := vx a * vx b + vy a * vy b + vz a * vz b.

Definition sub (a b : vec3) : vec3 := V3 (vx a - vx b) (vy a - vy b) (vz a - vz b).

Definition cross (a b : vec3) : vec3 :=
  V3 (vy a * vz b - vz a * vy b) (vz a * vx b - vx a * vz b) (vx a * vy b - vy a * vx b).

Definition applyMatrix3 (v : vec3) (e : list float) : vec3 :=
  V3 (el e 0 * vx v + el e 3 * vy v + el e 6 * vz v)
     (el e 1 * vx v + el e 4 * vy v + el e 7 * vz v)
     (el e 2 * vx v + el e 5 * vy v + el e 8 * vz v).

Definition applyMatrix4 (v : vec3) (e : list float) : vec3 :=
  let w := 1 / (el e 3 * vx v + el e 7 * vy v + el e 11 * vz v + el e 15) in
  V3 ((el e 0 * vx v + el e 4 * vy v + el e 8 * vz v + el e 12) * w)
     ((el e 1 * vx v + el e 5 * vy v + el e 9 * vz v + el e 13) * w)
     ((el e 2 * vx v + el e 6 * vy v + el e 10 * vz v + el e 14) * w).

End Vector3.
Import Vector3.

(** [Matrix3.setFromMatrix4]: the upper 3x3 block. *)
Definition setFromMatrix4 (me : list float) : list float :=
  [el me 0; el me 1; el me 2; el me 4; el me 5; el me 6; el me 8; el me 9; el me 10].

(** [Matrix3.invert]: the adjugate over the determinant, or all zeros
    when the determinant is 0. *)
Definition invert3 (te : list float) : list float :=
  let n11 := el te 0 in let n21 := el te 1 in let n31 := el te 2 in
  let n12 := el te 3 in let n22 := el te 4 in let n32 := el te 5 in
  let n13 := el te 6 in let n23 := el te 7 in let n33 := el te 8 in
  let t11 := n33 * n22 - n32 * n23 in
  let t12 := n32 * n13 - n33 * n12 in
  let t13 := n23 * n12 - n22 * n13 in
  let det := n11 * t11 + n21 * t12 + n31 * t13 in
  if det =? 0 then [0; 0; 0; 0; 0; 0; 0; 0; 0] else
  let detInv := 1 / det in
  [t11 * detInv; (n31 * n23 - n33 * n21) * detInv; (n32 * n21 - n31 * n22) * detInv;
   t12 * detInv; (n33 * n11 - n31 * n13) * detInv; (n31 * n12 - n32 * n11) * detInv;
   t13 * detInv; (n21 * n13 - n23 * n11) * detInv; (n22 * n11 - n21 * n12) * detInv].

Definition transpose3 (te : list float) : list float :=
  [el te 0; el te 3; el te 6; el te 1; el te 4; el te 7; el te 2; el te 5; el te 8].

(** [new Matrix3().getNormalMatrix(m)]. *)
Definition getNormalMatrix (m : list float) : list float :=
  transpose3 (invert3 (setFromMatrix4 m)).

(** ** Geometries and meshes *)

(** A [BufferGeometry]: its [position] and [normal] attributes (item size
    3, three floats per vertex, stored in [Float32Array]s) and its index,
    when present. *)
Record geometry := {
  g_position : option (list float);
  g_normal : option (list float);
  g_index : option (list Z) }.

(** A mesh: its geometry (an index into the store of geometries, so that
    meshes can share one) and [matrixWorld] as [updateMatrixWorld(true)]
    leaves it (the harmonization never moves an object). *)
Record mesh := { m_geometry : option nat; m_matrixWorld : list float }.

Definition store := list geometry.

(** [attribute.count] for item size 3. *)
Definition count (a : list float) : nat := Nat.div (List.length a) 3.

(** [set(a.getX(i), a.getY(i), a.getZ(i))]; past the end a read gives
    [undefined], NaN as a number. *)
Definition getXYZ (a : list float) (i : nat) : vec3 :=
  V3 (nth (3 * i) a nan) (nth (3 * i + 1) a nan) (nth (3 * i + 2) a nan).

(** A typed-array store: ignored out of range. *)
Fixpoint list_set {A} (l : list A) (k : nat) (x : A) : list A :=
  match l, k with
  | [], _ => []
  | _ :: r, O => x :: r
  | y :: r, S k => y :: list_set r k x
  end.

(** [a.setXYZ(i, x, y, z)] on a [Float32Array]. *)
Definition setXYZ (a : list float) (i : nat) (v : vec3) : list float :=
  list_set (list_set (list_set a (3 * i) (fround (vx v))) (3 * i + 1) (fround (vy v)))
    (3 * i + 2) (fround (vz v)).

Definition store_set (s : store) (gid : nat) (g : geometry) : store := list_set s gid g.

(** [ref.normal.setXYZ(ref.index, ...)] with [ref.normal] the normal
    attribute of geometry [gid]. *)
Definition set_normal (s : store) (gid i : nat) (v : vec3) : store :=
  match nth_error s gid with
  | Some g =>
      match g_normal g with
      | Some a => store_set s gid {| g_position := g_position g; g_normal := Some (setXYZ a i v);
                                     g_index := g_index g |}
      | None => s
      end
  | None => s
  end.

(** ** Buckets *)

(** A bucket key.  [String(n)] is one-to-one on numbers but for [0]/[-0]
    (both ["0"]), so two keys are the same string exactly when they have
    the same form and each component is [==] or both NaN. *)
Inductive key := KSide (kx ky kz : float) | KTop (kx ky kz : float).

Definition num_string_eqb (a b : float) : bool := (a =? b) || (is_nan a && is_nan b).

Definition key_eqb (a b : key) : bool :=
  match a, b with
  | KSide x y z, KSide x' y' z' | KTop x y z, KTop x' y' z' =>
      num_string_eqb x x' && num_string_eqb y y' && num_string_eqb z z'
  | _, _ => false
  end.

Record ref := { r_geometry : nat; r_index : nat; r_inverseNormalMatrix : list float }.

Record bucket := { sumX : float; sumY : float; sumZ : float; refs : list ref }.

(** The [bucketMap] in insertion order. *)
Fixpoint bucket_add (k : key) (v : vec3) (r : ref) (bs : list (key * bucket))
    : list (key * bucket) :=
  match bs with
  | [] => [(k, {| sumX := 0 + vx v; sumY := 0 + vy v; sumZ := 0 + vz v; refs := [r] |})]
  | (k', b) :: rest =>
      if key_eqb k k'
      then (k', {| sumX := sumX b + vx v; sumY := sumY b + vy v; sumZ := sumZ b + vz v;
                   refs := refs b ++ [r] |}) :: rest
      else (k', b) :: bucket_add k v r rest
  end.

(** ** The harmonization *)

Section Harmonize.

(** [geometry.computeVertexNormals()], a three.js routine. *)
Variable computeVertexNormals : geometry -> geometry.

(** The per-mesh quantities computed before the vertex loop. *)
Record mesh_frame := {
  f_normalMatrix : list float;
  f_inverseNormalMatrix : list float;
  f_meshTopZ : float;
  f_topPlaneTolerance : float;
  f_topBandHeight : float;
  f_topVertexMask : option (list bool) }.

Definition z_extent (mw : list float) (pos : list float) : float * float :=
  fold_left (fun '(top, bottom) i =>
      let p := applyMatrix4 (getXYZ pos i) mw in
      (if top <? vz p then vz p else top, if vz p <? bottom then vz p else bottom))
    (seq 0 (count pos)) (neg_infinity, infinity).

(** One triangle of the [flattenTopFaces] pass. *)
Definition mask_triangle (safeUpThreshold : float) (mw : list float) (pos : list float)
    (index : option (list Z)) (mask : list bool) (tri : nat) : list bool :=
  let vid k := match index with
               | Some ix => nth (tri * 3 + k) ix 0%Z
               | None => Z.of_nat (tri * 3 + k) end in
  let ia := vid 0%nat in let ib := vid 1%nat in let ic := vid 2%nat in
  let n := Z.of_nat (count pos) in
  if (ia <? 0)%Z || (ib <? 0)%Z || (ic <? 0)%Z || (n <=? ia)%Z || (n <=? ib)%Z || (n <=? ic)%Z
  then mask else
  let A := applyMatrix4 (getXYZ pos (Z.to_nat ia)) mw in
  let B := applyMatrix4 (getXYZ pos (Z.to_nat ib)) mw in
  let C := applyMatrix4 (getXYZ pos (Z.to_nat ic)) mw in
  let N := cross (sub B A) (sub C A) in
  if lengthSq N <? 1e-12 then mask else
  let N := normalize N in
  let upAlignment := dot N worldUp in
  if negb (js_isFinite upAlignment) || (abs upAlignment <? safeUpThreshold) then mask else
  list_set (list_set (list_set mask (Z.to_nat ia) true) (Z.to_nat ib) true) (Z.to_nat ic) true.

Definition topVertexMask (safeUpThreshold : float) (mw : list float) (pos : list float)
    (index : option (list Z)) : list bool :=
  let triangleCount := match index with
                       | Some ix => Nat.div (List.length ix) 3
                       | None => Nat.div (count pos) 3 end in
  fold_left (mask_triangle safeUpThreshold mw pos index)
    (seq 0 triangleCount) (repeat false (count pos)).

Definition frame_of (safeTolerance safeUpThreshold : float) (flattenTopFaces : bool)
    (mw : list float) (pos : list float) (index : option (list Z)) : mesh_frame :=
  let normalMatrix := getNormalMatrix mw in
  let '(meshTopZ, meshBottomZ) := z_extent mw pos in
  let meshHeight := if js_isFinite meshTopZ && js_isFinite meshBottomZ
                    then js_max 0 (meshTopZ - meshBottomZ) else 0 in
  {| f_normalMatrix := normalMatrix;
     f_inverseNormalMatrix := invert3 normalMatrix;
     f_meshTopZ := meshTopZ;
     f_topPlaneTolerance := js_max (safeTolerance * 0.35) (meshHeight * 0.01);
     f_topBandHeight := js_max (safeTolerance * 10) 0.08;
     f_topVertexMask := if flattenTopFaces
                        then Some (topVertexMask safeUpThreshold mw pos index) else None |}.

(** What the vertex loop does with vertex [i]: [None] for [continue], else
    the bucket key, the sampled world normal and [qualifiesByTopFace]. *)
Definition classify (safeTolerance safeUpThreshold : float) (fr : mesh_frame)
    (mw : list float) (pos nrm : list float) (i : nat) : option (key * vec3 * bool) :=
  let worldNormal := normalize (applyMatrix3 (getXYZ nrm i) (f_normalMatrix fr)) in
  let normalUpAlignment := dot worldNormal worldUp in
  let qualifiesByNormal := js_isFinite normalUpAlignment &&
                           (safeUpThreshold <=? abs normalUpAlignment) in
  let worldPosition := applyMatrix4 (getXYZ pos i) mw in
  let qualifiesByHeight := js_isFinite (f_meshTopZ fr) && js_isFinite (vz worldPosition) &&
                           (f_meshTopZ fr - vz worldPosition <=? f_topPlaneTolerance fr) in
  let qualifiesByTopFace :=
    match f_topVertexMask fr with Some mask => nth i mask false | None => false end
    || (qualifiesByHeight && qualifiesByNormal) in
  if negb qualifiesByNormal && negb qualifiesByTopFace then None else
  let keyX := js_round (vx worldPosition / safeTolerance) in
  let keyY := js_round (vy worldPosition / safeTolerance) in
  let k := if qualifiesByTopFace
           then KTop keyX keyY (js_round (vz worldPosition / f_topBandHeight fr))
           else KSide keyX keyY (js_round (vz worldPosition / safeTolerance)) in
  let sampled := if qualifiesByTopFace then worldUp
                 else if 0 <=? normalUpAlignment then worldNormal
                 else multiplyScalar worldNormal (-1) in
  Some (k, sampled, qualifiesByTopFace).

(** The state of the first pass: the geometries, the [bucketMap] and
    [topFaceRefs]. *)
Record collect_state := {
  c_store : store; c_buckets : list (key * bucket); c_topFaceRefs : list ref }.

Definition collect_vertex (safeTolerance safeUpThreshold : float) (flattenTopFaces : bool)
    (fr : mesh_frame) (mw pos nrm : list float) (gid : nat)
    (st : collect_state) (i : nat) : collect_state :=
  match classify safeTolerance safeUpThreshold fr mw pos nrm i with
  | None => st
  | Some (k, sampled, top) =>
      let r := {| r_geometry := gid; r_index := i;
                  r_inverseNormalMatrix := f_inverseNormalMatrix fr |} in
      {| c_store := c_store st;
         c_buckets := bucket_add k sampled r (c_buckets st);
         c_topFaceRefs := if flattenTopFaces && top then c_topFaceRefs st ++ [r]
                          else c_topFaceRefs st |}
  end.

(** The body of [meshes.forEach]. *)
Definition collect_mesh (safeTolerance safeUpThreshold : float) (flattenTopFaces : bool)
    (st : collect_state) (m : mesh) : collect_state :=
  match m_geometry m with None => st | Some gid =>
  match nth_error (c_store st) gid with None => st | Some g =>
  match g_position g with None => st | Some pos =>
  let '(s, g) := match g_normal g with
                 | Some _ => (c_store st, g)
                 | None => let g' := computeVertexNormals g in
                           (store_set (c_store st) gid g', g')
                 end in
  let st := {| c_store := s; c_buckets := c_buckets st; c_topFaceRefs := c_topFaceRefs st |} in
  match g_normal g with None => st | Some nrm =>
  let mw := m_matrixWorld m in
  let fr := frame_of safeTolerance safeUpThreshold flattenTopFaces mw pos (g_index g) in
  fold_left (collect_vertex safeTolerance safeUpThreshold flattenTopFaces fr mw pos nrm gid)
    (seq 0 (count pos)) st
  end end end end.

(** [localNormal.copy(v).applyMatrix3(ref.inverseNormalMatrix).normalize()]
    written back with [setXYZ]. *)
Definition write_ref (v : vec3) (s : store) (r : ref) : store :=
  set_normal s (r_geometry r) (r_index r)
    (normalize (applyMatrix3 v (r_inverseNormalMatrix r))).

Definition write_bucket (s : store) (kb : key * bucket) : store :=
  let b := snd kb in
  match refs b with
  | [] => s
  | _ =>
      let avg := V3 (sumX b) (sumY b) (sumZ b) in
      if lengthSq avg <? 1e-10 then s
      else fold_left (write_ref (normalize avg)) (refs b) s
  end.

Definition safe_tolerance (positionTolerance : float) : float :=
  if js_isFinite positionTolerance && (0 <? positionTolerance) then positionTolerance else 0.002.

Definition safe_up_threshold (upNormalThreshold : float) : float :=
  if js_isFinite upNormalThreshold then upNormalThreshold else 0.55.

Definition harmonizeCountertopNormals (meshes : list mesh) (s : store)
    (positionTolerance upNormalThreshold : float) (flattenTopFaces : bool) : store :=
  match meshes with
  | [] => s
  | _ =>
      let safeTolerance := safe_tolerance positionTolerance in
      let safeUpThreshold := safe_up_threshold upNormalThreshold in
      let st := fold_left (collect_mesh safeTolerance safeUpThreshold flattenTopFaces) meshes
                  {| c_store := s; c_buckets := []; c_topFaceRefs := [] |} in
      let s := fold_left write_bucket (c_buckets st) (c_store st) in
      match flattenTopFaces, c_topFaceRefs st with
      | true, _ :: _ => fold_left (write_ref worldUp) (c_topFaceRefs st) s
      | _, _ => s
      end
  end.

End Harmonize.

End Harmonize.

(* ================================================================== *)
(** * Properties *)

Module MeshFacts.
Import Js Mesh SceneFixture.

Lemma parse_loop_positive fuel ver st ints fl bf off p :
  In p (parse_loop fuel ver st ints fl bf off) -> 0 < faceCnt p /\ 0 < vertexCnt p.
Proof.
  revert off. induction fuel as [|f IH]; intros off Hin; simpl in Hin; [contradiction|].
  destruct (off + 20 <? _); [|contradiction].
  destruct (at_int ints (off + 4) <=? 0) eqn:E4; simpl in Hin; [eauto|].
  destruct (at_int ints (off + 6) <=? 0) eqn:E6; simpl in Hin; [eauto|].
  destruct Hin as [<-|Hin]; [|eauto].
  cbn [faceCnt vertexCnt record_at]. apply Z.leb_gt in E4, E6. lia.
Qed.

Lemma parseMeshProps_positive mb bb ps :
  parseMeshProps mb bb = inr ps -> Forall (fun p => 0 < faceCnt p /\ 0 < vertexCnt p) ps.
Proof.
  unfold parseMeshProps.
  destruct (int32_view mb), (float32_view mb), (float32_view bb); try discriminate.
  destruct (_ <? 21); intros H; inversion H; subst.
  apply Forall_forall. intros p Hp. eapply parse_loop_positive; eauto.
Qed.

Lemma decode_all_count ps v :
  (List.length (fst (decode_all ps v)) + snd (decode_all ps v) = List.length ps)%nat.
Proof.
  induction ps as [|p r IH]; simpl; [reflexivity|].
  destruct (decode_all r v) as [gs sk]; simpl in *.
  destruct (decodeMeshGeometry p v); simpl; lia.
Qed.

Lemma buildScene_counts mb bb f16 f32 vb tb ub gs st :
  buildScene mb bb f16 f32 vb tb ub = inr (gs, st) ->
  exists ps, parseMeshProps mb bb = inr ps /\
    Forall (fun p => 0 < faceCnt p /\ 0 < vertexCnt p) ps /\
    (loaded_built st + loaded_skipped st = List.length ps)%nat.
Proof.
  unfold buildScene. destruct (parseMeshProps mb bb) as [e|ps] eqn:E; [discriminate|].
  destruct ps as [|p r]; [discriminate|].
  destruct (make_views f16 f32 vb tb ub) as [v|]; [|discriminate].
  pose proof (decode_all_count (p :: r) v) as C.
  destruct (decode_all (p :: r) v) as [gs0 sk] eqn:D.
  intros H; inversion H; subst; clear H. exists (p :: r).
  split; [reflexivity|]. split; [eapply parseMeshProps_positive; eauto|].
  simpl in C |- *. exact C.
Qed.

Lemma le_word_nonneg bs : 0 <= le_word bs.
Proof.
  induction bs as [|b r IH]; cbn [le_word]; [lia|].
  assert (0 <= byte_val b) by (unfold byte_val; rewrite Z.land_nonneg; right; lia).
  lia.
Qed.

Lemma element_words_nonneg k bs l :
  element_words k bs = Some l -> Forall (fun z => 0 <= z) l.
Proof.
  unfold element_words. destruct (Nat.eqb _ 0); intros H; inversion H; subst.
  apply Forall_forall. intros z Hz. apply in_map_iff in Hz.
  destruct Hz as [c [<- _]]. apply le_word_nonneg.
Qed.

Lemma opt_view_nonneg k bs l :
  opt_view (element_words k) bs = Some (Some l) -> Forall (fun z => 0 <= z) l.
Proof.
  unfold opt_view. destruct bs; [discriminate|].
  destruct (element_words k (z :: bs)) eqn:E; intros H; inversion H; subst.
  eapply element_words_nonneg; eauto.
Qed.

Lemma make_views_faces_nonneg f16 f32 vb tb ub v :
  make_views f16 f32 vb tb ub = Some v ->
  (forall l, faces16 v = Some l -> Forall (fun z => 0 <= z) l) /\
  (forall l, faces32 v = Some l -> Forall (fun z => 0 <= z) l).
Proof.
  unfold make_views.
  destruct (opt_view uint16_view f16) as [o16|] eqn:E16; [|discriminate].
  destruct (opt_view uint32_view f32) as [o32|] eqn:E32; [|discriminate].
  destruct (int16_view vb), (int32_view vb), (float32_view tb),
    (opt_view uint16_view ub), (opt_view float32_view ub); try discriminate.
  intros H; inversion H; subst; simpl.
  split; intros faceList Hfl; subst; eapply opt_view_nonneg; eassumption.
Qed.


Definition face_view (p : mesh_props) (v : views) : option (list Z) :=
  if useFaces16 p then faces16 v else faces32 v.

Definition face_offset (p : mesh_props) : Z :=
  faceByteOffset p / (if useFaces16 p then 2 else 4).

Lemma decode_shape p v g :
  decodeMeshGeometry p v = Some g ->
  exists arr off m fa,
    vertex_source p v = (arr, off) /\ 0 <= off /\
    off + vertexCnt p * 3 <= Z.of_nat (List.length arr) /\
    getFloat32At (transforms v) (transformByteOffset p) 16 = Some m /\
    face_view p v = Some fa /\ 0 <= face_offset p /\
    face_offset p + faceCnt p * 3 <= Z.of_nat (List.length fa) /\
    g = {| positions := flat_map (fun vi =>
             transformPoint m (dequantized p arr (off + vi * 3))
               (dequantized p arr (off + vi * 3 + 1))
               (dequantized p arr (off + vi * 3 + 2))) (zrange (vertexCnt p));
           indices := map (fun i => clamp_index (vertexCnt p)
                        (match ta_get fa (face_offset p + i) with
                         | Some r => r | None => 0 end)) (zrange (faceCnt p * 3));
           uvs := decode_uvs p v |}.
Proof.
  unfold decodeMeshGeometry, face_view, face_offset.
  destruct (vertex_source p v) as [arr off].
  destruct ((off <? 0) || (Z.of_nat (List.length arr) <? off + vertexCnt p * 3)) eqn:Ev;
    [discriminate|].
  apply orb_false_iff in Ev as [Ev1 Ev2].
  destruct (getFloat32At (transforms v) (transformByteOffset p) 16) as [m|]; [|discriminate].
  destruct (if useFaces16 p then faces16 v else faces32 v) as [fa|]; [|discriminate].
  match goal with |- context [if ?c then None else _] => destruct c eqn:Ef end;
    [discriminate|].
  apply orb_false_iff in Ef as [Ef1 Ef2].
  intros H; inversion H; subst; clear H.
  apply Z.ltb_ge in Ev1, Ev2, Ef1, Ef2.
  exists arr, off, m, fa. repeat split; lia.
Qed.

Lemma nth_error_zrange n k :
  nth_error (zrange n) k = if Nat.ltb k (Z.to_nat n) then Some (Z.of_nat k) else None.
Proof.
  unfold zrange. rewrite nth_error_map, nth_error_seq.
  destruct (Nat.ltb k (Z.to_nat n)); reflexivity.
Qed.

Lemma ta_get_in_range {A} (l : list A) i :
  0 <= i < Z.of_nat (List.length l) -> exists x, ta_get l i = Some x.
Proof.
  intros Hi. unfold ta_get. destruct (i <? 0) eqn:E; [apply Z.ltb_lt in E; lia|].
  destruct (nth_error l (Z.to_nat i)) eqn:N; [eauto|].
  apply nth_error_None in N. lia.
Qed.

Lemma flat_map3_block {A B} (F : A -> list B) (l : list A) k a :
  (forall x, List.length (F x) = 3%nat) -> nth_error l k = Some a ->
  firstn 3 (skipn (3 * k) (flat_map F l)) = F a.
Proof.
  intros HF. revert k. induction l as [|x r IH]; intros k Hk; [destruct k; discriminate|].
  destruct k as [|k]; simpl in Hk.
  - inversion Hk; subst. replace (3 * 0)%nat with 0%nat by lia. cbn [skipn flat_map].
    rewrite firstn_app, HF, Nat.sub_diag, firstn_all2 by (rewrite HF; lia).
    cbn [firstn]. apply app_nil_r.
  - cbn [flat_map]. replace (3 * S k)%nat with (List.length (F x) + 3 * k)%nat by (rewrite HF; lia).
    rewrite skipn_app, skipn_all2 by lia. rewrite Nat.add_comm, Nat.add_sub.
    simpl. apply IH; exact Hk.
Qed.

Ltac bool_facts :=
  repeat match goal with
         | H : (_ <? _) = true |- _ => apply Z.ltb_lt in H
         | H : (_ <? _) = false |- _ => apply Z.ltb_ge in H
         | H : (_ || _) = true |- _ => apply orb_true_iff in H
         | H : (_ || _) = false |- _ => apply orb_false_iff in H
         | H : _ /\ _ |- _ => destruct H
         end.

Lemma stepped_fuel_succ f v e st :
  1 <= st -> (Z.to_nat (e - v) <= f)%nat ->
  Backdrop.stepped_fuel (S f) v e st = Backdrop.stepped_fuel f v e st.
Proof.
  intros Hst. revert v. induction f as [|f IH]; intros v Hf.
  - cbn. destruct (v <? e) eqn:E; [apply Z.ltb_lt in E; lia | reflexivity].
  - change (Backdrop.stepped_fuel (S (S f)) v e st) with
      (if v <? e then v :: Backdrop.stepped_fuel (S f) (v + st) e st else []).
    change (Backdrop.stepped_fuel (S f) v e st) with
      (if v <? e then v :: Backdrop.stepped_fuel f (v + st) e st else []).
    destruct (v <? e) eqn:E; [|reflexivity]. apply Z.ltb_lt in E.
    rewrite IH; [reflexivity|lia].
Qed.

Lemma stepped_fuel_enough f v e st :
  1 <= st -> (Z.to_nat (e - v) <= f)%nat ->
  Backdrop.stepped_fuel f v e st = Backdrop.stepped v e st.
Proof.
  intros Hst Hf. unfold Backdrop.stepped.
  replace f with (Z.to_nat (e - v) + (f - Z.to_nat (e - v)))%nat by lia.
  induction (f - Z.to_nat (e - v))%nat as [|k IH].
  - rewrite Nat.add_0_r. reflexivity.
  - rewrite Nat.add_succ_r, stepped_fuel_succ by lia. exact IH.
Qed.

Lemma parse_loop_stepped f version stride ints floats bfs off :
  parse_loop f version stride ints floats bfs off =
  map (record_at version ints floats bfs)
    (filter (fun o => (0 <? at_int ints (o + 4)) && (0 <? at_int ints (o + 6)))
       (Backdrop.stepped_fuel f off (Z.of_nat (List.length ints) - 20) stride)).
Proof.
  revert off. induction f as [|f IH]; intros off; [reflexivity|].
  cbn [parse_loop Backdrop.stepped_fuel].
  replace (off + 20 <? Z.of_nat (List.length ints))
    with (off <? Z.of_nat (List.length ints) - 20)
    by (destruct (Z.ltb_spec (off + 20) (Z.of_nat (List.length ints)));
        destruct (Z.ltb_spec off (Z.of_nat (List.length ints) - 20)); lia).
  destruct (off <? Z.of_nat (List.length ints) - 20); [|reflexivity].
  cbn [filter]. rewrite IH.
  destruct (Z.leb_spec (at_int ints (off + 4)) 0), (Z.ltb_spec 0 (at_int ints (off + 4)));
    destruct (Z.leb_spec (at_int ints (off + 6)) 0), (Z.ltb_spec 0 (at_int ints (off + 6)));
    try lia; reflexivity.
Qed.

(** C1 (counterexample): the three-record table of [SceneFixture] (record 2
    has vertex count 0, records 1 and 3 decode) builds 2 meshes, but the
    load-complete status reports 0 skipped meshes, not 1: the
    zero-vertex record is dropped by [parseMeshProps] before decoding. *)
Lemma three_record_scene_skips_none :
  int32_view meshes_buf = Some ([1; 21] ++ record_words 10 0 3 ++ record_words 11 0 0
                                ++ record_words 12 1 3) /\
  match buildScene meshes_buf bounds_buf faces16_buf faces32_buf vertices_buf
          transforms_buf uvs0_buf with
  | inr (_, st) => loaded_built st = 2%nat /\ loaded_skipped st <> 1%nat
  | inl _ => False
  end.
Proof. vm_compute. split; [reflexivity | split; [reflexivity | discriminate]]. Qed.

Lemma decode_all_exact ps v :
  List.length (fst (decode_all ps v)) = List.length (SceneIndex.built_props ps v) /\
  snd (decode_all ps v) =
    List.length (filter (fun p => match decodeMeshGeometry p v with
                                  | Some _ => false | None => true end) ps).
Proof.
  unfold SceneIndex.built_props.
  induction ps as [|p r IH]; simpl; [split; reflexivity|].
  destruct (decode_all r v) as [gs sk]; simpl in *. destruct IH as [IH1 IH2].
  destruct (decodeMeshGeometry p v); simpl; lia.
Qed.

Lemma filter_map_comm {A B} (f : B -> bool) (g : A -> B) (l : list A) :
  filter f (map g l) = map g (filter (fun x => f (g x)) l).
Proof.
  induction l as [|x r IH]; simpl; [reflexivity|].
  destruct (f (g x)); simpl; rewrite IH; reflexivity.
Qed.

Lemma filter_length_split {A} (f : A -> bool) (l : list A) :
  (List.length (filter f l) + List.length (filter (fun x => negb (f x)) l) = List.length l)%nat.
Proof.
  induction l as [|x r IH]; simpl; [reflexivity|].
  destruct (f x); simpl; lia.
Qed.

Lemma filter_all_true {A} (f : A -> bool) (l : list A) :
  Forall (fun x => f x = true) l -> filter f l = l.
Proof.
  induction 1 as [|x r Hx _ IH]; simpl; [reflexivity|]. rewrite Hx, IH. reflexivity.
Qed.

Lemma filter_all_false {A} (f : A -> bool) (l : list A) :
  Forall (fun x => f x = false) l -> filter f l = [].
Proof.
  induction 1 as [|x r Hx _ IH]; simpl; [reflexivity|]. rewrite Hx. exact IH.
Qed.

(** The records [parseMeshProps] keeps are the table's records (one per
    stride offset) with positive face and vertex counts, in table order. *)
Lemma parseMeshProps_table mb bb ints floats bfs :
  int32_view mb = Some ints -> float32_view mb = Some floats ->
  float32_view bb = Some bfs -> 21 <= nth 1 ints 0 ->
  parseMeshProps mb bb =
  inr (filter (fun r => (0 <? faceCnt r) && (0 <? vertexCnt r))
         (map (record_at (nth 0 ints 0) ints floats bfs)
            (Backdrop.stepped 2 (Z.of_nat (List.length ints) - 20) (nth 1 ints 0)))).
Proof.
  intros Hi Hf Hb Hs. unfold parseMeshProps. rewrite Hi, Hf, Hb.
  destruct (Z.ltb_spec (nth 1 ints 0) 21); [lia|].
  rewrite parse_loop_stepped, stepped_fuel_enough by lia.
  rewrite filter_map_comm. reflexivity.
Qed.

(** C1 (amended): the load-complete counts of a successful build are exact:
    [built] is the number of records kept by [parseMeshProps] whose
    geometry decodes and [skipped] the number of kept records whose decode
    returns null; records with a non-positive face or vertex count never
    reach the decode loop.  Hence every scene whose table has 3 records, one
    with vertex count 0 and two with positive counts that decode, builds
    exactly 2 meshes and reports 0 skipped. *)
Theorem scene_build_counts_parsed_records :
  (forall mb bb f16 f32 vb tb ub gs st,
    buildScene mb bb f16 f32 vb tb ub = inr (gs, st) ->
    exists ps v, parseMeshProps mb bb = inr ps /\
      make_views f16 f32 vb tb ub = Some v /\
      Forall (fun p => 0 < faceCnt p /\ 0 < vertexCnt p) ps /\
      List.length gs = loaded_built st /\
      loaded_built st = List.length (SceneIndex.built_props ps v) /\
      loaded_skipped st =
        List.length (filter (fun p => match decodeMeshGeometry p v with
                                      | Some _ => false | None => true end) ps)) /\
  (forall mb bb f16 f32 vb tb ub ints floats bfs v,
    int32_view mb = Some ints -> float32_view mb = Some floats ->
    float32_view bb = Some bfs -> 21 <= nth 1 ints 0 ->
    make_views f16 f32 vb tb ub = Some v ->
    let table := map (record_at (nth 0 ints 0) ints floats bfs)
                   (Backdrop.stepped 2 (Z.of_nat (List.length ints) - 20) (nth 1 ints 0)) in
    List.length table = 3%nat ->
    List.length (filter (fun r => vertexCnt r =? 0) table) = 1%nat ->
    Forall (fun r => vertexCnt r = 0 \/
                     (0 < faceCnt r /\ 0 < vertexCnt r /\ decodeMeshGeometry r v <> None))
      table ->
    exists gs st, buildScene mb bb f16 f32 vb tb ub = inr (gs, st) /\
      List.length gs = 2%nat /\ loaded_built st = 2%nat /\ loaded_skipped st = 0%nat).
Proof.
  split.
  - intros mb bb f16 f32 vb tb ub gs st. unfold buildScene.
    destruct (parseMeshProps mb bb) as [e|ps] eqn:E; [discriminate|].
    destruct ps as [|p r]; [discriminate|].
    destruct (make_views f16 f32 vb tb ub) as [v|]; [|discriminate].
    pose proof (decode_all_exact (p :: r) v) as [C1 C2].
    destruct (decode_all (p :: r) v) as [gs0 sk] eqn:D.
    intros H; inversion H; subst; clear H. exists (p :: r), v.
    split; [reflexivity|]. split; [reflexivity|].
    split; [eapply parseMeshProps_positive; eauto|].
    simpl in C1, C2 |- *. split; [reflexivity|]. split; assumption.
  - intros mb bb f16 f32 vb tb ub ints floats bfs v Hi Hf Hb Hs Hv table Hlen Hone Hall.
    pose proof (parseMeshProps_table mb bb ints floats bfs Hi Hf Hb Hs) as Hp.
    fold table in Hp.
    set (pos := fun r : mesh_props => (0 <? faceCnt r) && (0 <? vertexCnt r)) in Hp.
    assert (Hfilt : filter pos table = filter (fun r => negb (vertexCnt r =? 0)) table).
    { apply filter_ext_in. intros r Hr. rewrite Forall_forall in Hall.
      destruct (Hall r Hr) as [Z0|(F & V & _)]; unfold pos.
      - rewrite Z0. simpl. destruct (0 <? faceCnt r); reflexivity.
      - destruct (Z.ltb_spec 0 (faceCnt r)), (Z.ltb_spec 0 (vertexCnt r)),
          (Z.eqb_spec (vertexCnt r) 0); try lia; reflexivity. }
    assert (Hdec : Forall (fun p => decodeMeshGeometry p v <> None) (filter pos table)).
    { apply Forall_forall. intros r Hr. apply filter_In in Hr as [Hr Hpos].
      rewrite Forall_forall in Hall. destruct (Hall r Hr) as [Z0|(_ & _ & D)]; [|exact D].
      unfold pos in Hpos. rewrite Z0 in Hpos. rewrite andb_false_r in Hpos. discriminate. }
    assert (Hkept : List.length (filter pos table) = 2%nat).
    { rewrite Hfilt. pose proof (filter_length_split (fun r => vertexCnt r =? 0) table). lia. }
    pose proof (decode_all_exact (filter pos table) v) as [C1 C2].
    unfold SceneIndex.built_props in C1.
    rewrite (filter_all_true (fun p => match decodeMeshGeometry p v with
                                       | Some _ => true | None => false end))
      in C1 by (eapply Forall_impl; [|exact Hdec]; intros p Hd;
          destruct (decodeMeshGeometry p v) eqn:Eg; [reflexivity|exact (False_ind _ (Hd Eg))]).
    rewrite (filter_all_false (fun p => match decodeMeshGeometry p v with
                                        | Some _ => false | None => true end))
      in C2 by (eapply Forall_impl; [|exact Hdec]; intros p Hd;
          destruct (decodeMeshGeometry p v) eqn:Eg; [reflexivity|exact (False_ind _ (Hd Eg))]).
    unfold buildScene. rewrite Hp.
    destruct (filter pos table) as [|p r] eqn:Ef; [discriminate|].
    rewrite Hv.
    destruct (decode_all (p :: r) v) as [gs0 sk] eqn:D. simpl in C1, C2.
    exists gs0, {| loaded_built := List.length gs0; loaded_skipped := sk |}.
    simpl in Hkept. simpl. repeat split; lia.
Qed.

(** The fixture scene builds its two meshes with status 2 built, 0 skipped. *)
Lemma fixture_build_eq :
  buildScene meshes_buf bounds_buf faces16_buf faces32_buf vertices_buf
    transforms_buf uvs0_buf = inr (fixture_meshes, {| loaded_built := 2; loaded_skipped := 0 |}).
Proof. vm_compute. reflexivity. Qed.

(** Witness: both halves of [scene_build_counts_parsed_records] at the
    fixture: its exact counts, and the three-record instance with the
    fixture's table (record 2 has vertex count 0, records 1 and 3 decode). *)
Lemma scene_build_counts_parsed_records_witness :
  (exists ps v, parseMeshProps meshes_buf bounds_buf = inr ps /\
      make_views faces16_buf faces32_buf vertices_buf transforms_buf uvs0_buf = Some v /\
      Forall (fun p => 0 < faceCnt p /\ 0 < vertexCnt p) ps /\
      List.length fixture_meshes = 2%nat /\
      2%nat = List.length (SceneIndex.built_props ps v) /\
      0%nat = List.length (filter (fun p => match decodeMeshGeometry p v with
                                            | Some _ => false | None => true end) ps)) /\
  (exists gs st, buildScene meshes_buf bounds_buf faces16_buf faces32_buf vertices_buf
                   transforms_buf uvs0_buf = inr (gs, st) /\
      List.length gs = 2%nat /\ loaded_built st = 2%nat /\ loaded_skipped st = 0%nat).
Proof.
  split.
  - exact (proj1 scene_build_counts_parsed_records meshes_buf bounds_buf faces16_buf
             faces32_buf vertices_buf transforms_buf uvs0_buf fixture_meshes
             {| loaded_built := 2; loaded_skipped := 0 |} fixture_build_eq).
  - apply (proj2 scene_build_counts_parsed_records meshes_buf bounds_buf faces16_buf
             faces32_buf vertices_buf transforms_buf uvs0_buf fixture_ints fixture_floats
             [] fixture_views).
    + vm_compute. reflexivity.
    + vm_compute. reflexivity.
    + vm_compute. reflexivity.
    + vm_compute. intros H. discriminate H.
    + vm_compute. reflexivity.
    + vm_compute. reflexivity.
    + vm_compute. reflexivity.
    + apply Forall_forall. intros r Hr. vm_compute in Hr.
      destruct Hr as [<-|[<-|[<-|[]]]].
      * right. vm_compute. split; [reflexivity|]. split; [reflexivity|]. intros H; discriminate H.
      * left. vm_compute. reflexivity.
      * right. vm_compute. split; [reflexivity|]. split; [reflexivity|]. intros H; discriminate H.
Defined.

(** C4: for every record kept by [parseMeshProps] and decoded against the
    views [buildScene] makes, every index-buffer entry lies in
    [0, vertexCnt); entry k is the raw 16- or 32-bit face entry at
    [faceElementOffset + k] when that is below [vertexCnt], and 0 otherwise. *)
Theorem decoded_indices_clamped mb bb ps p f16 f32 vb tb ub v g :
  parseMeshProps mb bb = inr ps -> In p ps ->
  make_views f16 f32 vb tb ub = Some v ->
  decodeMeshGeometry p v = Some g ->
  Forall (fun i => 0 <= i < vertexCnt p) (indices g) /\
  exists fa, face_view p v = Some fa /\
    forall k x, nth_error (indices g) k = Some x ->
      exists r, ta_get fa (face_offset p + Z.of_nat k) = Some r /\
        x = (if r <? vertexCnt p then r else 0).
Proof.
  intros Hps Hin Hv Hd.
  assert (Hpos : 0 < vertexCnt p).
  { apply parseMeshProps_positive in Hps. rewrite Forall_forall in Hps.
    apply Hps; exact Hin. }
  apply make_views_faces_nonneg in Hv as [N16 N32].
  apply decode_shape in Hd as (arr & off & m & fa & _ & _ & _ & _ & Hfa & Hfo & Hfl & ->).
  assert (Nfa : Forall (fun z => 0 <= z) fa).
  { unfold face_view in Hfa. destruct (useFaces16 p); eauto. }
  cbn [indices]. split.
  - apply Forall_map, Forall_forall. intros i _. unfold clamp_index.
    destruct (ta_get fa (face_offset p + i)) as [r|] eqn:Er.
    + destruct (r <? vertexCnt p) eqn:Lt; bool_facts; [|lia].
      assert (0 <= r).
      { unfold ta_get in Er. destruct (_ <? 0); [discriminate|].
        apply nth_error_In in Er. rewrite Forall_forall in Nfa. auto. }
      lia.
    + destruct (0 <? vertexCnt p); lia.
  - exists fa. split; [exact Hfa|]. intros k x Hk.
    rewrite nth_error_map, nth_error_zrange in Hk.
    destruct (Nat.ltb k (Z.to_nat (faceCnt p * 3))) eqn:Lk; [|discriminate].
    apply Nat.ltb_lt in Lk. simpl in Hk. inversion Hk; subst; clear Hk.
    destruct (ta_get_in_range fa (face_offset p + Z.of_nat k)) as [r Hr]; [lia|].
    exists r. rewrite Hr. split; reflexivity.
Qed.

(** Witness: [decoded_indices_clamped] at the first record of the fixture. *)
Lemma decoded_indices_clamped_witness :
  Forall (fun i => 0 <= i < vertexCnt fixture_record) (indices fixture_geometry).
Proof.
  apply (decoded_indices_clamped meshes_buf bounds_buf fixture_records fixture_record
           faces16_buf faces32_buf vertices_buf transforms_buf uvs0_buf fixture_views
           fixture_geometry); vm_compute; try reflexivity; left; reflexivity.
Defined.

Lemma num_mul_one (x : num) : num_mul x (Some 1%Q) = x.
Proof.
  destruct x as [[a b]|]; [|reflexivity]. unfold num_mul, Qmult. simpl.
  rewrite Z.mul_1_r, Pos.mul_1_r. reflexivity.
Qed.

Lemma window_positions p arr off m vi :
  0 <= vi < vertexCnt p ->
  window (flat_map (fun vi =>
             transformPoint m (dequantized p arr (off + vi * 3))
               (dequantized p arr (off + vi * 3 + 1))
               (dequantized p arr (off + vi * 3 + 2))) (zrange (vertexCnt p))) (vi * 3) 3
  = transformPoint m (dequantized p arr (off + vi * 3))
      (dequantized p arr (off + vi * 3 + 1)) (dequantized p arr (off + vi * 3 + 2)).
Proof.
  intros Hvi. unfold window.
  replace (Z.to_nat (vi * 3)) with (3 * Z.to_nat vi)%nat by lia.
  erewrite flat_map3_block; [reflexivity | reflexivity |].
  rewrite nth_error_zrange.
  destruct (Nat.ltb (Z.to_nat vi) (Z.to_nat (vertexCnt p))) eqn:L;
    [|apply Nat.ltb_ge in L; lia].
  rewrite Z2Nat.id by lia. reflexivity.
Qed.

(** C5: every decoded vertex is the record transform applied to
    [stored * f] on x, y and z with one factor
    [f = quantVertexRange / quantVertexMax], and [f = 1] when
    [quantVertexMax = 0], where the stored values are read from the
    8/16/32-bit view chosen by [minBytesToHold quantVertexMax]. *)
Theorem dequantized_uniform_factor p v g :
  decodeMeshGeometry p v = Some g ->
  exists m, getFloat32At (transforms v) (transformByteOffset p) 16 = Some m /\
  forall vi, 0 <= vi < vertexCnt p ->
    let (arr, off) := vertex_source p v in
    let f := if quantVertexMax p =? 0 then Some 1%Q
             else num_div (quantVertexRange p) (num_of_Z (quantVertexMax p)) in
    window (positions g) (vi * 3) 3 =
      transformPoint m (num_mul (num_at arr (off + vi * 3)) f)
        (num_mul (num_at arr (off + vi * 3 + 1)) f)
        (num_mul (num_at arr (off + vi * 3 + 2)) f) /\
    (quantVertexMax p = 0 ->
     window (positions g) (vi * 3) 3 =
       transformPoint m (num_at arr (off + vi * 3)) (num_at arr (off + vi * 3 + 1))
         (num_at arr (off + vi * 3 + 2))).
Proof.
  intros Hd.
  apply decode_shape in Hd as (arr & off & m & fa & Hsrc & _ & _ & Hm & _ & _ & _ & ->).
  exists m. split; [exact Hm|]. intros vi Hvi. rewrite Hsrc. cbn [positions].
  rewrite window_positions by exact Hvi. unfold dequantized, vertexFactor.
  split.
  - destruct (quantVertexMax p =? 0); reflexivity.
  - intros H0. rewrite H0. simpl. rewrite !num_mul_one. reflexivity.
Qed.

(** Witness: [dequantized_uniform_factor] at the fixture's first record (identity
    transform, [quantVertexMax = 0]): the stored vertices come out unscaled. *)
Lemma dequantized_uniform_factor_witness :
  window (positions fixture_geometry) 3 3 = [Some 1%Q; Some 0%Q; Some 0%Q] /\
  exists m, getFloat32At (transforms fixture_views) (transformByteOffset fixture_record) 16
            = Some m.
Proof.
  split; [vm_compute; reflexivity|].
  destruct (dequantized_uniform_factor fixture_record fixture_views fixture_geometry)
    as [m [Hm _]]; [vm_compute; reflexivity|].
  exists m. exact Hm.
Defined.

(** C6: decoding one record returns [null] exactly when the vertex window
    starts before its view or runs past its end, the 16-float transform
    window does, the selected face view is absent, or the face window
    starts before or runs past its view; in particular a negative vertex,
    transform or face byte offset gives [null].  The decoder is a total
    function: it always returns geometry or [null]. *)
Theorem decode_null_exactly_out_of_range p v :
  (decodeMeshGeometry p v = None <->
    (let (arr, off) := vertex_source p v in
       off < 0 \/ Z.of_nat (List.length arr) < off + vertexCnt p * 3)
    \/ transformByteOffset p / 4 < 0
    \/ Z.of_nat (List.length (transforms v)) < transformByteOffset p / 4 + 16
    \/ face_view p v = None
    \/ (exists fa, face_view p v = Some fa /\
         (face_offset p < 0 \/ Z.of_nat (List.length fa) < face_offset p + faceCnt p * 3)))
  /\ (vertexByteOffset p < 0 \/ transformByteOffset p < 0 \/ faceByteOffset p < 0 ->
      decodeMeshGeometry p v = None).
Proof.
  assert (Back : forall g, decodeMeshGeometry p v = Some g ->
    (let (arr, off) := vertex_source p v in
       0 <= off /\ off + vertexCnt p * 3 <= Z.of_nat (List.length arr))
    /\ 0 <= transformByteOffset p / 4
    /\ transformByteOffset p / 4 + 16 <= Z.of_nat (List.length (transforms v))
    /\ exists fa, face_view p v = Some fa /\ 0 <= face_offset p /\
         face_offset p + faceCnt p * 3 <= Z.of_nat (List.length fa)).
  { intros g Hd.
    apply decode_shape in Hd as (arr & off & m & fa & Hsrc & H1 & H2 & Hm & Hfa & H3 & H4 & _).
    rewrite Hsrc. unfold getFloat32At in Hm.
    destruct (_ || _) eqn:Et in Hm; [discriminate|]. bool_facts.
    repeat split; try lia. exists fa. repeat split; assumption || lia. }
  assert (Iff : decodeMeshGeometry p v = None <->
    (let (arr, off) := vertex_source p v in
       off < 0 \/ Z.of_nat (List.length arr) < off + vertexCnt p * 3)
    \/ transformByteOffset p / 4 < 0
    \/ Z.of_nat (List.length (transforms v)) < transformByteOffset p / 4 + 16
    \/ face_view p v = None
    \/ (exists fa, face_view p v = Some fa /\
         (face_offset p < 0 \/ Z.of_nat (List.length fa) < face_offset p + faceCnt p * 3))).
  { split.
    - unfold decodeMeshGeometry, face_view, face_offset, getFloat32At.
      destruct (vertex_source p v) as [arr off].
      destruct ((off <? 0) || _) eqn:Ev; [intros _; left; bool_facts; lia|].
      destruct ((transformByteOffset p / 4 <? 0) || _) eqn:Et;
        [intros _; right; bool_facts; lia|].
      destruct (if useFaces16 p then faces16 v else faces32 v) as [fa|] eqn:Ef;
        [|intros _; right; right; right; left; reflexivity].
      match goal with |- (if ?c then None else _) = None -> _ => destruct c eqn:Ec end;
        [|discriminate].
      intros _. right; right; right; right. exists fa. split; [reflexivity|].
      bool_facts. lia.
    - intros H. destruct (decodeMeshGeometry p v) as [g|] eqn:Hd; [|reflexivity].
      exfalso. destruct (Back g eq_refl) as (Hv & Ht1 & Ht2 & fa & Hfa & Hf1 & Hf2).
      destruct (vertex_source p v) as [arr off].
      destruct H as [H | [H | [H | [H | (fa' & Hfa' & H)]]]]; try lia; try congruence.
      rewrite Hfa in Hfa'. inversion Hfa'; subst. lia. }
  split; [exact Iff|].
  intros Hneg. apply Iff.
  destruct Hneg as [H | [H | H]].
  - left. unfold vertex_source.
    destruct (minBytesToHold (quantVertexMax p) =? 1); [left; exact H|].
    destruct (minBytesToHold (quantVertexMax p) =? 2); left;
      apply Z.div_lt_upper_bound; lia.
  - right; left. apply Z.div_lt_upper_bound; lia.
  - destruct (face_view p v) as [fa|] eqn:Hfa; [|right; right; right; left; reflexivity].
    right; right; right; right. exists fa. split; [reflexivity|]. left.
    unfold face_offset. destruct (useFaces16 p); apply Z.div_lt_upper_bound; lia.
Qed.

End MeshFacts.

Module TextureLoadFacts.
Import TextureLoad.

Section Facts.
Variable texture : Type.
Variable load : string -> option texture.

Lemma attempt_shape pending :
  let (tried, res) := attempt load pending in
  (res = None -> tried = pending /\ Forall (fun c => load c = None) pending) /\
  (forall t url, res = Some (t, url) ->
     exists pre post, pending = pre ++ url :: post /\
       Forall (fun c => load c = None) pre /\ tried = pre ++ [url] /\ load url = Some t).
Proof.
  induction pending as [|c r IH]; simpl.
  - split; [split; [reflexivity | constructor]|]. intros; discriminate.
  - destruct (load c) as [t0|] eqn:Lc.
    + split; [discriminate|]. intros t url H; inversion H; subst.
      exists [], r. repeat split; auto.
    + destruct (attempt load r) as [tried res]. destruct IH as [IHn IHs].
      split.
      * intros Hn. destruct (IHn Hn) as [-> Hf]. split; [reflexivity|]. constructor; auto.
      * intros t url Hs. destruct (IHs t url Hs) as (pre & post & -> & Hf & -> & Hl).
        exists (c :: pre), post. repeat split; auto.
Qed.

Lemma attempt_dedup seen l :
  Forall (fun c => load c = None) seen ->
  Forall (fun c => is_truthy c = true) l ->
  snd (attempt load (dedup_from seen l)) = first_loading_candidate load l.
Proof.
  revert seen. induction l as [|c r IH]; intros seen Hseen Hl; [reflexivity|].
  inversion Hl as [|? ? Hc Hr]; subst. simpl. rewrite Hc.
  destruct (existsb (String.eqb c) seen) eqn:E.
  - apply existsb_exists in E as [c' [Hin Heq]]. apply String.eqb_eq in Heq; subst c'.
    rewrite (proj1 (Forall_forall _ _) Hseen c Hin). apply IH; auto.
  - simpl. destruct (load c) as [t|] eqn:Lc; [reflexivity|].
    destruct (attempt load (dedup_from (c :: seen) r)) as [tried res] eqn:A.
    simpl. rewrite <- (IH (c :: seen)); [rewrite A; reflexivity | constructor; auto | auto].
Qed.

Lemma first_loading_candidate_filter l :
  first_loading_candidate load (filter is_truthy l) = first_loading_candidate load l.
Proof.
  induction l as [|c r IH]; simpl; [reflexivity|].
  destruct (is_truthy c) eqn:T; simpl; rewrite ?T; [|exact IH].
  destruct (load c); [reflexivity | exact IH].
Qed.

Lemma first_loading_candidate_none l :
  first_loading_candidate load l = None <->
  Forall (fun c => c = EmptyString \/ load c = None) l.
Proof.
  induction l as [|c r IH]; simpl.
  - split; [constructor | reflexivity].
  - unfold is_truthy. destruct (String.eqb c EmptyString) eqn:E; simpl.
    + apply String.eqb_eq in E. split.
      * intros H. constructor; [left; exact E | apply IH, H].
      * intros H. inversion H; subst. apply IH; assumption.
    + apply String.eqb_neq in E. destruct (load c) eqn:Lc.
      * split; [discriminate|]. intros H. inversion H as [|? ? [H1|H1] _]; congruence.
      * split.
        -- intros H. constructor; [right; exact Lc | apply IH, H].
        -- intros H. inversion H; subst. apply IH; assumption.
Qed.

Lemma filter_truthy_all l : Forall (fun c => is_truthy c = true) (filter is_truthy l).
Proof.
  apply Forall_forall. intros c Hc. apply filter_In in Hc. tauto.
Qed.

(** C7: the loader tries the de-duplicated non-empty candidates strictly in
    order, one at a time: it stops at the first success, every URL tried
    before it failed, and it returns that first successful candidate (the
    first non-empty candidate of the list whose load succeeds); it yields
    [null] exactly when every candidate fails, after trying them all. *)
Theorem candidates_tried_in_order cands :
  let (tried, res) := loadTextureFromCandidates load cands in
  res = first_loading_candidate load cands /\
  (res = None <-> Forall (fun c => c = EmptyString \/ load c = None) cands) /\
  (res = None -> tried = uniqueCandidates cands) /\
  (forall t url, res = Some (t, url) ->
     exists pre post, uniqueCandidates cands = pre ++ url :: post /\
       Forall (fun c => load c = None) pre /\ tried = pre ++ [url] /\ load url = Some t).
Proof.
  unfold loadTextureFromCandidates.
  pose proof (attempt_shape (uniqueCandidates cands)) as Sh.
  pose proof (attempt_dedup [] (filter is_truthy cands) (Forall_nil _)
                (filter_truthy_all cands)) as Dd.
  rewrite first_loading_candidate_filter in Dd. fold (uniqueCandidates cands) in Dd.
  destruct (attempt load (uniqueCandidates cands)) as [tried res]. simpl in Dd.
  destruct Sh as [Sn Ss].
  split; [exact Dd|]. split; [rewrite Dd; apply first_loading_candidate_none|].
  split; [intros H; apply Sn, H | exact Ss].
Qed.

End Facts.

End TextureLoadFacts.

Module BackdropFacts.
Import Backdrop.

(** C8 (counterexample): the 16x16 image with a black 4x4 square has a
    tight foreground box of 4x4 (columns and rows 6..9), under 8x8, and a
    foreground share of 16/256, above 4%; yet the processing returns a
    canvas (the 8x8 padded crop at (4, 4)), so the texture is replaced. *)
Lemma square_image_small_box_processed :
  foreground_stats square_image = (16, 6, 6, 9, 9) /\
  16 * 100 >= width square_image * height square_image * 4 /\
  processed_texture square_image =
    FromCanvas {| crop_x := 4; crop_y := 4; crop_w := 8; crop_h := 8 |}.
Proof. vm_compute. split; [reflexivity | split; [discriminate | reflexivity]]. Qed.

(** C8 (amended): the texture is used as loaded exactly when the image has
    a zero side, its pixels cannot be read, it has no foreground pixel, the
    foreground covers under 4% of the pixels, or the padded crop (the tight
    foreground box grown by [max(2, floor(min(w, h) / 100))] on each side and
    clipped to the image) is narrower or lower than 8 pixels. *)
Theorem countertop_fallback_iff img :
  let '(cnt, _, _, _, _) := foreground_stats img in
  let c := padded_crop img in
  processed_texture img = AsLoaded <->
  (width img = 0 \/ height img = 0 \/ readable img = false \/ cnt = 0 \/
   cnt * 100 < width img * height img * 4 \/ crop_w c < 8 \/ crop_h c < 8).
Proof.
  unfold processed_texture, cropAndFillCountertopTextureImage.
  destruct (foreground_stats img) as [[[[cnt a] b] d] e].
  destruct (width img =? 0) eqn:W; simpl.
  { apply Z.eqb_eq in W. split; [tauto | reflexivity]. }
  destruct (height img =? 0) eqn:H; simpl.
  { apply Z.eqb_eq in H. split; [tauto | reflexivity]. }
  apply Z.eqb_neq in W, H.
  destruct (readable img) eqn:R; simpl; [|split; [tauto | reflexivity]].
  destruct (cnt =? 0) eqn:C0.
  { apply Z.eqb_eq in C0. split; [tauto | reflexivity]. }
  apply Z.eqb_neq in C0.
  destruct (cnt * 100 <? width img * height img * 4) eqn:LT.
  { apply Z.ltb_lt in LT. split; [tauto | reflexivity]. }
  apply Z.ltb_ge in LT.
  destruct (crop_w (padded_crop img) <? 8) eqn:CW; simpl.
  { apply Z.ltb_lt in CW. split; [tauto | reflexivity]. }
  destruct (crop_h (padded_crop img) <? 8) eqn:CH; simpl.
  { apply Z.ltb_lt in CH. split; [tauto | reflexivity]. }
  apply Z.ltb_ge in CW, CH.
  split; [discriminate|]. intros [X|[X|[X|[X|[X|[X|X]]]]]]; congruence || lia.
Qed.

End BackdropFacts.

Module MaterialFacts.
Import Js Materials.

Lemma clamp01_range v f : (0 <= f <= 1)%Q -> (0 <= clamp01 v f <= 1)%Q.
Proof.
  intros Hf. unfold clamp01. destruct (to_number v) as [p|]; [|exact Hf].
  destruct (Qle_bool 0 p) eqn:E0.
  - apply Qle_bool_iff in E0. destruct (Qle_bool p 1) eqn:E1.
    + apply Qle_bool_iff in E1. split; assumption.
    + split; discriminate.
  - destruct (Qle_bool 0 1) eqn:E1; [split; [apply Qle_refl | discriminate]|discriminate].
Qed.

Lemma rgbArrayToColor_range v hex :
  (0 <= cr (color_of_hex hex) <= 1 /\ 0 <= cg (color_of_hex hex) <= 1 /\
   0 <= cb (color_of_hex hex) <= 1)%Q ->
  (0 <= cr (rgbArrayToColor v hex) <= 1 /\ 0 <= cg (rgbArrayToColor v hex) <= 1 /\
   0 <= cb (rgbArrayToColor v hex) <= 1)%Q.
Proof.
  intros Hh. unfold rgbArrayToColor.
  destruct v; try exact Hh.
  destruct (List.length l <? 3)%nat; [exact Hh|].
  cbn [cr cg cb].
  assert (H01 : (0 <= 1 <= 1)%Q) by (split; discriminate).
  repeat split; apply clamp01_range; exact H01.
Qed.

(** C10 (amended): for a truthy scene material entry whose [emissive] field
    is truthy, the built material's emissive color is
    [rgbArrayToColor(baseColor, black)] (the three channels coerced with
    [Number] and clamped to [0, 1], a non-finite channel giving 1, and
    black when [baseColor] is not an array of at least three entries),
    every channel lies in [0, 1], and the emissive intensity is
    [Number(emissionStrength)] when that is finite and 1 otherwise. *)
Theorem emissive_from_base_color source :
  truthy source = true -> truthy (get source "emissive") = true ->
  let m := build_material source in
  mat_emissive m = rgbArrayToColor (get source "baseColor") 0 /\
  (0 <= cr (mat_emissive m) <= 1 /\ 0 <= cg (mat_emissive m) <= 1 /\
   0 <= cb (mat_emissive m) <= 1)%Q /\
  mat_emissiveIntensity m =
    match to_number (get source "emissionStrength") with Some q => q | None => 1%Q end.
Proof.
  intros Hs He m. subst m. unfold build_material. rewrite Hs. simpl negb. cbv iota.
  unfold materialConfigFromSceneEntry. cbn [cfg_emissive]. rewrite He.
  cbn [mat_emissive mat_emissiveIntensity cfg_emissiveIntensity].
  split; [reflexivity|]. split.
  - apply rgbArrayToColor_range. vm_compute. repeat split; discriminate.
  - reflexivity.
Qed.

(** Witness: [emissive_from_base_color] at the [null]-strength entry. *)
Lemma emissive_from_base_color_witness :
  let m := build_material null_strength_entry in
  mat_emissive m = rgbArrayToColor (get null_strength_entry "baseColor") 0 /\
  (0 <= cr (mat_emissive m) <= 1 /\ 0 <= cg (mat_emissive m) <= 1 /\
   0 <= cb (mat_emissive m) <= 1)%Q /\
  mat_emissiveIntensity m =
    match to_number (get null_strength_entry "emissionStrength") with
    | Some q => q | None => 1%Q end.
Proof. apply (emissive_from_base_color null_strength_entry); reflexivity. Defined.

(** C10 (counterexample): an emissive entry whose [emissionStrength] is
    [null] (not a finite number) gets emissive intensity 0, not 1, since
    [Number(null)] is 0; the emissive color is (0.5, 1, 1). *)
Lemma null_strength_gives_zero_intensity :
  get null_strength_entry "emissionStrength" = JNull /\
  mat_emissiveIntensity (build_material null_strength_entry) = 0%Q /\
  mat_emissive (build_material null_strength_entry) = {| cr := 1 # 2; cg := 1; cb := 1 |}.
Proof. split; [reflexivity | split; reflexivity]. Qed.

End MaterialFacts.

Module ExteriorFacts.
Import Js Materials Exterior.

Lemma yaw_zup_quat y :
  quat_multiply (setFromAxisAngle 0 0 1 y) (setFromAxisAngle 1 0 0 (PI / 2)) =
  {| qx := (1 / sqrt 2 * cos (y / 2))%R; qy := (1 / sqrt 2 * sin (y / 2))%R;
     qz := (1 / sqrt 2 * sin (y / 2))%R; qw := (1 / sqrt 2 * cos (y / 2))%R |}.
Proof.
  unfold quat_multiply, setFromAxisAngle. cbn [qx qy qz qw].
  replace (PI / 2 / 2)%R with (PI / 4)%R by field.
  rewrite sin_PI4, cos_PI4. f_equal; ring.
Qed.

Lemma yaw90_radians : yaw_radians (first_sky yaw90_scene) = (PI / 2)%R.
Proof.
  unfold yaw_radians, degToRad. cbn -[PI IZR Rdiv Rmult]. unfold Q2R. cbn -[PI IZR Rdiv Rmult].
  field.
Qed.

(** C2 (counterexample): with a first sky of yaw 90 degrees that resolves,
    on a three.js scene that has [environmentRotation], the environment
    (reflection) rotation becomes [(0, 0, pi/2)]: the reflection map is
    rotated by the yaw, not left unrotated. *)
Lemma yaw90_rotates_environment :
  let '(s', ok) := applySceneExterior resolve_sky yaw90_scene rotatable_scene in
  ok = true /\ st_environmentRotation s' = Some (0, 0, PI / 2)%R /\ (PI / 2 <> 0)%R.
Proof.
  unfold applySceneExterior. cbv zeta. rewrite yaw90_radians.
  cbn -[PI Rdiv].
  split; [reflexivity | split; [reflexivity|]].
  pose proof PI_RGT_0. lra.
Qed.

(** C2 (amended): when the first sky's texture id is truthy and the texture
    resolves, the sky sphere gets the quaternion [yaw(z) * zUp(x, pi/2)],
    i.e. [(c, s, s, c) / sqrt 2] with [c = cos(yaw/2)], [s = sin(yaw/2)],
    where [yaw] is [degToRad(Number(yawRotation))] when finite and 0
    otherwise; the environment map is an unrotated copy of the sky texture
    (same image and UV rotation, equirectangular reflection mapping); and,
    where the scene supports them, [scene.environmentRotation] is set to
    [(0, 0, yaw)] and [scene.backgroundRotation] to [(0, 0, 0)]. *)
Theorem sky_yaw_rotates_sky_and_environment resolve sceneJson s t :
  truthy (get (get (first_sky sceneJson) "texture") "id") = true ->
  resolve (get (first_sky sceneJson) "texture") = Some t ->
  let y := yaw_radians (first_sky sceneJson) in
  let '(s', ok) := applySceneExterior resolve sceneJson s in
  ok = true /\
  option_map sky_quaternion (st_skyMesh s') =
    Some {| qx := (1 / sqrt 2 * cos (y / 2))%R; qy := (1 / sqrt 2 * sin (y / 2))%R;
            qz := (1 / sqrt 2 * sin (y / 2))%R; qw := (1 / sqrt 2 * cos (y / 2))%R |} /\
  st_environment s' =
    Some {| tex_image := tex_image t; tex_rotation := tex_rotation t; tex_flipY := true;
            tex_mapping := EquirectangularReflectionMapping |} /\
  st_environmentRotation s' = option_map (fun _ => (0, 0, y)%R) (st_environmentRotation s) /\
  st_backgroundRotation s' = option_map (fun _ => (0, 0, 0)%R) (st_backgroundRotation s).
Proof.
  intros Hid Hres y. subst y. unfold applySceneExterior.
  fold (first_sky sceneJson). rewrite Hid. simpl negb. cbv iota. rewrite Hres.
  cbn [st_skyMesh st_environment st_environmentRotation st_backgroundRotation
       option_map clearSceneExterior tex_image tex_rotation sky_quaternion].
  rewrite yaw_zup_quat.
  split; [reflexivity|]. split; [reflexivity|]. split; [reflexivity|].
  split; [|reflexivity].
  unfold yaw_radians. destruct (to_number (get (first_sky sceneJson) "yawRotation"));
    [reflexivity|].
  destruct (st_environmentRotation s); reflexivity.
Qed.

(** Witness: [sky_yaw_rotates_sky_and_environment] at the 90-degree scene. *)
Lemma sky_yaw_rotates_sky_and_environment_witness :
  let y := yaw_radians (first_sky yaw90_scene) in
  let '(s', ok) := applySceneExterior resolve_sky yaw90_scene rotatable_scene in
  ok = true /\
  option_map sky_quaternion (st_skyMesh s') =
    Some {| qx := (1 / sqrt 2 * cos (y / 2))%R; qy := (1 / sqrt 2 * sin (y / 2))%R;
            qz := (1 / sqrt 2 * sin (y / 2))%R; qw := (1 / sqrt 2 * cos (y / 2))%R |} /\
  st_environment s' =
    Some {| tex_image := tex_image sky_texture; tex_rotation := tex_rotation sky_texture;
            tex_flipY := true; tex_mapping := EquirectangularReflectionMapping |} /\
  st_environmentRotation s' =
    option_map (fun _ => (0, 0, y)%R) (st_environmentRotation rotatable_scene) /\
  st_backgroundRotation s' =
    option_map (fun _ => (0, 0, 0)%R) (st_backgroundRotation rotatable_scene).
Proof.
  apply (sky_yaw_rotates_sky_and_environment resolve_sky yaw90_scene rotatable_scene
           sky_texture); reflexivity.
Defined.

End ExteriorFacts.

Module CountertopApplyFacts.
Import Js Materials CountertopApply.

Section Facts.
Variables (material texture : Type).
Variable material_side : material -> Z.
Variable fetch_texture : string -> option texture.
Variables harmonize project_uvs : list nat -> list (mesh material) -> list (mesh material).

(** C9 (amended): when no countertop mesh was detected, applying any
    texture id returns without error and changes nothing but the status
    line: the meshes (their materials, UVs and normals), the override
    cache, the texture cache and the harmonized flag are as before.  The
    status is the error ["No countertop materials were detected for this
    scene."] for an id that is non-blank after trimming, and ["Select a
    slab texture before applying."] for a blank one. *)
Theorem no_countertop_meshes_leaves_state textureId rt :
  rt_countertopMeshes rt = [] ->
  let rt' := applyCountertopTexture material_side fetch_texture harmonize project_uvs
               textureId rt in
  rt' = setStatus rt (if String.eqb (normalize_id textureId) EmptyString
                      then "Select a slab texture before applying."
                      else "No countertop materials were detected for this scene.") true /\
  rt_meshes rt' = rt_meshes rt /\
  map mesh_material_of (rt_meshes rt') = map mesh_material_of (rt_meshes rt) /\
  map mesh_uv (rt_meshes rt') = map mesh_uv (rt_meshes rt) /\
  map mesh_normal (rt_meshes rt') = map mesh_normal (rt_meshes rt) /\
  rt_overrides rt' = rt_overrides rt /\
  rt_normalsHarmonized rt' = rt_normalsHarmonized rt.
Proof.
  intros H rt'.
  assert (E : rt' = setStatus rt (if String.eqb (normalize_id textureId) EmptyString
                      then "Select a slab texture before applying."
                      else "No countertop materials were detected for this scene.") true).
  { subst rt'. unfold applyCountertopTexture.
    destruct (String.eqb (normalize_id textureId) EmptyString); [reflexivity|].
    rewrite H. reflexivity. }
  rewrite E. repeat split; reflexivity.
Qed.

End Facts.

(** Witness: [no_countertop_meshes_leaves_state] for id ["X"] on the scene
    without countertop meshes. *)
Lemma no_countertop_meshes_leaves_state_witness :
  let rt' := applyCountertopTexture (fun _ => 0) (fun _ => None) (fun _ ms => ms)
               (fun _ ms => ms) "X" no_countertop_runtime in
  rt' = setStatus no_countertop_runtime
          (if String.eqb (normalize_id "X") EmptyString
           then "Select a slab texture before applying."
           else "No countertop materials were detected for this scene.") true /\
  rt_meshes rt' = rt_meshes no_countertop_runtime /\
  map mesh_material_of (rt_meshes rt') = map mesh_material_of (rt_meshes no_countertop_runtime) /\
  map mesh_uv (rt_meshes rt') = map mesh_uv (rt_meshes no_countertop_runtime) /\
  map mesh_normal (rt_meshes rt') = map mesh_normal (rt_meshes no_countertop_runtime) /\
  rt_overrides rt' = rt_overrides no_countertop_runtime /\
  rt_normalsHarmonized rt' = rt_normalsHarmonized no_countertop_runtime.
Proof.
  apply (no_countertop_meshes_leaves_state unit unit (fun _ => 0) (fun _ => None)
           (fun _ ms => ms) (fun _ ms => ms) "X" no_countertop_runtime).
  reflexivity.
Defined.

(** C9 (counterexample): with no countertop mesh detected, applying the
    blank id ["  "] reports ["Select a slab texture before applying."], not
    the no-targets status. *)
Lemma blank_id_reports_select_status :
  rt_countertopMeshes no_countertop_runtime = [] /\
  rt_status (applyCountertopTexture (fun _ => 0) (fun _ => None) (fun _ ms => ms)
               (fun _ ms => ms) "  " no_countertop_runtime) =
    ("Select a slab texture before applying."%string, true).
Proof. split; reflexivity. Qed.

End CountertopApplyFacts.

Module HarmonizeFacts.
Import Floats Harmonize.
#[local] Set Warnings "-inexact-float".

(** ** A one-slab scene *)

Section Slab.
Local Open Scope float_scope.

(** An identity [matrixWorld]. *)
Definition identity4 : list float := [1; 0; 0; 0; 0; 1; 0; 0; 0; 0; 1; 0; 0; 0; 0; 1].

Definition slab_geometry : geometry :=
  {| g_position := Some [0; 0; 0; 0; 0; -1];
     g_normal := Some [1; 0; 0; fround 0.8; fround 0.15; fround 0.65];
     g_index := None |}.
Definition slab_mesh : mesh := {| m_geometry := Some 0%nat; m_matrixWorld := identity4 |}.


End Slab.

(** ** Stores: what a write touches *)

Lemma list_set_length {A} (l : list A) k x : List.length (list_set l k x) = List.length l.
Proof. revert k; induction l as [|y r IH]; intros [|k]; simpl; auto. Qed.

Lemma list_set_ne {A} (l : list A) k x j :
  j <> k -> nth_error (list_set l k x) j = nth_error l j.
Proof.
  revert k j; induction l as [|y r IH]; intros [|k] [|j] H; simpl; auto; try congruence.
Qed.

Lemma list_set_eq {A} (l : list A) k x :
  (k < List.length l)%nat -> nth_error (list_set l k x) k = Some x.
Proof.
  revert k; induction l as [|y r IH]; intros [|k] H; simpl in *; auto; try lia.
  apply IH; lia.
Qed.

Lemma setXYZ_length a i v : List.length (setXYZ a i v) = List.length a.
Proof. unfold setXYZ. rewrite !list_set_length. reflexivity. Qed.

Lemma setXYZ_other a i v j :
  j <> (3 * i)%nat -> j <> (3 * i + 1)%nat -> j <> (3 * i + 2)%nat ->
  nth_error (setXYZ a i v) j = nth_error a j.
Proof. intros H0 H1 H2. unfold setXYZ. rewrite !list_set_ne by assumption. reflexivity. Qed.

(** The store [s] against the store [s0] it started from: the same
    geometries, positions and indices, and normals unchanged at every
    vertex outside [sel]. *)
Definition frame_ok (sel : nat -> nat -> Prop) (s0 s : store) : Prop :=
  List.length s = List.length s0 /\
  forall gid g, nth_error s0 gid = Some g ->
    exists g', nth_error s gid = Some g' /\ g_position g' = g_position g /\
      g_index g' = g_index g /\
      forall a, g_normal g = Some a ->
        exists a', g_normal g' = Some a' /\ List.length a' = List.length a /\
          forall i k, ~ sel gid i -> (k < 3)%nat -> nth_error a' (3 * i + k) = nth_error a (3 * i + k).

Lemma frame_ok_refl sel s : frame_ok sel s s.
Proof.
  split; [reflexivity|]. intros gid g E. exists g. repeat split; auto.
  intros a Ha. exists a. repeat split; auto.
Qed.

Lemma set_normal_ok sel s0 s gid i v :
  sel gid i -> frame_ok sel s0 s -> frame_ok sel s0 (set_normal s gid i v).
Proof.
  intros Hs [L F]. unfold set_normal.
  destruct (nth_error s gid) as [gc|] eqn:E; [|split; assumption].
  destruct (g_normal gc) as [ac|] eqn:N; [|split; assumption].
  assert (Hlt : (gid < List.length s)%nat) by (apply nth_error_Some; congruence).
  split; [unfold store_set; rewrite list_set_length; exact L|].
  intros gid' g H0. destruct (F gid' g H0) as (g' & E' & P & I & Nn).
  unfold store_set. destruct (Nat.eq_dec gid' gid) as [->|Hne].
  - rewrite E in E'. injection E' as <-.
    rewrite list_set_eq by exact Hlt.
    eexists. split; [reflexivity|]. cbn [g_position g_index g_normal].
    split; [exact P|]. split; [exact I|].
    intros a Ha. destruct (Nn a Ha) as (a' & Na' & La & Ea).
    rewrite N in Na'. injection Na' as <-.
    exists (setXYZ ac i v). split; [reflexivity|]. split; [rewrite setXYZ_length; exact La|].
    intros i' k Hn Hk. assert (i' <> i) by (intros ->; exact (Hn Hs)).
    rewrite setXYZ_other by lia. apply Ea; assumption.
  - rewrite list_set_ne by exact Hne. exists g'. auto.
Qed.

Definition ref_sel (sel : nat -> nat -> Prop) (r : ref) : Prop := sel (r_geometry r) (r_index r).

Lemma write_refs_ok sel s0 v rs s :
  Forall (ref_sel sel) rs -> frame_ok sel s0 s -> frame_ok sel s0 (fold_left (write_ref v) rs s).
Proof.
  intros Hr; revert s; induction Hr as [|r rs Hr0 _ IH]; intros s Hs; simpl; [exact Hs|].
  apply IH. unfold write_ref. apply set_normal_ok; assumption.
Qed.

Definition buckets_sel (sel : nat -> nat -> Prop) (bs : list (key * bucket)) : Prop :=
  Forall (fun kb => Forall (ref_sel sel) (refs (snd kb))) bs.

Lemma write_buckets_ok sel s0 bs s :
  buckets_sel sel bs -> frame_ok sel s0 s -> frame_ok sel s0 (fold_left write_bucket bs s).
Proof.
  intros Hb; revert s; induction Hb as [|kb bs Hkb _ IH]; intros s Hs; simpl; [exact Hs|].
  apply IH. unfold write_bucket. destruct (refs (snd kb)); [exact Hs|].
  destruct (PrimFloat.ltb _ _); [exact Hs|]. apply write_refs_ok; assumption.
Qed.

Lemma bucket_add_sel sel k v r bs :
  ref_sel sel r -> buckets_sel sel bs -> buckets_sel sel (bucket_add k v r bs).
Proof.
  intros Hr; induction bs as [|[k' b] rest IH]; intros Hb; simpl.
  - repeat constructor; assumption.
  - inversion Hb as [|? ? Hb0 Hrest]; subst.
    destruct (key_eqb k k').
    + constructor; [|exact Hrest]. cbn [snd refs]. apply Forall_app. split; [exact Hb0|].
      constructor; [exact Hr|constructor].
    + constructor; [exact Hb0|]. apply IH; exact Hrest.
Qed.

(** ** The collection pass *)

(** Vertex [i] of geometry [gid] is selected by a run when, for some mesh
    of the list using that geometry, the vertex loop does not [continue]
    at [i]. *)
Definition selected (meshes : list mesh) (s : store) (positionTolerance upNormalThreshold : float)
    (flattenTopFaces : bool) (gid i : nat) : Prop :=
  exists m g pos nrm, In m meshes /\ m_geometry m = Some gid /\ nth_error s gid = Some g /\
    g_position g = Some pos /\ g_normal g = Some nrm /\ (i < count pos)%nat /\
    let tol := safe_tolerance positionTolerance in
    let up := safe_up_threshold upNormalThreshold in
    classify tol up (frame_of tol up flattenTopFaces (m_matrixWorld m) pos (g_index g))
      (m_matrixWorld m) pos nrm i <> None.

Definition collect_ok (sel : nat -> nat -> Prop) (s0 : store) (st : collect_state) : Prop :=
  c_store st = s0 /\ buckets_sel sel (c_buckets st) /\ Forall (ref_sel sel) (c_topFaceRefs st).

Section Collect.
Variable computeVertexNormals : geometry -> geometry.
Variables (meshes : list mesh) (s0 : store) (positionTolerance upNormalThreshold : float).
Variable flattenTopFaces : bool.
Hypothesis has_normals : Forall (fun g => g_normal g <> None) s0.

Let tol := safe_tolerance positionTolerance.
Let up := safe_up_threshold upNormalThreshold.
Let sel := selected meshes s0 positionTolerance upNormalThreshold flattenTopFaces.

Lemma collect_vertices_ok fr mw pos nrm gid l st :
  (forall i, In i l -> classify tol up fr mw pos nrm i <> None -> sel gid i) ->
  collect_ok sel s0 st ->
  collect_ok sel s0 (fold_left (collect_vertex tol up flattenTopFaces fr mw pos nrm gid) l st).
Proof.
  revert st; induction l as [|i l IH]; intros st Hl Hst; simpl; [exact Hst|].
  apply IH; [intros j Hj; apply Hl; right; exact Hj|].
  unfold collect_vertex.
  destruct (classify tol up fr mw pos nrm i) as [[[k sampled] top]|] eqn:C; [|exact Hst].
  assert (Hs : sel gid i) by (apply Hl; [left; reflexivity|congruence]).
  destruct Hst as (S & B & T). split; [exact S|]. cbn [c_buckets c_topFaceRefs]. split.
  - apply bucket_add_sel; [exact Hs|exact B].
  - destruct (flattenTopFaces && top); [|exact T].
    apply Forall_app. split; [exact T|]. constructor; [exact Hs|constructor].
Qed.

Lemma collect_meshes_ok ms st :
  (forall m, In m ms -> In m meshes) -> collect_ok sel s0 st ->
  collect_ok sel s0 (fold_left (collect_mesh computeVertexNormals tol up flattenTopFaces) ms st).
Proof.
  revert st; induction ms as [|m ms IH]; intros st Hin Hst; simpl; [exact Hst|].
  apply IH; [intros m' H; apply Hin; right; exact H|].
  unfold collect_mesh.
  destruct (m_geometry m) as [gid|] eqn:Gm; [|exact Hst].
  destruct (nth_error (c_store st) gid) as [g|] eqn:Eg; [|exact Hst].
  destruct (g_position g) as [pos|] eqn:Pg; [|exact Hst].
  assert (Hg : nth_error s0 gid = Some g) by (destruct Hst as (S & _); rewrite <- S; exact Eg).
  destruct (g_normal g) as [nrm|] eqn:Ng.
  2:{ exfalso. rewrite Forall_forall in has_normals.
      exact (has_normals g (nth_error_In _ _ Hg) Ng). }
  rewrite Ng.
  apply collect_vertices_ok.
  - intros i Hi C. exists m, g, pos, nrm. rewrite in_seq in Hi.
    repeat split; auto; [apply Hin; left; reflexivity|lia].
  - destruct Hst as (S & B & T). split; [exact S|split; assumption].
Qed.

End Collect.

(** ** Properties *)

Lemma harmonize_frame_ok cvn meshes s positionTolerance upNormalThreshold flattenTopFaces :
  Forall (fun g => g_normal g <> None) s ->
  frame_ok (selected meshes s positionTolerance upNormalThreshold flattenTopFaces) s
    (harmonizeCountertopNormals cvn meshes s positionTolerance upNormalThreshold flattenTopFaces).
Proof.
  intros Hn. unfold harmonizeCountertopNormals.
  destruct meshes as [|m0 ms]; [apply frame_ok_refl|]. cbv zeta.
  set (sel := selected (m0 :: ms) s positionTolerance upNormalThreshold flattenTopFaces).
  set (st := fold_left _ (m0 :: ms) _).
  assert (Hc : collect_ok sel s st).
  { apply (collect_meshes_ok cvn (m0 :: ms) s positionTolerance upNormalThreshold
             flattenTopFaces Hn (m0 :: ms)); [tauto|].
    split; [reflexivity|]. split; constructor. }
  destruct Hc as (S & B & T). rewrite S.
  assert (Hw : frame_ok sel s (fold_left write_bucket (c_buckets st) s))
    by (apply write_buckets_ok; [exact B|apply frame_ok_refl]).
  destruct flattenTopFaces; [|exact Hw].
  destruct (c_topFaceRefs st) as [|r rs] eqn:E; [exact Hw|].
  apply write_refs_ok; [exact T|exact Hw].
Qed.

(** C3 (amended).  Under the hypothesis that every geometry already has
    a normal attribute, a run of [harmonizeCountertopNormals] keeps the
    number of geometries and every geometry's [position] attribute and
    index, keeps each normal attribute's length, and leaves the normal of
    every vertex it does not select (for every mesh of the list using its
    geometry, the vertex loop skips it) bit for bit as it was. *)
Theorem harmonize_preserves_unselected cvn meshes s positionTolerance upNormalThreshold
    flattenTopFaces :
  Forall (fun g => g_normal g <> None) s ->
  let s' := harmonizeCountertopNormals cvn meshes s positionTolerance upNormalThreshold
              flattenTopFaces in
  List.length s' = List.length s /\
  forall gid g, nth_error s gid = Some g ->
    exists g', nth_error s' gid = Some g' /\ g_position g' = g_position g /\
      g_index g' = g_index g /\
      forall a, g_normal g = Some a ->
        exists a', g_normal g' = Some a' /\ List.length a' = List.length a /\
          forall i k, ~ selected meshes s positionTolerance upNormalThreshold flattenTopFaces gid i ->
            (k < 3)%nat -> nth_error a' (3 * i + k) = nth_error a (3 * i + k).
Proof. intros Hn. exact (harmonize_frame_ok cvn meshes s _ _ _ Hn). Qed.

Lemma harmonize_preserves_unselected_witness :
  Forall (fun g => g_normal g <> None) [slab_geometry] /\
  let s' := harmonizeCountertopNormals (fun g => g) [slab_mesh] [slab_geometry] 0.012%float 0.5%float
              true in
  List.length s' = List.length [slab_geometry] /\
  forall gid g, nth_error [slab_geometry] gid = Some g ->
    exists g', nth_error s' gid = Some g' /\ g_position g' = g_position g /\
      g_index g' = g_index g /\
      forall a, g_normal g = Some a ->
        exists a', g_normal g' = Some a' /\ List.length a' = List.length a /\
          forall i k, ~ selected [slab_mesh] [slab_geometry] 0.012%float 0.5%float true gid i ->
            (k < 3)%nat -> nth_error a' (3 * i + k) = nth_error a (3 * i + k).
Proof.
  split.
  - constructor; [discriminate|constructor].
  - apply harmonize_preserves_unselected. constructor; [discriminate|constructor].
Defined.

(** C3 (counterexample).  Harmonization is not convergent bit for bit:
    on one slab, an identity transform and a vertex with the float32 normal
    (0.8, 0.15, 0.65) that is selected but not on the top band, a second run
    with the same parameters (those of the call site, 0.012, 0.5, true, or
    the defaults, 0.002, 0.55, false) changes the stored normal again, the x
    component going from 0.7680245637893677 to 0.7680246233940125.  The
    slab has a normal attribute, so [computeVertexNormals] is never called
    and is taken to be the identity. *)
Lemma harmonize_second_run_changes_normal :
  (let s1 := harmonizeCountertopNormals (fun g => g) [slab_mesh] [slab_geometry] 0.012%float 0.5%float true in
   let s2 := harmonizeCountertopNormals (fun g => g) [slab_mesh] s1 0.012%float 0.5%float true in
   option_map g_normal (nth_error s2 0) <> option_map g_normal (nth_error s1 0)) /\
  (let s1 := harmonizeCountertopNormals (fun g => g) [slab_mesh] [slab_geometry] 0.002%float 0.55%float false in
   let s2 := harmonizeCountertopNormals (fun g => g) [slab_mesh] s1 0.002%float 0.55%float false in
   option_map g_normal (nth_error s2 0) <> option_map g_normal (nth_error s1 0)).
Proof. split; vm_compute; discriminate. Qed.

End HarmonizeFacts.

Module MeshExtraFacts.
Import Js Mesh SceneFixture MeshFacts.

Lemma transformPoint_length m x y z : List.length (transformPoint m x y z) = 3%nat.
Proof. reflexivity. Qed.

Lemma flat_map_length3 {A B} (F : A -> list B) (l : list A) :
  (forall x, List.length (F x) = 3%nat) ->
  List.length (flat_map F l) = (3 * List.length l)%nat.
Proof.
  intros HF. induction l as [|x r IH]; [reflexivity|].
  cbn [flat_map]. rewrite length_app, HF, IH. simpl. lia.
Qed.

Lemma zrange_length n : List.length (zrange n) = Z.to_nat n.
Proof. unfold zrange. rewrite length_map, length_seq. reflexivity. Qed.

Lemma decode_uvs_length p v l :
  decode_uvs p v = Some l -> List.length l = Z.to_nat (vertexCnt p * 2).
Proof.
  unfold decode_uvs.
  destruct (uvsF32 v) as [f32|], (uvsU16 v) as [u16|]; try discriminate.
  destruct (0 <=? uv0ByteOffset p); [|discriminate].
  destruct (quantUv0Max p =? 0);
    match goal with |- (if ?c then _ else _) = _ -> _ => destruct c end;
    intros H; inversion H; subst; clear H;
    rewrite ?length_map, ?zrange_length, ?repeat_length; reflexivity.
Qed.

(** Extra: decoded geometry holds three position floats per vertex, three
    indices per face and, when present, two UV floats per vertex. *)
Theorem decoded_geometry_sizes p v g :
  decodeMeshGeometry p v = Some g ->
  List.length (positions g) = (3 * Z.to_nat (vertexCnt p))%nat /\
  List.length (indices g) = Z.to_nat (faceCnt p * 3) /\
  (forall l, uvs g = Some l -> List.length l = Z.to_nat (vertexCnt p * 2)).
Proof.
  intros Hd. pose proof Hd as Hd'.
  apply decode_shape in Hd as (arr & off & m & fa & _ & _ & _ & _ & _ & _ & _ & ->).
  cbn [positions indices uvs]. split; [|split].
  - rewrite flat_map_length3 by (intros; apply transformPoint_length).
    rewrite zrange_length. reflexivity.
  - rewrite length_map, zrange_length. reflexivity.
  - apply decode_uvs_length.
Qed.

Lemma fixture_decode_eq :
  decodeMeshGeometry fixture_record fixture_views = Some fixture_geometry.
Proof. vm_compute. reflexivity. Qed.

(** Witness: [decoded_geometry_sizes] at the fixture's first record. *)
Lemma decoded_geometry_sizes_witness :
  List.length (positions fixture_geometry) = (3 * Z.to_nat (vertexCnt fixture_record))%nat /\
  List.length (indices fixture_geometry) = Z.to_nat (faceCnt fixture_record * 3) /\
  (forall l, uvs fixture_geometry = Some l ->
     List.length l = Z.to_nat (vertexCnt fixture_record * 2)).
Proof. exact (decoded_geometry_sizes _ _ _ fixture_decode_eq). Defined.

(** Extra: [minBytesToHold] picks 1, 2 or 4 bytes; any 32-bit signed
    quantization maximum fits the chosen signed width, and no narrower
    width among 1, 2 and 4 bytes would hold it. *)
Theorem minBytesToHold_fits m :
  let r := minBytesToHold m in
  (r = 1 \/ r = 2 \/ r = 4) /\
  (Z.abs m <= 2 ^ 31 - 1 -> Z.abs m <= 2 ^ (8 * r - 1) - 1) /\
  (forall r', In r' [1; 2; 4] -> r' < r -> 2 ^ (8 * r' - 1) - 1 < Z.abs m).
Proof.
  unfold minBytesToHold.
  destruct (Z.abs m <=? 127) eqn:E1; [|destruct (Z.abs m <=? 32767) eqn:E2];
    bool_facts; (split; [lia|]); split; (intros; simpl in *; try lia);
    repeat match goal with H : _ \/ _ |- _ => destruct H end; subst; simpl; try lia;
    repeat match goal with H : (_ <=? _) = _ |- _ => first [apply Z.leb_le in H | apply Z.leb_gt in H] end;
    simpl in *; lia.
Qed.

End MeshExtraFacts.

Module BackdropExtraFacts.
Import Backdrop.

(** Extra: for a non-negative squared 85th-percentile distance [p85sq], the
    integer test [within_threshold] is the code's test
    [distanceSquared <= threshold * threshold] with
    [threshold = max(20, min(84, sqrt(p85sq) + 18))], over the reals. *)
Theorem within_threshold_real p d :
  0 <= p ->
  (within_threshold p d = true <->
   (IZR d <= (Rmax 20 (Rmin 84 (sqrt (IZR p) + 18))) ^ 2)%R).
Proof.
  intros Hp.
  pose proof (sqrt_pos (IZR p)) as S0.
  pose proof (sqrt_sqrt (IZR p) (IZR_le 0 p Hp)) as SS.
  set (s := sqrt (IZR p)) in *.
  unfold within_threshold.
  destruct (Z.leb_spec p 4) as [P4|P4].
  - apply IZR_le in P4. assert (s <= 2)%R by nra.
    rewrite Rmin_right by lra. rewrite Rmax_left by lra.
    rewrite Z.leb_le. split; intros X.
    + apply IZR_le in X. lra.
    + apply le_IZR. lra.
  - apply IZR_lt in P4. destruct (Z.leb_spec 4356 p) as [P5|P5].
    + apply IZR_le in P5. assert (66 <= s)%R by nra.
      rewrite Rmin_left by lra. rewrite Rmax_right by lra.
      rewrite Z.leb_le. split; intros X.
      * apply IZR_le in X. lra.
      * apply le_IZR. lra.
    + apply IZR_lt in P5. assert (2 < s /\ s < 66)%R as [S1 S2] by (split; nra).
      rewrite Rmin_right by lra. rewrite Rmax_right by lra.
      rewrite orb_true_iff, !Z.leb_le.
      set (l := d - p - 324).
      assert (IZR d = IZR l + IZR p + 324)%R as Hd
        by (subst l; rewrite !minus_IZR; lra).
      rewrite Hd. split.
      * intros [X|X].
        -- apply IZR_le in X. nra.
        -- apply IZR_le in X. rewrite mult_IZR, mult_IZR in X.
           destruct (Rle_dec (IZR l) 0); [nra|].
           assert (IZR l <= 36 * s)%R by nra. nra.
      * intros X. destruct (Z.leb_spec l 0) as [L|L]; [left; exact L|right].
        apply IZR_lt in L. apply le_IZR. rewrite !mult_IZR.
        assert (IZR l <= 36 * s)%R by nra. nra.
Qed.

(** Witness: [within_threshold_real] at [p85sq = 100] (threshold 28). *)
Lemma within_threshold_real_witness :
  0 <= 100 /\
  (within_threshold 100 784 = true <->
   (IZR 784 <= (Rmax 20 (Rmin 84 (sqrt (IZR 100) + 18))) ^ 2)%R).
Proof. split; [lia | apply within_threshold_real; lia]. Defined.

Definition box_covers (w i : Z) (acc : Z * Z * Z * Z * Z) : Prop :=
  let '(_, minX, minY, maxX, maxY) := acc in
  minX <= i mod w <= maxX /\ minY <= i / w <= maxY.

Lemma stats_fold_covers (w : Z) (mask : list bool) (L : list Z) acc :
  let R := fold_left (fun '(cnt, minX, minY, maxX, maxY) index =>
      if flag mask index then (cnt, minX, minY, maxX, maxY)
      else let x := index mod w in
           let y := index / w in
           (cnt + 1, Z.min minX x, Z.min minY y, Z.max maxX x, Z.max maxY y)) L acc in
  (forall i, In i L -> flag mask i = false -> box_covers w i R) /\
  (forall j, box_covers w j acc -> box_covers w j R).
Proof.
  revert acc. induction L as [|i L IH]; intros acc; cbn [fold_left].
  - split; [intros ? [] | tauto].
  - destruct acc as [[[[cnt a] b] c] d].
    set (acc' := if flag mask i then _ else _).
    assert (Hmono : forall j, box_covers w j (cnt, a, b, c, d) -> box_covers w j acc').
    { intros j Hj. subst acc'. destruct (flag mask i); [exact Hj|].
      unfold box_covers in *. lia. }
    destruct (IH acc') as [IH1 IH2]. split.
    + intros k [<-|Hk] Hf.
      * apply IH2. subst acc'. rewrite Hf. unfold box_covers. lia.
      * apply IH1; assumption.
    + intros j Hj. apply IH2, Hmono, Hj.
Qed.

Lemma in_zrange i n : 0 <= i < n -> In i (Mesh.zrange n).
Proof.
  intros Hi. unfold Mesh.zrange. apply in_map_iff.
  exists (Z.to_nat i). split; [lia|]. apply in_seq. lia.
Qed.

(** Extra: when [cropAndFillCountertopTextureImage] returns a canvas, its
    crop rectangle lies inside the image, is at least 8 by 8 pixels, and
    contains every pixel the flood fill left out of the background mask. *)
Theorem crop_inside_and_covers_foreground img c :
  cropAndFillCountertopTextureImage img = Some c ->
  0 <= crop_x c /\ crop_x c + crop_w c <= width img /\
  0 <= crop_y c /\ crop_y c + crop_h c <= height img /\
  8 <= crop_w c /\ 8 <= crop_h c /\
  forall index, 0 <= index < width img * height img ->
    flag (bgmask (background_fill img)) index = false ->
    crop_x c <= index mod width img < crop_x c + crop_w c /\
    crop_y c <= index / width img < crop_y c + crop_h c.
Proof.
  unfold cropAndFillCountertopTextureImage.
  destruct ((width img =? 0) || (height img =? 0)); [discriminate|].
  destruct (negb (readable img)); [discriminate|].
  pose proof (stats_fold_covers (width img) (bgmask (background_fill img))
                (Mesh.zrange (width img * height img))
                (0, width img, height img, -1, -1)) as [Hcov _].
  cbv zeta in Hcov.
  unfold padded_crop. unfold foreground_stats. cbv zeta.
  destruct (fold_left _ (Mesh.zrange (width img * height img)) _)
    as [[[[cnt minX] minY] maxX] maxY].
  destruct (cnt =? 0); [discriminate|].
  destruct (cnt * 100 <? width img * height img * 4); [discriminate|].
  cbn [crop_w crop_h crop_x crop_y].
  set (pad := Z.max 2 (Z.min (width img) (height img) * 1 / 100)).
  match goal with |- (if (?a <? 8) || (?b <? 8) then _ else _) = _ -> _ =>
    destruct (a <? 8) eqn:CW; [discriminate|];
    destruct (b <? 8) eqn:CH; [discriminate|] end.
  cbn [orb]. apply Z.ltb_ge in CW, CH.
  intros Hc. inversion Hc; subst c; clear Hc. cbn [crop_w crop_h crop_x crop_y].
  assert (0 <= pad) by lia.
  assert (Hw : 8 <= width img) by lia. assert (Hh : 8 <= height img) by lia.
  do 6 (split; [lia|]).
  intros index Hi Hf.
  specialize (Hcov index (in_zrange _ _ Hi) Hf).
  pose proof (Z.mod_pos_bound index (width img) ltac:(lia)).
  assert (index / width img < height img)
    by (apply Z.div_lt_upper_bound; lia).
  assert (0 <= index / width img) by (apply Z.div_pos; lia).
  unfold box_covers in Hcov. lia.
Qed.

Lemma square_image_crop :
  cropAndFillCountertopTextureImage square_image =
    Some {| crop_x := 4; crop_y := 4; crop_w := 8; crop_h := 8 |}.
Proof. vm_compute. reflexivity. Qed.

(** Witness: [crop_inside_and_covers_foreground] on the 16x16 square image. *)
Lemma crop_inside_and_covers_foreground_witness :
  let c := {| crop_x := 4; crop_y := 4; crop_w := 8; crop_h := 8 |} in
  0 <= crop_x c /\ crop_x c + crop_w c <= width square_image /\
  0 <= crop_y c /\ crop_y c + crop_h c <= height square_image /\
  8 <= crop_w c /\ 8 <= crop_h c /\
  forall index, 0 <= index < width square_image * height square_image ->
    flag (bgmask (background_fill square_image)) index = false ->
    crop_x c <= index mod width square_image < crop_x c + crop_w c /\
    crop_y c <= index / width square_image < crop_y c + crop_h c.
Proof. exact (crop_inside_and_covers_foreground _ _ square_image_crop). Defined.

(** The test [enqueueIfBackground] makes before marking pixel [index]. *)
Definition bg_pixel (img : image) (bd : backdrop) (index : Z) : Prop :=
  let off := index * 4 in
  let dr := byte_at img off - red bd in
  let dg := byte_at img (off + 1) - green bd in
  let db := byte_at img (off + 2) - blue bd in
  byte_at img (off + 3) < 8 \/
  within_threshold (p85sq bd) (dr * dr + dg * dg + db * db) = true.

Definition fill_inv (img : image) (bd : backdrop) (N : nat) (st : fill_state) : Prop :=
  List.length (bgmask st) = N /\
  (forall n, nth n (bgmask st) false = true -> bg_pixel img bd (Z.of_nat n)) /\
  Forall (fun i => 0 <= i) (queue st).

Lemma set_true_length l k : List.length (set_true l k) = List.length l.
Proof.
  revert k. induction l as [|b r IH]; intros [|k]; simpl; try rewrite IH; reflexivity.
Qed.

Lemma nth_set_true l k n :
  nth n (set_true l k) false = true -> n = k \/ nth n l false = true.
Proof.
  revert k n. induction l as [|b r IH]; intros k n H.
  - destruct n; discriminate.
  - destruct k as [|k], n as [|n]; simpl in H |- *; auto.
    destruct (IH k n H); auto.
Qed.

Lemma fold_left_preserves {A B} (P : A -> Prop) (f : A -> B -> A) (L : list B) a :
  (forall a x, In x L -> P a -> P (f a x)) -> P a -> P (fold_left f L a).
Proof.
  revert a. induction L as [|x L IH]; intros a Hf Ha; [exact Ha|].
  cbn [fold_left]. apply IH.
  - intros a' y Hy. apply Hf. right. exact Hy.
  - apply Hf; [left; reflexivity | exact Ha].
Qed.

Lemma enqueue_inv img bd N st x y :
  0 <= y * width img + x -> fill_inv img bd N st ->
  fill_inv img bd N (enqueueIfBackground img bd st x y).
Proof.
  intros Hi [HL [HM HQ]]. unfold enqueueIfBackground.
  destruct (flag (visited st) (y * width img + x)); [split; auto|].
  set (index := y * width img + x) in *.
  assert (Hpush : bg_pixel img bd index ->
    fill_inv img bd N {| visited := set_true (visited st) (Z.to_nat index);
                         bgmask := set_true (bgmask st) (Z.to_nat index);
                         queue := queue st ++ [index] |}).
  { intros Hb. split; [|split]; cbn [bgmask queue].
    - rewrite set_true_length. exact HL.
    - intros n Hn. destruct (nth_set_true _ _ _ Hn) as [->|Hn'].
      + rewrite Z2Nat.id by lia. exact Hb.
      + apply HM, Hn'.
    - apply Forall_app. split; [exact HQ | constructor; [exact Hi | constructor]]. }
  destruct (byte_at img (index * 4 + 3) <? 8) eqn:A.
  - apply Hpush. left. apply Z.ltb_lt, A.
  - destruct (within_threshold _ _) eqn:T.
    + apply Hpush. right. exact T.
    + split; auto.
Qed.

Lemma seed_border_inv img bd N st :
  0 < width img -> 0 < height img -> fill_inv img bd N st ->
  fill_inv img bd N (seed_border img bd st).
Proof.
  intros Hw Hh Hst. unfold seed_border.
  apply fold_left_preserves.
  - intros a y Hy Ha.
    unfold Mesh.zrange in Hy. apply in_map_iff in Hy as (k & <- & Hk).
    apply in_seq in Hk.
    apply enqueue_inv; [nia|]. apply enqueue_inv; [nia | exact Ha].
  - apply fold_left_preserves; [|exact Hst].
    intros a x Hx Ha.
    unfold Mesh.zrange in Hx. apply in_map_iff in Hx as (k & <- & Hk).
    apply in_seq in Hk.
    apply enqueue_inv; [nia|]. apply enqueue_inv; [nia | exact Ha].
Qed.

Lemma flood_inv fuel img bd N st :
  0 < width img -> fill_inv img bd N st -> fill_inv img bd N (flood fuel img bd st).
Proof.
  intros Hw. revert st. induction fuel as [|f IH]; intros st Hst; [exact Hst|].
  cbn [flood]. destruct (queue st) as [|index q] eqn:Q; [exact Hst|].
  destruct Hst as [HL [HM HQ]]. rewrite Q in HQ. inversion HQ as [|i0 q0 Hi Hq]. subst i0 q0.
  pose proof (Z.mod_pos_bound index (width img) Hw) as Bx.
  assert (By : 0 <= index / width img) by (apply Z.div_pos; lia).
  apply IH.
  set (x := index mod width img) in *. set (y := index / width img) in *.
  assert (H0 : fill_inv img bd N {| visited := visited st; bgmask := bgmask st; queue := q |})
    by (split; [exact HL | split; [exact HM | exact Hq]]).
  assert (H1 : forall s, fill_inv img bd N s ->
            fill_inv img bd N (if 0 <? x then enqueueIfBackground img bd s (x - 1) y else s)).
  { intros s Hs. destruct (Z.ltb_spec 0 x); [apply enqueue_inv; [nia | exact Hs] | exact Hs]. }
  assert (H2 : forall s, fill_inv img bd N s ->
            fill_inv img bd N (if x <? width img - 1
                               then enqueueIfBackground img bd s (x + 1) y else s)).
  { intros s Hs. destruct (x <? width img - 1); [apply enqueue_inv; [nia | exact Hs] | exact Hs]. }
  assert (H3 : forall s, fill_inv img bd N s ->
            fill_inv img bd N (if 0 <? y then enqueueIfBackground img bd s x (y - 1) else s)).
  { intros s Hs. destruct (Z.ltb_spec 0 y); [apply enqueue_inv; [nia | exact Hs] | exact Hs]. }
  assert (H4 : forall s, fill_inv img bd N s ->
            fill_inv img bd N (if y <? height img - 1
                               then enqueueIfBackground img bd s x (y + 1) else s)).
  { intros s Hs. destruct (y <? height img - 1); [apply enqueue_inv; [nia | exact Hs] | exact Hs]. }
  apply H4, H3, H2, H1, H0.
Qed.

(** Extra: the flood fill of [cropAndFillCountertopTextureImage] only marks
    as background pixels of the image (index below width * height) that are
    nearly transparent (alpha below 8) or within the backdrop threshold of
    the corner colour estimate: an opaque pixel far from the backdrop is
    never removed. *)
Theorem background_mask_sound img n :
  0 < width img -> 0 < height img ->
  nth n (bgmask (background_fill img)) false = true ->
  (n < Z.to_nat (width img * height img))%nat /\
  bg_pixel img (estimateBackdropFromCorners img) (Z.of_nat n).
Proof.
  intros Hw Hh Hn. unfold background_fill in Hn. cbv zeta in Hn.
  set (bd := estimateBackdropFromCorners img) in *.
  set (N := Z.to_nat (width img * height img)) in *.
  assert (Hinit : fill_inv img bd N {| visited := repeat false N; bgmask := repeat false N;
                                       queue := [] |}).
  { split; [apply repeat_length | split; [|constructor]].
    intros k Hk. cbn [bgmask] in Hk. exfalso.
    destruct (Nat.lt_ge_cases k N).
    - rewrite nth_repeat in Hk. discriminate.
    - rewrite nth_overflow in Hk by (rewrite repeat_length; lia). discriminate. }
  destruct (flood_inv (S N) img bd N _ Hw (seed_border_inv img bd N _ Hw Hh Hinit))
    as [HL [HM _]].
  split.
  - destruct (Nat.lt_ge_cases n N) as [L|L]; [exact L|].
    rewrite nth_overflow in Hn by (rewrite HL; lia). discriminate.
  - apply HM, Hn.
Qed.

Lemma square_image_corner_background :
  nth 0 (bgmask (background_fill square_image)) false = true.
Proof. vm_compute. reflexivity. Qed.

(** Witness: [background_mask_sound] at the white top-left pixel of the
    square image. *)
Lemma background_mask_sound_witness :
  (0 < Z.to_nat (width square_image * height square_image))%nat /\
  bg_pixel square_image (estimateBackdropFromCorners square_image) (Z.of_nat 0).
Proof.
  exact (background_mask_sound square_image 0 eq_refl eq_refl
           square_image_corner_background).
Defined.

Lemma insert_sorted_perm x l : Permutation (x :: l) (insert_sorted x l).
Proof.
  induction l as [|y r IH]; simpl; [reflexivity|].
  destruct (x <=? y); [reflexivity|].
  rewrite perm_swap. constructor. exact IH.
Qed.

Lemma sort_num_perm l : Permutation l (sort_num l).
Proof.
  induction l as [|x r IH]; simpl; [reflexivity|].
  rewrite <- insert_sorted_perm. constructor. exact IH.
Qed.

Lemma insert_sorted_sorted x l : Sorted Z.le l -> Sorted Z.le (insert_sorted x l).
Proof.
  induction 1 as [|y r Hr IH Hh]; simpl; [repeat constructor|].
  destruct (Z.leb_spec x y).
  - constructor; [constructor; assumption | constructor; exact H].
  - constructor; [exact IH|].
    destruct r as [|z r]; simpl; [constructor; lia|].
    inversion Hh; subst. destruct (x <=? z); constructor; lia.
Qed.

Lemma sort_num_sorted l : Sorted Z.le (sort_num l).
Proof.
  induction l as [|x r IH]; simpl; [constructor|]. apply insert_sorted_sorted, IH.
Qed.

Lemma perm_filter_length (f : Z -> bool) l l' :
  Permutation l l' -> List.length (filter f l) = List.length (filter f l').
Proof.
  induction 1; simpl; try lia.
  - destruct (f x); simpl; lia.
  - destruct (f x), (f y); reflexivity.
Qed.

Lemma strongly_sorted_app a c :
  StronglySorted Z.le (a ++ c) -> forall x y, In x a -> In y c -> x <= y.
Proof.
  induction a as [|z a IH]; simpl; [tauto|].
  intros Hs. inversion Hs as [|? ? Hs' Hall]; subst.
  intros x y [<-|Hx] Hy.
  - rewrite Forall_forall in Hall. apply Hall, in_or_app. right. exact Hy.
  - apply IH; assumption.
Qed.

Lemma strongly_sorted_suffix a c :
  StronglySorted Z.le (a ++ c) -> StronglySorted Z.le c.
Proof.
  induction a as [|z a IH]; simpl; [tauto|].
  intros Hs. inversion Hs; subst. apply IH. assumption.
Qed.

Lemma filter_nil_all {A} (f : A -> bool) l :
  (forall x, In x l -> f x = false) -> filter f l = [].
Proof.
  induction l as [|x r IH]; simpl; intros H; [reflexivity|].
  rewrite H by (left; reflexivity). apply IH. intros y Hy. apply H. right. exact Hy.
Qed.

Lemma filter_length_le {A} (f : A -> bool) l : (List.length (filter f l) <= List.length l)%nat.
Proof. induction l as [|x r IH]; simpl; [lia|]. destruct (f x); simpl; lia. Qed.

(** Extra: the median of a non-empty list of channel samples is one of the
    samples; at most [floor(n / 2)] samples are smaller than it and at most
    [n - floor(n / 2) - 1] are larger. *)
Theorem medianValue_rank values :
  values <> [] ->
  let m := medianValue values in
  let n := List.length values in
  In m values /\
  (List.length (filter (fun x => (x <? m)%Z) values) <= n / 2)%nat /\
  (List.length (filter (fun x => (m <? x)%Z) values) <= n - n / 2 - 1)%nat.
Proof.
  intros Hne. cbv zeta.
  assert (Hlen : (0 < List.length values)%nat)
    by (destruct values; [congruence | simpl; lia]).
  pose proof (sort_num_perm values) as P.
  pose proof (Sorted_StronglySorted Z.le_trans (sort_num_sorted values)) as SS.
  set (k := (List.length values / 2)%nat).
  assert (Hk : (k < List.length (sort_num values))%nat)
    by (rewrite <- (Permutation_length P); apply Nat.div_lt; lia).
  destruct (nth_split (sort_num values) 0 Hk) as (a & b & Hab & La).
  assert (Hm : medianValue values = nth k (sort_num values) 0)
    by (unfold medianValue; destruct values; [congruence | reflexivity]).
  rewrite Hm. set (m := nth k (sort_num values) 0) in *.
  rewrite Hab in SS.
  assert (Ha : forall x, In x a -> x <= m)
    by (intros x Hx; apply (strongly_sorted_app a (m :: b) SS); [exact Hx | left; reflexivity]).
  assert (Hb : forall y, In y b -> m <= y).
  { intros y Hy. apply strongly_sorted_suffix in SS as S2.
    inversion S2 as [|? ? _ Hall]; subst. rewrite Forall_forall in Hall. apply Hall, Hy. }
  assert (Ln : List.length values = (List.length a + S (List.length b))%nat)
    by (rewrite (Permutation_length P), Hab, length_app; reflexivity).
  split; [|split].
  - apply (Permutation_in _ (Permutation_sym P)). rewrite Hab.
    apply in_or_app. right. left. reflexivity.
  - rewrite (perm_filter_length _ _ _ P), Hab, filter_app. cbn [filter].
    rewrite Z.ltb_irrefl.
    rewrite (filter_nil_all _ b) by (intros y Hy; apply Z.ltb_ge, Hb, Hy).
    rewrite app_nil_r. pose proof (filter_length_le (fun x => (x <? m)%Z) a). lia.
  - rewrite (perm_filter_length _ _ _ P), Hab, filter_app. cbn [filter].
    rewrite Z.ltb_irrefl.
    rewrite (filter_nil_all _ a) by (intros y Hy; apply Z.ltb_ge, Ha, Hy).
    pose proof (filter_length_le (fun x => (m <? x)%Z) b). simpl. lia.
Qed.

(** Witness: [medianValue_rank] on the samples 7, 1, 4, 4, 9. *)
Lemma medianValue_rank_witness :
  ([7; 1; 4; 4; 9]%Z <> []) /\
  let m := medianValue [7; 1; 4; 4; 9]%Z in
  let n := List.length [7; 1; 4; 4; 9]%Z in
  In m [7; 1; 4; 4; 9]%Z /\
  (List.length (filter (fun x => (x <? m)%Z) [7; 1; 4; 4; 9]%Z) <= n / 2)%nat /\
  (List.length (filter (fun x => (m <? x)%Z) [7; 1; 4; 4; 9]%Z) <= n - n / 2 - 1)%nat.
Proof. split; [discriminate | apply medianValue_rank; discriminate]. Defined.

End BackdropExtraFacts.

Module MaterialExtraFacts.
Import Materials MaterialFacts.




End MaterialExtraFacts.

Module TextureLoadExtraFacts.
Import TextureLoad.

Lemma dedup_from_spec seen l :
  NoDup (dedup_from seen l) /\
  (forall c, In c (dedup_from seen l) <-> In c l /\ ~ In c seen).
Proof.
  revert seen. induction l as [|c r IH]; intros seen; simpl.
  - split; [constructor | tauto].
  - destruct (existsb (String.eqb c) seen) eqn:E.
    + apply existsb_exists in E as [c' [Hin Heq]]. apply String.eqb_eq in Heq; subst c'.
      destruct (IH seen) as [N M]. split; [exact N|].
      intros x. rewrite M. split; [tauto|]. intros [[<-|Hx] Hs]; tauto.
    + assert (Hc : ~ In c seen).
      { intros Hin. assert (existsb (String.eqb c) seen = true) as T
          by (apply existsb_exists; exists c; split; [exact Hin | apply String.eqb_refl]).
        congruence. }
      destruct (IH (c :: seen)) as [N M]. split.
      * constructor; [|exact N]. rewrite M. simpl. tauto.
      * intros x. simpl. rewrite M. simpl.
        split; [intros [<-|[Hx Hs]]; tauto|].
        intros [[<-|Hx] Hs]; [left; reflexivity|].
        destruct (string_dec c x); [left; assumption | right; tauto].
Qed.

(** Extra: the de-duplicated candidate list holds each non-empty candidate
    exactly once and nothing else (no empty string, no URL that was not a
    candidate). *)
Theorem uniqueCandidates_spec cands :
  NoDup (uniqueCandidates cands) /\
  (forall c, In c (uniqueCandidates cands) <-> In c cands /\ c <> EmptyString).
Proof.
  unfold uniqueCandidates. destruct (dedup_from_spec [] (filter is_truthy cands)) as [N M].
  split; [exact N|]. intros c. rewrite M, filter_In. unfold is_truthy.
  rewrite negb_true_iff, String.eqb_neq. simpl. tauto.
Qed.

Lemma attempt_prefix {T} (load : string -> option T) pending :
  exists post, pending = fst (attempt load pending) ++ post.
Proof.
  induction pending as [|c r IH]; simpl; [exists []; reflexivity|].
  destruct (load c); simpl; [exists r; reflexivity|].
  destruct IH as [post Hp]. destruct (attempt load r) as [tried res]. simpl in *.
  exists post. rewrite Hp at 1. reflexivity.
Qed.

Lemma NoDup_app_l {A} (l l' : list A) : NoDup (l ++ l') -> NoDup l.
Proof.
  induction l as [|x r IH]; simpl; intros H; [constructor|].
  inversion H; subst. constructor; [|apply IH; assumption].
  intros Hx. apply H2, in_or_app. left. exact Hx.
Qed.

(** Extra: whatever the loader's outcomes, [loadTextureFromCandidates]
    requests each URL at most once, never requests the empty string, and
    requests only URLs from the candidate list. *)
Theorem loader_requests_distinct_candidates {T} (load : string -> option T) cands :
  let tried := fst (loadTextureFromCandidates load cands) in
  NoDup tried /\ forall url, In url tried -> In url cands /\ url <> EmptyString.
Proof.
  cbv zeta. unfold loadTextureFromCandidates.
  destruct (attempt_prefix load (uniqueCandidates cands)) as [post Hp].
  destruct (uniqueCandidates_spec cands) as [N M].
  rewrite Hp in N. split; [exact (NoDup_app_l _ _ N)|].
  intros url Hu. apply M. rewrite Hp. apply in_or_app. left. exact Hu.
Qed.

End TextureLoadExtraFacts.

Module CountertopApplyExtraFacts.
Import Js Materials CountertopApply CountertopFixture.

#[local] Arguments ov_map {texture}.
#[local] Arguments ov_side {texture}.

Lemma assoc_get_set {K V} (eqb : K -> K -> bool)
    (Hs : forall a b, eqb a b = true <-> a = b) k v (l : list (K * V)) j :
  assoc_get eqb j (assoc_set eqb k v l) = if eqb j k then Some v else assoc_get eqb j l.
Proof.
  induction l as [|[k' v'] r IH]; simpl.
  - destruct (eqb j k); reflexivity.
  - destruct (eqb k k') eqn:E.
    + apply Hs in E; subst k'. simpl. destruct (eqb j k); reflexivity.
    + simpl. rewrite IH. destruct (eqb j k') eqn:E'; [|reflexivity].
      apply Hs in E'; subst j. destruct (eqb k' k) eqn:E''; [|reflexivity].
      apply Hs in E''. subst. rewrite (proj2 (Hs k k) eq_refl) in E. discriminate.
Qed.

Section Facts.
Variables (material texture : Type).
Variable material_side : material -> Z.

Lemma override_lookup idx tex mbi ov j :
  assoc_get Z.eqb j (getCountertopOverrideMaterial material texture material_side idx tex mbi ov) =
  if Z.eqb j idx
  then Some {| ov_map := tex;
               ov_side := match assoc_get Z.eqb idx ov with
                          | Some e => ov_side e
                          | None => match assoc_get Z.eqb idx mbi with
                                    | Some m => material_side m | None => 0 end
                          end |}
  else assoc_get Z.eqb j ov.
Proof.
  unfold getCountertopOverrideMaterial.
  destruct (assoc_get Z.eqb idx ov); rewrite (assoc_get_set _ Z.eqb_eq); reflexivity.
Qed.

Lemma load_spec fetch n (rt : runtime material texture) :
  let (r, rt2) := loadCountertopTexture material texture fetch n rt in
  rt_meshes rt2 = rt_meshes rt /\ rt_countertopMeshes rt2 = rt_countertopMeshes rt /\
  rt_materialByIndex rt2 = rt_materialByIndex rt /\ rt_overrides rt2 = rt_overrides rt /\
  rt_normalsHarmonized rt2 = rt_normalsHarmonized rt /\
  rt_countertopMaterialIndexes rt2 = rt_countertopMaterialIndexes rt /\
  rt_status rt2 = rt_status rt /\
  assoc_get String.eqb n (rt_textureCache rt2) = Some r /\
  (forall k v, assoc_get String.eqb k (rt_textureCache rt) = Some v ->
     assoc_get String.eqb k (rt_textureCache rt2) = Some v) /\
  (forall r0, assoc_get String.eqb n (rt_textureCache rt) = Some r0 -> r = r0 /\ rt2 = rt).
Proof.
  unfold loadCountertopTexture.
  destruct (assoc_get String.eqb n (rt_textureCache rt)) as [r0|] eqn:C.
  - repeat split; auto. all: match goal with H : Some _ = Some _ |- _ => inversion H; reflexivity end.
  - cbn [rt_meshes rt_countertopMeshes rt_materialByIndex rt_overrides rt_normalsHarmonized
         rt_countertopMaterialIndexes rt_status rt_textureCache].
    repeat split; try reflexivity.
    + rewrite (assoc_get_set _ String.eqb_eq), String.eqb_refl. reflexivity.
    + intros k v Hk. rewrite (assoc_get_set _ String.eqb_eq).
      destruct (String.eqb_spec k n); [subst; congruence | exact Hk].
    + match goal with H : None = Some _ |- _ => discriminate H end.
    + match goal with H : None = Some _ |- _ => discriminate H end.
Qed.

Lemma set_mesh_material_nth (ms : list (mesh material)) i m j :
  nth_error (set_mesh_material material ms i m) j =
  if Nat.eqb j i
  then option_map (fun x => {| mesh_material_of := m; mesh_uv := mesh_uv x;
                              mesh_normal := mesh_normal x;
                              mesh_materialIdx := mesh_materialIdx x |}) (nth_error ms i)
  else nth_error ms j.
Proof.
  unfold set_mesh_material. revert i j.
  induction ms as [|x r IH]; intros [|i] [|j]; simpl; try reflexivity;
    try (destruct (Nat.eqb _ _); reflexivity).
  apply IH.
Qed.

Lemma set_mesh_material_length (ms : list (mesh material)) i m :
  List.length (set_mesh_material material ms i m) = List.length ms.
Proof.
  unfold set_mesh_material. revert i.
  induction ms as [|x r IH]; intros [|i]; simpl; try reflexivity.
  rewrite <- (IH i). reflexivity.
Qed.

(** The body of the [forEach] callback. *)
Definition assign_step (tex : texture) (mbi : list (Z * material))
    : list (mesh material) * list (Z * override_material texture) * list Z -> nat ->
      list (mesh material) * list (Z * override_material texture) * list Z :=
  fun '(meshes, overrides, used) i =>
  match nth_error meshes i with
  | None => (meshes, overrides, used)
  | Some ms =>
      match integer_index (mesh_materialIdx ms) with
      | None => (meshes, overrides, used)
      | Some materialIndex =>
          let used := if existsb (Z.eqb materialIndex) used then used
                      else used ++ [materialIndex] in
          let overrides := getCountertopOverrideMaterial material texture material_side
                             materialIndex tex mbi overrides in
          (set_mesh_material material meshes i (Override materialIndex), overrides, used)
      end
  end.

Lemma assign_overrides_fold tex mbi targets meshes ov :
  assign_overrides material texture material_side tex mbi targets meshes ov =
  fold_left (assign_step tex mbi) targets (meshes, ov, []).
Proof. reflexivity. Qed.

(** The invariant of the [forEach]: [ms0] and [ov0] are the meshes and the
    override cache before it, [P] the targets handled so far. *)
Definition assign_inv (tex : texture) (ms0 : list (mesh material))
    (ov0 : list (Z * override_material texture)) (P : list nat)
    (acc : list (mesh material) * list (Z * override_material texture) * list Z) : Prop :=
  let '(ms, ov, used) := acc in
  List.length ms = List.length ms0 /\
  (forall i, option_map (@mesh_materialIdx material) (nth_error ms i) =
             option_map (@mesh_materialIdx material) (nth_error ms0 i)) /\
  (forall i, ~ In i P -> nth_error ms i = nth_error ms0 i) /\
  (forall i m0 idx, In i P -> nth_error ms0 i = Some m0 ->
     integer_index (mesh_materialIdx m0) = Some idx ->
     exists m, nth_error ms i = Some m /\ mesh_material_of m = Override idx) /\
  (forall idx, In idx used <-> exists i m0, In i P /\ nth_error ms0 i = Some m0 /\
                                integer_index (mesh_materialIdx m0) = Some idx) /\
  (forall idx, In idx used -> exists o, assoc_get Z.eqb idx ov = Some o /\ ov_map o = tex) /\
  NoDup used /\
  (forall j o, assoc_get Z.eqb j ov0 = Some o ->
     exists o', assoc_get Z.eqb j ov = Some o' /\ ov_side o' = ov_side o).

Lemma assign_step_inv tex mbi ms0 ov0 P acc i :
  assign_inv tex ms0 ov0 P acc -> assign_inv tex ms0 ov0 (P ++ [i]) (assign_step tex mbi acc i).
Proof.
  destruct acc as [[ms ov] used].
  intros (HL & HI & HU & HD & HUs & HO & HN & HG).
  assert (HinP : forall j, In j (P ++ [i]) <-> In j P \/ j = i)
    by (intros j; rewrite in_app_iff; simpl; intuition).
  unfold assign_step. cbn beta iota.
  destruct (nth_error ms i) as [mi|] eqn:Ni.
  2:{ assert (N0 : nth_error ms0 i = None)
        by (specialize (HI i); rewrite Ni in HI; destruct (nth_error ms0 i); [discriminate|reflexivity]).
      repeat split; auto.
      - intros j Hj. apply HU. rewrite HinP in Hj. tauto.
      - intros j m0 idx Hj. rewrite HinP in Hj; destruct Hj as [Hj| ->]; [apply HD; exact Hj|congruence].
      - intros Hu. apply HUs in Hu as (j & m0 & Hj & Hm & Hx). exists j, m0.
        rewrite HinP. tauto.
      - intros (j & m0 & Hj & Hm & Hx). apply HUs. rewrite HinP in Hj; destruct Hj as [Hj| ->]; [|congruence].
        exists j, m0. tauto. }
  assert (Hm0 : exists m0, nth_error ms0 i = Some m0 /\ mesh_materialIdx m0 = mesh_materialIdx mi).
  { specialize (HI i). rewrite Ni in HI. destruct (nth_error ms0 i) as [m0|]; [|discriminate].
    exists m0. split; [reflexivity|]. inversion HI. reflexivity. }
  destruct Hm0 as (m0 & N0 & Em0).
  destruct (integer_index (mesh_materialIdx mi)) as [idx|] eqn:Ii.
  2:{ repeat split; auto.
      - intros j Hj. apply HU. rewrite HinP in Hj. tauto.
      - intros j m1 idx Hj. rewrite HinP in Hj; destruct Hj as [Hj| ->]; [apply HD; exact Hj|].
        intros H1 H2. rewrite N0 in H1. inversion H1; subst m1. rewrite Em0 in H2. congruence.
      - intros Hu. apply HUs in Hu as (j & m1 & Hj & Hm & Hx). exists j, m1.
        rewrite HinP. tauto.
      - intros (j & m1 & Hj & Hm & Hx). apply HUs. rewrite HinP in Hj; destruct Hj as [Hj| ->].
        + exists j, m1. tauto.
        + rewrite N0 in Hm. inversion Hm; subst m1. rewrite Em0 in Hx. congruence. }
  set (used' := if existsb (Z.eqb idx) used then used else used ++ [idx]).
  assert (Hused' : forall k, In k used' <-> In k used \/ k = idx).
  { intros k. subst used'. destruct (existsb (Z.eqb idx) used) eqn:E.
    - apply existsb_exists in E as [k' [Hk' Ek]]. apply Z.eqb_eq in Ek. subst k'.
      split; [tauto|]. intros [H| ->]; assumption.
    - rewrite in_app_iff. simpl. intuition. }
  repeat split.
  - rewrite set_mesh_material_length. exact HL.
  - intros j. rewrite set_mesh_material_nth. destruct (Nat.eqb_spec j i); [subst j|apply HI].
    rewrite Ni, N0. simpl. rewrite Em0. reflexivity.
  - intros j Hj. rewrite set_mesh_material_nth.
    destruct (Nat.eqb_spec j i); [subst; exfalso; apply Hj, HinP; right; reflexivity|].
    apply HU. rewrite HinP in Hj. tauto.
  - intros j m1 idx1 Hj H1 H2. rewrite set_mesh_material_nth.
    destruct (Nat.eqb_spec j i) as [->|Ne].
    + rewrite Ni. simpl. eexists; split; [reflexivity|]. cbn.
      rewrite N0 in H1. inversion H1; subst m1. rewrite Em0, Ii in H2. congruence.
    + rewrite HinP in Hj; destruct Hj as [Hj|Hj]; [|congruence]. apply (HD j m1 idx1 Hj H1 H2).
  - intros Hk. rewrite Hused' in Hk; destruct Hk as [Hk| ->].
    + apply HUs in Hk as (j & m1 & Hj & Hm & Hx). exists j, m1. rewrite HinP. tauto.
    + exists i, m0. rewrite HinP, Em0. tauto.
  - intros (j & m1 & Hj & Hm & Hx). apply Hused'. rewrite HinP in Hj; destruct Hj as [Hj| ->].
    + left. apply HUs. exists j, m1. tauto.
    + right. rewrite N0 in Hm. inversion Hm; subst m1. rewrite Em0, Ii in Hx. congruence.
  - intros k Hk. rewrite override_lookup. destruct (Z.eqb_spec k idx).
    + eexists; split; reflexivity.
    + apply HO. rewrite Hused' in Hk; destruct Hk as [Hk|Hk]; [exact Hk|congruence].
  - subst used'. destruct (existsb (Z.eqb idx) used) eqn:E; [exact HN|].
    apply NoDup_app; [exact HN | repeat constructor; simpl; tauto|].
    intros k Hk [<-|[]]. assert (existsb (Z.eqb idx) used = true) as T
      by (apply existsb_exists; exists idx; split; [exact Hk | apply Z.eqb_refl]).
    congruence.
  - intros j o Hj. destruct (HG j o Hj) as (o1 & Ho1 & Es).
    rewrite override_lookup. destruct (Z.eqb_spec j idx) as [->|Ne].
    + rewrite Ho1. eexists; split; [reflexivity | exact Es].
    + exists o1. split; assumption.
Qed.

Lemma assign_fold_inv tex mbi ms0 ov0 targets P acc :
  assign_inv tex ms0 ov0 P acc ->
  assign_inv tex ms0 ov0 (P ++ targets) (fold_left (assign_step tex mbi) targets acc).
Proof.
  revert P acc. induction targets as [|i ts IH]; intros P acc H; simpl.
  - rewrite app_nil_r. exact H.
  - replace (P ++ i :: ts) with ((P ++ [i]) ++ ts) by (rewrite <- app_assoc; reflexivity).
    apply IH, assign_step_inv, H.
Qed.

Lemma assign_init tex ms0 (ov0 : list (Z * override_material texture)) :
  assign_inv tex ms0 ov0 [] (ms0, ov0, []).
Proof.
  repeat split; auto.
  - intros i m0 idx [].
  - intros [].
  - intros (i & m0 & [] & _).
  - intros idx [].
  - constructor.
  - intros j o Hj. exists o. split; [exact Hj | reflexivity].
Qed.

(** The geometry of a mesh: its UV and normal attributes. *)
Definition mesh_geom (m : mesh material) : list Q * list Q := (mesh_uv m, mesh_normal m).

Lemma assign_step_geom tex mbi acc i j :
  option_map mesh_geom (nth_error (fst (fst (assign_step tex mbi acc i))) j) =
  option_map mesh_geom (nth_error (fst (fst acc)) j).
Proof.
  destruct acc as [[ms ov] used]. unfold assign_step. cbn beta iota.
  destruct (nth_error ms i) as [mi|] eqn:Ni; [|reflexivity].
  destruct (integer_index (mesh_materialIdx mi)); [|reflexivity].
  cbn [fst]. rewrite set_mesh_material_nth.
  destruct (Nat.eqb_spec j i) as [->|_]; [rewrite Ni; reflexivity | reflexivity].
Qed.

Lemma assign_fold_geom tex mbi targets acc j :
  option_map mesh_geom (nth_error (fst (fst (fold_left (assign_step tex mbi) targets acc))) j) =
  option_map mesh_geom (nth_error (fst (fst acc)) j).
Proof.
  revert acc. induction targets as [|i ts IH]; intros acc; simpl; [reflexivity|].
  rewrite IH. apply assign_step_geom.
Qed.

Definition mesh_key (m : mesh material) : mesh_material material * jv :=
  (mesh_material_of m, mesh_materialIdx m).

(** A geometry pass that leaves every mesh's material and material index
    (and the number of meshes) as they are, as the normal harmonization
    and the UV projection do. *)
Definition keeps_materials (f : list nat -> list (mesh material) -> list (mesh material)) : Prop :=
  forall ts ms i, option_map mesh_key (nth_error (f ts ms) i) = option_map mesh_key (nth_error ms i).

Lemma keys_length (a b : list (mesh material)) :
  (forall i, option_map mesh_key (nth_error a i) = option_map mesh_key (nth_error b i)) ->
  List.length a = List.length b.
Proof.
  intros H. destruct (Nat.lt_trichotomy (List.length a) (List.length b)) as [L|[E|L]]; [|exact E|].
  - specialize (H (List.length a)). rewrite (proj2 (nth_error_None a _)) in H by lia.
    destruct (nth_error b (List.length a)) eqn:N; [discriminate|].
    apply nth_error_None in N. lia.
  - specialize (H (List.length b)). rewrite (proj2 (nth_error_None b _)) in H by lia.
    destruct (nth_error a (List.length b)) eqn:N; [discriminate|].
    apply nth_error_None in N. lia.
Qed.

Lemma key_some (a b : option (mesh material)) m :
  option_map mesh_key a = option_map mesh_key b -> b = Some m ->
  exists m', a = Some m' /\ mesh_material_of m' = mesh_material_of m /\
             mesh_materialIdx m' = mesh_materialIdx m.
Proof.
  intros H ->. destruct a as [m'|]; [|discriminate]. exists m'.
  inversion H. unfold mesh_key in *. split; [reflexivity | split; congruence].
Qed.

Lemma key_material (a b : option (mesh material)) :
  option_map mesh_key a = option_map mesh_key b ->
  option_map (@mesh_material_of material) a = option_map (@mesh_material_of material) b.
Proof. destruct a, b; simpl; intros H; inversion H; reflexivity. Qed.

Lemma key_materialIdx (a b : option (mesh material)) :
  option_map mesh_key a = option_map mesh_key b ->
  option_map (@mesh_materialIdx material) a = option_map (@mesh_materialIdx material) b.
Proof. destruct a, b; simpl; intros H; inversion H; reflexivity. Qed.

Lemma load_fst_setStatus fetch n (rt : runtime material texture) msg b :
  fst (loadCountertopTexture material texture fetch n (setStatus rt msg b)) =
  fst (loadCountertopTexture material texture fetch n rt).
Proof.
  unfold loadCountertopTexture. simpl.
  destruct (assoc_get String.eqb n (rt_textureCache rt)); reflexivity.
Qed.

(** Extra: when the texture for the trimmed id (non-empty) loads and there
    are countertop meshes, [applyCountertopTexture] reports success, marks
    the normals harmonized and keeps the texture cached under the id.  Given
    geometry passes that keep materials, every countertop mesh whose
    [materialIdx] is an integer now uses the override of that index, the
    other meshes keep their materials, and the recorded countertop material
    indexes are, without repetition, exactly those integer indexes, each
    with an override whose map is the texture. *)
Theorem apply_success_assigns_overrides fetch harm proj textureId rt tex :
  keeps_materials harm -> keeps_materials proj ->
  normalize_id textureId <> EmptyString -> rt_countertopMeshes rt <> [] ->
  fst (loadCountertopTexture material texture fetch (normalize_id textureId) rt) = Some tex ->
  let n := normalize_id textureId in
  let targets := rt_countertopMeshes rt in
  let rt' := applyCountertopTexture material_side fetch harm proj textureId rt in
  rt_status rt' = (("Applied countertop texture " ++ n ++ ".")%string, false) /\
  rt_normalsHarmonized rt' = true /\
  assoc_get String.eqb n (rt_textureCache rt') = Some (Some tex) /\
  List.length (rt_meshes rt') = List.length (rt_meshes rt) /\
  (forall i m0 idx, In i targets -> nth_error (rt_meshes rt) i = Some m0 ->
     integer_index (mesh_materialIdx m0) = Some idx ->
     exists m, nth_error (rt_meshes rt') i = Some m /\ mesh_material_of m = Override idx) /\
  (forall i, ~ In i targets ->
     option_map mesh_material_of (nth_error (rt_meshes rt') i) =
     option_map mesh_material_of (nth_error (rt_meshes rt) i)) /\
  (forall idx, In idx (rt_countertopMaterialIndexes rt') <->
     exists i m0, In i targets /\ nth_error (rt_meshes rt) i = Some m0 /\
                  integer_index (mesh_materialIdx m0) = Some idx) /\
  NoDup (rt_countertopMaterialIndexes rt') /\
  (forall idx, In idx (rt_countertopMaterialIndexes rt') ->
     exists o, assoc_get Z.eqb idx (rt_overrides rt') = Some o /\ ov_map o = tex) /\
  (forall i, option_map mesh_geom (nth_error (rt_meshes rt') i) =
     option_map mesh_geom
       (nth_error (proj targets (if rt_normalsHarmonized rt then rt_meshes rt
                                 else harm targets (rt_meshes rt))) i)).
Proof.
  intros Hh Hp Hn Ht Hl. cbv zeta. unfold applyCountertopTexture.
  rewrite (proj2 (String.eqb_neq _ _) Hn).
  destruct (rt_countertopMeshes rt) as [|t ts] eqn:T; [congruence|].
  set (rt1 := setStatus rt _ false).
  pose proof (load_spec fetch (normalize_id textureId) rt1) as LS.
  pose proof (load_fst_setStatus fetch (normalize_id textureId) rt
                (String.append "Applying countertop texture "
                   (String.append (normalize_id textureId) "...")) false) as LF.
  fold rt1 in LF. rewrite Hl in LF.
  destruct (loadCountertopTexture material texture fetch (normalize_id textureId) rt1)
    as [loaded rt2] eqn:LE.
  simpl in LF. subst loaded.
  destruct LS as (M2 & T2 & B2 & O2 & H2 & _ & _ & C2 & _).
  subst rt1. cbn [rt_meshes rt_countertopMeshes rt_materialByIndex rt_overrides
                  rt_normalsHarmonized setStatus] in M2, T2, B2, O2, H2.
  set (ms0 := proj (t :: ts) (if rt_normalsHarmonized rt2 then rt_meshes rt2
                              else harm (t :: ts) (rt_meshes rt2))).
  assert (K : forall i, option_map mesh_key (nth_error ms0 i) =
                        option_map mesh_key (nth_error (rt_meshes rt) i)).
  { intros i. subst ms0. rewrite Hp. rewrite M2.
    destruct (rt_normalsHarmonized rt2); [reflexivity | apply Hh]. }
  rewrite assign_overrides_fold.
  pose proof (assign_fold_inv tex (rt_materialByIndex rt2) ms0 (rt_overrides rt2) (t :: ts) []
                _ (assign_init tex ms0 (rt_overrides rt2))) as INV.
  pose proof (fun j => assign_fold_geom tex (rt_materialByIndex rt2) (t :: ts)
                         (ms0, rt_overrides rt2, []) j) as G.
  destruct (fold_left (assign_step tex (rt_materialByIndex rt2)) (t :: ts)
              (ms0, rt_overrides rt2, [])) as [[ms ov] used].
  simpl app in INV.
  destruct INV as (IL & II & IU & ID & IUs & IO & IN & _).
  cbn [rt_status rt_normalsHarmonized rt_textureCache rt_meshes rt_countertopMaterialIndexes
       rt_overrides].
  split; [reflexivity|]. split; [reflexivity|]. split; [exact C2|].
  split; [rewrite IL; apply keys_length, K|].
  split.
  { intros i m0 idx Hi Hm0 Hx.
    destruct (key_some _ _ _ (K i) Hm0) as (m' & Hm' & _ & Ex).
    apply (ID i m' idx Hi Hm'). rewrite Ex. exact Hx. }
  split.
  { intros i Hi. rewrite (IU i Hi). apply key_material, K. }
  split.
  { intros idx. rewrite IUs. split.
    - intros (i & m' & Hi & Hm' & Hx).
      pose proof (K i) as Ki. rewrite Hm' in Ki.
      destruct (nth_error (rt_meshes rt) i) as [m0|] eqn:N0; [|discriminate].
      exists i, m0. split; [exact Hi|]. split; [exact N0|].
      simpl in Ki. unfold mesh_key in Ki. inversion Ki as [[E1 E2]].
      congruence.
    - intros (i & m0 & Hi & Hm0 & Hx).
      destruct (key_some _ _ _ (K i) Hm0) as (m' & Hm' & _ & Ex).
      exists i, m'. split; [exact Hi|]. split; [exact Hm'|]. rewrite Ex. exact Hx. }
  split; [exact IN|]. split; [exact IO|].
  intros i. rewrite G. subst ms0. cbn [fst]. rewrite M2, H2. reflexivity.
Qed.

Ltac rt_proj :=
  cbn [rt_meshes rt_countertopMeshes rt_materialByIndex rt_overrides rt_textureCache
       rt_normalsHarmonized rt_countertopMaterialIndexes rt_status fst snd] in *.

Lemma apply_failed_shape (fetch : string -> option texture)
    (harm proj : list nat -> list (mesh material) -> list (mesh material)) textureId rt :
  let n := normalize_id textureId in
  let rt1 := applyCountertopTexture material_side fetch harm proj textureId rt in
  fst (rt_status rt1) = ("Could not load countertop texture " ++ n ++ ".")%string ->
  n <> EmptyString /\ rt_countertopMeshes rt1 <> [] /\
  assoc_get String.eqb n (rt_textureCache rt1) = Some None /\ snd (rt_status rt1) = true.
Proof.
  cbv zeta. unfold applyCountertopTexture.
  destruct (String.eqb (normalize_id textureId) EmptyString) eqn:E.
  { unfold setStatus. rt_proj. intros H. discriminate H. }
  apply String.eqb_neq in E.
  destruct (rt_countertopMeshes rt) as [|t ts] eqn:T.
  { unfold setStatus. rt_proj. intros H. discriminate H. }
  pose proof (load_spec fetch (normalize_id textureId)
                (setStatus rt (String.append "Applying countertop texture "
                   (String.append (normalize_id textureId) "...")) false)) as LS.
  destruct (loadCountertopTexture material texture fetch (normalize_id textureId) _)
    as [[tex|] rt2] eqn:LE.
  - destruct (assign_overrides _ _ _ _ _ _ _ _) as [[ms ov] used].
    rt_proj. intros H. discriminate H.
  - destruct LS as (_ & T2 & _ & _ & _ & _ & _ & C2 & _).
    unfold setStatus in *. rt_proj. intros _.
    split; [exact E|]. rewrite T2, T. split; [discriminate|]. split; [exact C2 | reflexivity].
Qed.

(** Extra: a failed texture load is cached: once [applyCountertopTexture]
    has reported that the texture for an id could not be loaded, applying
    the same id again changes nothing, whatever a new fetch would return;
    the texture is not fetched again. *)
Theorem failed_load_is_cached (fetch : string -> option texture)
    (harm proj : list nat -> list (mesh material) -> list (mesh material)) textureId rt :
  fst (rt_status (applyCountertopTexture material_side fetch harm proj textureId rt)) =
    ("Could not load countertop texture " ++ normalize_id textureId ++ ".")%string ->
  forall (fetch' : string -> option texture)
    (harm' proj' : list nat -> list (mesh material) -> list (mesh material)),
  applyCountertopTexture material_side fetch' harm' proj' textureId
    (applyCountertopTexture material_side fetch harm proj textureId rt) =
  applyCountertopTexture material_side fetch harm proj textureId rt.
Proof.
  intros H fetch' harm' proj'.
  destruct (apply_failed_shape fetch harm proj textureId rt H) as (E & T & C & B).
  revert H E T C B.
  generalize (applyCountertopTexture material_side fetch harm proj textureId rt).
  intros rt1 H E T C B.
  unfold applyCountertopTexture at 1.
  rewrite (proj2 (String.eqb_neq _ _) E).
  destruct (rt_countertopMeshes rt1) as [|t ts] eqn:T1; [congruence|].
  unfold loadCountertopTexture.
  replace (rt_textureCache (setStatus rt1 (String.append "Applying countertop texture "
             (String.append (normalize_id textureId) "...")) false))
    with (rt_textureCache rt1) by reflexivity.
  rewrite C.
  destruct rt1 as [a b c d e f g [msg err]]. unfold setStatus. rt_proj.
  subst. reflexivity.
Qed.

(** Extra: the countertop normals are harmonized at most once: once the
    flag is set, applying a texture gives the same result whatever the
    harmonization pass is, and the flag stays set. *)
Theorem harmonize_runs_once (fetch : string -> option texture)
    (harm harm' proj : list nat -> list (mesh material) -> list (mesh material)) textureId rt :
  rt_normalsHarmonized rt = true ->
  applyCountertopTexture material_side fetch harm proj textureId rt =
  applyCountertopTexture material_side fetch harm' proj textureId rt /\
  rt_normalsHarmonized (applyCountertopTexture material_side fetch harm proj textureId rt) = true.
Proof.
  intros Hf. unfold applyCountertopTexture.
  destruct (String.eqb (normalize_id textureId) EmptyString); [split; [reflexivity | exact Hf]|].
  destruct (rt_countertopMeshes rt) as [|t ts]; [split; [reflexivity | exact Hf]|].
  pose proof (load_spec fetch (normalize_id textureId)
                (setStatus rt (String.append "Applying countertop texture "
                   (String.append (normalize_id textureId) "...")) false)) as LS.
  destruct (loadCountertopTexture material texture fetch (normalize_id textureId) _)
    as [[tex|] rt2] eqn:LE.
  - destruct LS as (_ & _ & _ & _ & H2 & _). cbn in H2. rewrite H2, Hf.
    destruct (assign_overrides _ _ _ _ _ _ _ _) as [[ms ov] used].
    split; reflexivity.
  - destruct LS as (_ & _ & _ & _ & H2 & _). cbn in H2.
    split; [reflexivity|]. cbn. rewrite H2. exact Hf.
Qed.

(** Extra: whatever its outcome, [applyCountertopTexture] leaves the
    countertop mesh list and the scene materials as they are, drops no
    texture cache entry (nor changes one), and drops no override material
    nor changes its side. *)
Theorem apply_keeps_caches (fetch : string -> option texture)
    (harm proj : list nat -> list (mesh material) -> list (mesh material)) textureId rt :
  let rt' := applyCountertopTexture material_side fetch harm proj textureId rt in
  rt_countertopMeshes rt' = rt_countertopMeshes rt /\
  rt_materialByIndex rt' = rt_materialByIndex rt /\
  (forall k v, assoc_get String.eqb k (rt_textureCache rt) = Some v ->
     assoc_get String.eqb k (rt_textureCache rt') = Some v) /\
  (forall j o, assoc_get Z.eqb j (rt_overrides rt) = Some o ->
     exists o', assoc_get Z.eqb j (rt_overrides rt') = Some o' /\ ov_side o' = ov_side o).
Proof.
  cbv zeta. unfold applyCountertopTexture.
  assert (Triv : forall (r : runtime material texture) m b,
    rt_countertopMeshes (setStatus r m b) = rt_countertopMeshes r /\
    rt_materialByIndex (setStatus r m b) = rt_materialByIndex r /\
    (forall k v, assoc_get String.eqb k (rt_textureCache r) = Some v ->
       assoc_get String.eqb k (rt_textureCache (setStatus r m b)) = Some v) /\
    (forall j o, assoc_get Z.eqb j (rt_overrides r) = Some o ->
       exists o', assoc_get Z.eqb j (rt_overrides (setStatus r m b)) = Some o' /\
                  ov_side o' = ov_side o)).
  { intros r m b. split; [reflexivity|]. split; [reflexivity|].
    split; [auto|]. intros j o H. exists o. split; [exact H | reflexivity]. }
  destruct (String.eqb (normalize_id textureId) EmptyString); [apply Triv|].
  pose proof (Triv rt "No countertop materials were detected for this scene."%string true) as TN.
  destruct (rt_countertopMeshes rt) as [|t ts] eqn:T; [exact TN|].
  pose proof (load_spec fetch (normalize_id textureId)
                (setStatus rt (String.append "Applying countertop texture "
                   (String.append (normalize_id textureId) "...")) false)) as LS.
  destruct (loadCountertopTexture material texture fetch (normalize_id textureId) _)
    as [[tex|] rt2] eqn:LE;
    destruct LS as (_ & T2 & B2 & O2 & _ & _ & _ & _ & CM & _); cbn in T2, B2, O2, CM.
  - rewrite assign_overrides_fold.
    match goal with |- context [fold_left (assign_step ?tx ?mb) ?tg (?m0, ?o0, [])] =>
      pose proof (assign_fold_inv tx mb m0 o0 tg [] _ (assign_init tx m0 o0)) as INV;
      destruct (fold_left (assign_step tx mb) tg (m0, o0, [])) as [[ms ov] used] end.
    destruct INV as (_ & _ & _ & _ & _ & _ & _ & IG).
    cbn. split; [reflexivity|]. split; [exact B2|].
    split; [exact CM|]. rewrite <- O2. exact IG.
  - cbn. rewrite O2. split; [rewrite T2; exact T|]. split; [exact B2|].
    split; [exact CM|]. intros j o H. exists o. split; [exact H | reflexivity].
Qed.

End Facts.

Definition ident_pass : list nat -> list (mesh unit) -> list (mesh unit) := fun _ ms => ms.

Lemma ident_pass_keeps : keeps_materials unit ident_pass.
Proof. intros ts ms i. reflexivity. Qed.

Lemma normalize_X : normalize_id "X" <> EmptyString.
Proof. vm_compute. discriminate. Qed.

(** Witness: [apply_success_assigns_overrides] on the one-mesh countertop
    scene, applying id ["X"] whose texture loads. *)
Lemma apply_success_assigns_overrides_witness :
  keeps_materials unit ident_pass /\ normalize_id "X" <> EmptyString /\
  rt_countertopMeshes countertop_runtime <> [] /\
  fst (loadCountertopTexture unit unit (fun _ => Some tt) (normalize_id "X")
         countertop_runtime) = Some tt /\
  let n := normalize_id "X" in
  let targets := rt_countertopMeshes countertop_runtime in
  let rt' := applyCountertopTexture (fun _ => 0) (fun _ => Some tt) ident_pass ident_pass
               "X" countertop_runtime in
  rt_status rt' = (("Applied countertop texture " ++ n ++ ".")%string, false) /\
  rt_normalsHarmonized rt' = true /\
  assoc_get String.eqb n (rt_textureCache rt') = Some (Some tt) /\
  List.length (rt_meshes rt') = List.length (rt_meshes countertop_runtime) /\
  (forall i m0 idx, In i targets -> nth_error (rt_meshes countertop_runtime) i = Some m0 ->
     integer_index (mesh_materialIdx m0) = Some idx ->
     exists m, nth_error (rt_meshes rt') i = Some m /\ mesh_material_of m = Override idx) /\
  (forall i, ~ In i targets ->
     option_map mesh_material_of (nth_error (rt_meshes rt') i) =
     option_map mesh_material_of (nth_error (rt_meshes countertop_runtime) i)) /\
  (forall idx, In idx (rt_countertopMaterialIndexes rt') <->
     exists i m0, In i targets /\ nth_error (rt_meshes countertop_runtime) i = Some m0 /\
                  integer_index (mesh_materialIdx m0) = Some idx) /\
  NoDup (rt_countertopMaterialIndexes rt') /\
  (forall idx, In idx (rt_countertopMaterialIndexes rt') ->
     exists o, assoc_get Z.eqb idx (rt_overrides rt') = Some o /\ ov_map o = tt) /\
  (forall i, option_map (mesh_geom unit) (nth_error (rt_meshes rt') i) =
     option_map (mesh_geom unit)
       (nth_error (ident_pass targets
                     (if rt_normalsHarmonized countertop_runtime
                      then rt_meshes countertop_runtime
                      else ident_pass targets (rt_meshes countertop_runtime))) i)).
Proof.
  assert (T : rt_countertopMeshes countertop_runtime <> []) by discriminate.
  assert (L : fst (loadCountertopTexture unit unit (fun _ => Some tt) (normalize_id "X")
                     countertop_runtime) = Some tt) by reflexivity.
  split; [exact ident_pass_keeps|]. split; [exact normalize_X|].
  split; [exact T|]. split; [exact L|].
  exact (apply_success_assigns_overrides unit unit (fun _ => 0) (fun _ => Some tt)
           ident_pass ident_pass "X" countertop_runtime tt
           ident_pass_keeps ident_pass_keeps normalize_X T L).
Defined.

Lemma countertop_X_fails :
  fst (rt_status (applyCountertopTexture (fun _ => 0) (fun _ => None) ident_pass ident_pass
                    "X" countertop_runtime)) =
  ("Could not load countertop texture " ++ normalize_id "X" ++ ".")%string.
Proof. vm_compute. reflexivity. Qed.

(** Witness: [failed_load_is_cached] on the countertop scene whose texture
    ["X"] cannot be loaded. *)
Lemma failed_load_is_cached_witness :
  fst (rt_status (applyCountertopTexture (fun _ => 0) (fun _ => None) ident_pass ident_pass
                    "X" countertop_runtime)) =
    ("Could not load countertop texture " ++ normalize_id "X" ++ ".")%string /\
  forall (fetch' : string -> option unit) (harm' proj' : list nat -> list (mesh unit) -> list (mesh unit)),
  applyCountertopTexture (fun _ => 0) fetch' harm' proj' "X"
    (applyCountertopTexture (fun _ => 0) (fun _ => None) ident_pass ident_pass "X"
       countertop_runtime) =
  applyCountertopTexture (fun _ => 0) (fun _ => None) ident_pass ident_pass "X"
    countertop_runtime.
Proof.
  split; [exact countertop_X_fails|].
  exact (failed_load_is_cached unit unit (fun _ => 0) (fun _ => None) ident_pass ident_pass
           "X" countertop_runtime countertop_X_fails).
Defined.

(** Witness: [harmonize_runs_once] on the already harmonized scene, with a
    harmonization pass that would drop every mesh. *)
Lemma harmonize_runs_once_witness :
  rt_normalsHarmonized harmonized_runtime = true /\
  applyCountertopTexture (fun _ => 0) (fun _ => Some tt) ident_pass ident_pass "X"
    harmonized_runtime =
  applyCountertopTexture (fun _ => 0) (fun _ => Some tt) (fun _ _ => []) ident_pass "X"
    harmonized_runtime /\
  rt_normalsHarmonized (applyCountertopTexture (fun _ => 0) (fun _ => Some tt) ident_pass
                          ident_pass "X" harmonized_runtime) = true.
Proof.
  split; [reflexivity|].
  exact (harmonize_runs_once unit unit (fun _ => 0) (fun _ => Some tt) ident_pass
           (fun _ _ => []) ident_pass "X" harmonized_runtime eq_refl).
Defined.

End CountertopApplyExtraFacts.

Module ExteriorExtraFacts.
Import Js Materials Exterior ExteriorFacts.

Definition sky_outcome (resolve : jv -> option texture) (sceneJson : jv) : bool :=
  truthy (get (get (first_sky sceneJson) "texture") "id") &&
  match resolve (get (first_sky sceneJson) "texture") with Some _ => true | None => false end.

Lemma apply_exterior_cases resolve sceneJson s :
  (sky_outcome resolve sceneJson = false /\
   applySceneExterior resolve sceneJson s = (with_mode (clearSceneExterior s) "none", false)) \/
  (exists t, sky_outcome resolve sceneJson = true /\
   resolve (get (first_sky sceneJson) "texture") = Some t /\
   let y := yaw_radians (first_sky sceneJson) in
   let finite := match to_number (get (first_sky sceneJson) "yawRotation") with
                 | Some _ => true | None => false end in
   applySceneExterior resolve sceneJson s =
   ({| st_skyMesh := Some {| sky_map := {| tex_image := tex_image t; tex_rotation := tex_rotation t;
                                           tex_flipY := true; tex_mapping := tex_mapping t |};
                             sky_quaternion := quat_multiply (setFromAxisAngle 0 0 1 y)
                                                 (setFromAxisAngle 1 0 0 (PI / 2)) |};
       st_environment := Some {| tex_image := tex_image t; tex_rotation := tex_rotation t;
                                 tex_flipY := true;
                                 tex_mapping := EquirectangularReflectionMapping |};
       st_environmentRotation :=
         (if finite then option_map (fun _ => (0, 0, y)%R) (st_environmentRotation s)
          else option_map (fun _ => (0, 0, 0)%R)
                 (option_map (fun _ => (0, 0, y)%R) (st_environmentRotation s)));
       st_backgroundRotation := option_map (fun _ => (0, 0, 0)%R) (st_backgroundRotation s);
       st_exteriorMode := "sky" |}, true)).
Proof.
  unfold applySceneExterior, sky_outcome. fold (first_sky sceneJson).
  destruct (truthy (get (get (first_sky sceneJson) "texture") "id")); simpl negb; cbv iota.
  - destruct (resolve (get (first_sky sceneJson) "texture")) as [t|].
    + right. exists t. split; [reflexivity|]. split; [reflexivity|]. reflexivity.
    + left. split; reflexivity.
  - left. split; reflexivity.
Qed.

(** Extra: applying the same exterior twice is the same as applying it once:
    [applySceneExterior] clears what a previous call set up, and what it sets
    depends on the previous state only through which rotation fields the
    scene has. *)
Theorem applySceneExterior_idempotent resolve sceneJson s :
  applySceneExterior resolve sceneJson (fst (applySceneExterior resolve sceneJson s)) =
  applySceneExterior resolve sceneJson s.
Proof.
  destruct (apply_exterior_cases resolve sceneJson s) as [[Ho E] | [t [Ho [Hr E]]]];
    rewrite E; cbn [fst].
  - destruct (apply_exterior_cases resolve sceneJson (with_mode (clearSceneExterior s) "none"))
      as [[_ E'] | [t' [Ho' _]]]; [|congruence].
    rewrite E'. reflexivity.
  - match goal with |- applySceneExterior _ _ ?s1 = _ =>
      destruct (apply_exterior_cases resolve sceneJson s1)
        as [[Ho' _] | [t' [_ [Hr' E']]]]; [congruence|] end.
    rewrite E'. rewrite Hr in Hr'. injection Hr' as <-. cbn.
    destruct (to_number (get (first_sky sceneJson) "yawRotation"));
      destruct (st_environmentRotation s); destruct (st_backgroundRotation s); reflexivity.
Qed.


End ExteriorExtraFacts.

Module UrlsExtraFacts.
Import Js Materials Urls.

Lemma split_on_nonnil sep l : split_on sep l <> [].
Proof.
  destruct l as [|c r]; simpl; [discriminate|].
  destruct (Ascii.eqb c sep); [discriminate|]. destruct (split_on sep r); discriminate.
Qed.

Lemma join_cons sep c w ws : join_with sep ((c :: w) :: ws) = c :: join_with sep (w :: ws).
Proof. destruct ws; reflexivity. Qed.

Lemma join_split sep l : join_with [sep] (split_on sep l) = l.
Proof.
  induction l as [|c r IH]; [reflexivity|].
  change (split_on sep (c :: r)) with
    (if Ascii.eqb c sep then [] :: split_on sep r
     else match split_on sep r with [] => [[c]] | w :: ws => (c :: w) :: ws end).
  pose proof (split_on_nonnil sep r) as N.
  destruct (split_on sep r) as [|w ws]; [congruence|].
  destruct (Ascii.eqb c sep) eqn:E.
  - apply Ascii.eqb_eq in E. subst c.
    change (join_with [sep] ([] :: w :: ws)) with ([] ++ [sep] ++ join_with [sep] (w :: ws)).
    rewrite IH. reflexivity.
  - rewrite join_cons, IH. reflexivity.
Qed.

Lemma split_no_sep sep w t :
  ~ In sep w -> split_on sep (w ++ t) =
  match split_on sep t with [] => [w] | v :: vs => (w ++ v) :: vs end.
Proof.
  intros Hw. induction w as [|c w IH]; simpl.
  - pose proof (split_on_nonnil sep t). destruct (split_on sep t); [congruence | reflexivity].
  - destruct (Ascii.eqb c sep) eqn:E.
    + apply Ascii.eqb_eq in E. subst. exfalso. apply Hw. left. reflexivity.
    + rewrite IH by (intro; apply Hw; right; assumption).
      pose proof (split_on_nonnil sep t). destruct (split_on sep t); [congruence | reflexivity].
Qed.

Lemma split_join sep ws :
  (forall w, In w ws -> ~ In sep w) -> ws <> [] -> split_on sep (join_with [sep] ws) = ws.
Proof.
  induction ws as [|w r IH]; intros Hw Hn; [congruence|].
  destruct r as [|w' r].
  - simpl. rewrite <- (app_nil_r w) at 1. rewrite split_no_sep by (apply Hw; left; reflexivity).
    simpl. rewrite app_nil_r. reflexivity.
  - change (join_with [sep] (w :: w' :: r)) with (w ++ [sep] ++ join_with [sep] (w' :: r)).
    rewrite split_no_sep by (apply Hw; left; reflexivity).
    assert (SS : forall t, split_on sep (sep :: t) = [] :: split_on sep t)
      by (intros t; simpl; rewrite Ascii.eqb_refl; reflexivity).
    cbn [app]. rewrite SS, IH; [rewrite app_nil_r; reflexivity | |discriminate].
    intros v Hv. apply Hw. right. exact Hv.
Qed.

Lemma in_join sep ws x : In x (join_with sep ws) -> In x sep \/ exists w, In w ws /\ In x w.
Proof.
  induction ws as [|w r IH]; simpl; [tauto|]. destruct r as [|w' r].
  - intros H. right. exists w. split; [left; reflexivity | exact H].
  - intros H. apply in_app_or in H as [H|H]; [right; exists w; split; [left|]; tauto|].
    apply in_app_or in H as [H|H]; [left; exact H|].
    destruct (IH H) as [H'|[v [Hv Hx]]]; [left; exact H'|]. right. exists v. tauto.
Qed.

Lemma hex_digit_unreserved d : uri_unreserved (hex_digit d) = true.
Proof. do 16 (destruct d as [|d]; [reflexivity|]). destruct d; reflexivity. Qed.

Lemma encode_char_safe c x : In x (encode_char c) -> uri_unreserved x = true \/ x = "%"%char.
Proof.
  unfold encode_char. destruct (uri_unreserved c) eqn:E.
  - intros [<-|[]]. left. exact E.
  - intros [<-|[<-|[<-|[]]]]; [right; reflexivity | left; apply hex_digit_unreserved..].
Qed.

Lemma hex_digit_inj d1 d2 : (d1 < 16)%nat -> (d2 < 16)%nat -> hex_digit d1 = hex_digit d2 -> d1 = d2.
Proof.
  intros H1 H2. assert (I1 : In d1 (seq 0 16)) by (apply in_seq; lia).
  assert (I2 : In d2 (seq 0 16)) by (apply in_seq; lia). clear H1 H2.
  simpl in I1, I2. intuition (subst; first [reflexivity | discriminate]).
Qed.

Lemma encode_char_prefix a b X Y :
  encode_char a ++ X = encode_char b ++ Y -> a = b /\ X = Y.
Proof.
  unfold encode_char.
  remember (nat_of_ascii a / 16)%nat as a1 eqn:A1.
  remember (nat_of_ascii a mod 16)%nat as a2 eqn:A2.
  remember (nat_of_ascii b / 16)%nat as b1 eqn:B1.
  remember (nat_of_ascii b mod 16)%nat as b2 eqn:B2.
  destruct (uri_unreserved a) eqn:Ha, (uri_unreserved b) eqn:Hb; cbn [app]; intros H;
    injection H; clear H; intros.
  - subst. split; reflexivity.
  - subst a. discriminate Ha.
  - subst b. discriminate Hb.
  - split; [|assumption].
    pose proof (nat_ascii_bounded a). pose proof (nat_ascii_bounded b).
    subst.
    assert (Bd : forall n, (n < 256)%nat -> (n / 16 < 16)%nat /\ (n mod 16 < 16)%nat)
      by (intros n Hn; split; [apply Nat.Div0.div_lt_upper_bound; lia |
                               apply Nat.mod_upper_bound; lia]).
    destruct (Bd _ H2) as [Da Ma]. destruct (Bd _ H3) as [Db Mb].
    apply hex_digit_inj in H0; [|assumption..]. apply hex_digit_inj in H1; [|assumption..].
    rewrite <- (ascii_nat_embedding a), <- (ascii_nat_embedding b). f_equal.
    rewrite (Nat.div_mod_eq (nat_of_ascii a) 16), (Nat.div_mod_eq (nat_of_ascii b) 16). lia.
Qed.

Lemma encode_inj a b : flat_map encode_char a = flat_map encode_char b -> a = b.
Proof.
  revert b. induction a as [|c r IH]; intros [|c' r'] H; simpl in H.
  - reflexivity.
  - unfold encode_char in H. destruct (uri_unreserved c'); discriminate.
  - unfold encode_char in H. destruct (uri_unreserved c); discriminate.
  - apply encode_char_prefix in H as [-> E]. f_equal. apply IH. exact E.
Qed.

Lemma encoded_segment part :
  list_ascii_of_string (encodeURIComponent (string_of_list_ascii part)) =
  flat_map encode_char part.
Proof.
  unfold encodeURIComponent. rewrite !list_ascii_of_string_of_list_ascii. reflexivity.
Qed.

Lemma encoded_no_slash part : ~ In slash (flat_map encode_char part).
Proof.
  intros H. apply in_flat_map in H as [c [_ Hc]].
  apply encode_char_safe in Hc as [H|H]; [discriminate H | discriminate H].
Qed.

(** Extra: the ["/"]-separated segments of [encodePathSegments]' result
    are exactly [encodeURIComponent] of the input's segments, and the result
    holds only unreserved URL characters, ['%'] and ['/']. *)
Theorem encode_path_segments_shape s :
  split_on slash (list_ascii_of_string (encode_path_string s)) =
    map (fun part => list_ascii_of_string (encodeURIComponent (string_of_list_ascii part)))
        (split_on slash (list_ascii_of_string s)) /\
  (forall x, In x (list_ascii_of_string (encode_path_string s)) ->
     uri_unreserved x = true \/ x = "%"%char \/ x = slash).
Proof.
  unfold encode_path_string. rewrite list_ascii_of_string_of_list_ascii.
  split.
  - apply split_join.
    + intros w Hw. apply in_map_iff in Hw as [part [<- _]]. rewrite encoded_segment.
      apply encoded_no_slash.
    + pose proof (split_on_nonnil slash (list_ascii_of_string s)).
      destruct (split_on slash (list_ascii_of_string s)); [congruence | discriminate].
  - intros x Hx. apply in_join in Hx as [[<-|[]]|[w [Hw Hx]]]; [right; right; reflexivity|].
    apply in_map_iff in Hw as [part [<- _]]. rewrite encoded_segment in Hx.
    apply in_flat_map in Hx as [c [_ Hc]]. apply encode_char_safe in Hc. tauto.
Qed.

(** Extra: [encodePathSegments] is injective on string ids: two texture ids
    that encode to the same path are the same id. *)
Theorem encodePathSegments_injective number_to_string a b :
  encodePathSegments number_to_string (JStr a) = encodePathSegments number_to_string (JStr b) ->
  a = b.
Proof.
  assert (E : forall s, encodePathSegments number_to_string (JStr s) = encode_path_string s).
  { intros s. unfold encodePathSegments. simpl.
    destruct (String.eqb s EmptyString) eqn:Es; simpl; [|reflexivity].
    apply String.eqb_eq in Es. subst. reflexivity. }
  rewrite !E. intros H.
  assert (S : split_on slash (list_ascii_of_string (encode_path_string a)) =
              split_on slash (list_ascii_of_string (encode_path_string b))) by (rewrite H; reflexivity).
  rewrite (proj1 (encode_path_segments_shape a)), (proj1 (encode_path_segments_shape b)) in S.
  assert (M : split_on slash (list_ascii_of_string a) = split_on slash (list_ascii_of_string b)).
  { revert S. generalize (split_on slash (list_ascii_of_string b)).
    induction (split_on slash (list_ascii_of_string a)) as [|w r IH]; intros [|w' r'] S;
      simpl in S; try discriminate; [reflexivity|].
    injection S as Sw Sr. rewrite !encoded_segment in Sw. apply encode_inj in Sw. subst w'.
    f_equal. apply IH. exact Sr. }
  rewrite <- (string_of_list_ascii_of_string a), <- (string_of_list_ascii_of_string b).
  rewrite <- (join_split slash (list_ascii_of_string a)), M, join_split. reflexivity.
Qed.

(** Extra: [buildSceneTextureCandidates] returns distinct URLs; the small,
    large and plain fallbacks are always among them; every other URL is built
    from one of the [webFormats] entries that ends in ["/std"]. *)
Theorem scene_texture_candidates number_to_string sceneBaseUrl textureDefinition :
  let id := encodePathSegments number_to_string (get textureDefinition "id") in
  let stdExt := get textureDefinition "stdExt" in
  let rawExt := get textureDefinition "rawExt" in
  let extension := js_to_string number_to_string
                     (if truthy stdExt then stdExt else if truthy rawExt then rawExt else JStr "jpg") in
  let formats := match get textureDefinition "webFormats" with JArr l => l | _ => [] end in
  let c := buildSceneTextureCandidates number_to_string sceneBaseUrl textureDefinition in
  NoDup c /\
  In (sceneBaseUrl ++ "img/small/std/" ++ id ++ "." ++ extension)%string c /\
  In (sceneBaseUrl ++ "img/large/std/" ++ id ++ "." ++ extension)%string c /\
  In (sceneBaseUrl ++ id ++ "." ++ extension)%string c /\
  (forall u, In u c ->
     u = (sceneBaseUrl ++ "img/small/std/" ++ id ++ "." ++ extension)%string \/
     u = (sceneBaseUrl ++ "img/large/std/" ++ id ++ "." ++ extension)%string \/
     u = (sceneBaseUrl ++ id ++ "." ++ extension)%string \/
     exists format, In format formats /\
       ends_with "/std" (js_to_string number_to_string format) = true /\
       u = (sceneBaseUrl ++ "img/" ++ js_to_string number_to_string format ++ "/" ++ id ++
            "." ++ extension)%string).
Proof.
  cbv zeta. unfold buildSceneTextureCandidates. cbv zeta.
  match goal with |- context [TextureLoad.dedup_from [] ?l] =>
    destruct (TextureLoadExtraFacts.dedup_from_spec [] l) as [N M] end.
  split; [exact N|].
  split; [apply M; split; [apply in_or_app; right; left; reflexivity | intros []]|].
  split; [apply M; split; [apply in_or_app; right; right; left; reflexivity | intros []]|].
  split; [apply M; split; [apply in_or_app; right; right; right; left; reflexivity | intros []]|].
  intros u Hu. apply M in Hu as [Hu _]. apply in_app_or in Hu as [Hu|Hu].
  - apply in_flat_map in Hu as [f [Hf Hu]].
    match type of Hu with In _ (if ?b then _ else _) => destruct b eqn:Ef end;
      [|destruct Hu].
    destruct Hu as [<-|[]]. right; right; right. exists f. split; [exact Hf|]. split; [exact Ef|].
    reflexivity.
  - simpl in Hu. intuition.
Qed.

(** Witness: [encodePathSegments_injective] at an id with a space and a
    slash. *)
Lemma encodePathSegments_injective_witness :
  encodePathSegments (fun _ => EmptyString) (JStr "a b/c") =
    encodePathSegments (fun _ => EmptyString) (JStr "a b/c") /\
  "a b/c"%string = "a b/c"%string.
Proof.
  split; [reflexivity|].
  exact (encodePathSegments_injective (fun _ => EmptyString) "a b/c" "a b/c" eq_refl).
Defined.

End UrlsExtraFacts.

Module CountertopsExtraFacts.
Import Js Materials Countertops.
Local Open Scope list_scope.

(** ** Material names in node configs *)

Lemma drop_ws_ws_prefix pre l : forallb is_ws pre = true -> drop_ws (pre ++ l) = drop_ws l.
Proof.
  induction pre as [|c r IH]; simpl; [reflexivity|].
  intros H. apply andb_true_iff in H as [Hc Hr]. rewrite Hc. apply IH. exact Hr.
Qed.

Lemma drop_ws_app_nonws A c Y : is_ws c = false -> drop_ws (A ++ c :: Y) = drop_ws A ++ c :: Y.
Proof.
  intros Hc. induction A as [|a A IH]; simpl; [rewrite Hc; reflexivity|].
  destruct (is_ws a); [exact IH | reflexivity].
Qed.

Lemma drop_ws_split l : exists pre, l = pre ++ drop_ws l /\ forallb is_ws pre = true.
Proof.
  induction l as [|c r IH]; [exists []; split; reflexivity|]. simpl.
  destruct (is_ws c) eqn:Ec.
  - destruct IH as [pre [E P]]. exists (c :: pre). simpl. rewrite Ec, P. split; [|reflexivity].
    rewrite <- E. reflexivity.
  - exists []. split; reflexivity.
Qed.

Lemma trim_split l : exists pre suf,
  l = pre ++ trim l ++ suf /\ forallb is_ws pre = true.
Proof.
  destruct (drop_ws_split l) as [pre [E P]].
  destruct (drop_ws_split (rev (drop_ws l))) as [pre' [E' _]].
  exists pre, (rev pre'). split; [|exact P].
  unfold trim. rewrite E at 1. f_equal.
  rewrite <- rev_app_distr, <- E', rev_involutive. reflexivity.
Qed.

Lemma index_of_spec c l e :
  index_of c l = Some e -> l = firstn e l ++ c :: skipn (S e) l /\ ~ In c (firstn e l).
Proof.
  revert e. induction l as [|x r IH]; intros e H; simpl in H; [discriminate|].
  destruct (Ascii.eqb x c) eqn:Ex.
  - injection H as <-. apply Ascii.eqb_eq in Ex. subst. simpl. split; [reflexivity | tauto].
  - destruct (index_of c r) as [e'|] eqn:Er; simpl in H; [|discriminate]. injection H as <-.
    destruct (IH e' eq_refl) as [E N]. simpl. split; [rewrite E at 1; reflexivity|].
    intros [<-|Hin]; [rewrite Ascii.eqb_refl in Ex; discriminate | exact (N Hin)].
Qed.

Lemma index_of_app c inner post : ~ In c inner -> index_of c (inner ++ c :: post) = Some (List.length inner).
Proof.
  induction inner as [|x r IH]; intros N; simpl; [rewrite Ascii.eqb_refl; reflexivity|].
  destruct (Ascii.eqb x c) eqn:Ex.
  - apply Ascii.eqb_eq in Ex. subst. exfalso. apply N. left. reflexivity.
  - rewrite IH by (intro; apply N; right; assumption). reflexivity.
Qed.

(** Extra: an ASCII node config of the form [ws "{" inner "}" rest], where
    [ws] is white space and [inner] holds no ["}"], names the material
    [inner] trimmed. *)
Theorem extract_name_round_trip pre inner post :
  forallb is_ascii7 (pre ++ "{"%char :: inner ++ "}"%char :: post) = true ->
  forallb is_ws pre = true -> ~ In "}"%char inner ->
  extractMaterialNameFromNodeConfig
    (JStr (string_of_list_ascii (pre ++ "{"%char :: inner ++ "}"%char :: post))) =
  string_of_list_ascii (trim inner).
Proof.
  intros _ Hp Hi.
  assert (Src : trim (pre ++ "{"%char :: inner ++ "}"%char :: post) =
                "{"%char :: inner ++ "}"%char :: rev (drop_ws (rev post))).
  { unfold trim. rewrite drop_ws_ws_prefix by exact Hp.
    change (drop_ws ("{"%char :: inner ++ "}"%char :: post)) with
      ("{"%char :: inner ++ "}"%char :: post).
    replace (rev ("{"%char :: inner ++ "}"%char :: post)) with
      (rev post ++ "}"%char :: (rev inner ++ ["{"%char]))
      by (simpl; rewrite rev_app_distr; simpl; rewrite <- !app_assoc; reflexivity).
    rewrite drop_ws_app_nonws by reflexivity.
    rewrite rev_app_distr. simpl. rewrite rev_app_distr. simpl. rewrite rev_involutive.
    rewrite <- !app_assoc. reflexivity. }
  unfold extractMaterialNameFromNodeConfig. rewrite list_ascii_of_string_of_list_ascii, Src.
  cbn [Ascii.eqb negb]. simpl negb.
  change (index_of "}"%char ("{"%char :: inner ++ "}"%char :: rev (drop_ws (rev post))))
    with (option_map S (index_of "}"%char (inner ++ "}"%char :: rev (drop_ws (rev post))))).
  rewrite index_of_app by exact Hi. simpl option_map. cbv iota.
  destruct inner as [|x r]; [reflexivity|].
  cbn [List.length]. change (S (S (List.length r)) <=? 1)%nat with false. cbv iota.
  assert (F : forall (l t : list ascii), firstn (List.length l) (l ++ t) = l)
    by (intros l t; rewrite firstn_app, Nat.sub_diag, firstn_all; simpl; apply app_nil_r).
  replace (S (S (List.length r)) - 1)%nat with (List.length (x :: r)) by (simpl; lia).
  cbn [skipn]. rewrite F. reflexivity.
Qed.

(** Extra: on a value that is not a string or is an ASCII string,
    [extractMaterialNameFromNodeConfig] returns either [""] or the trimmed
    text between a leading ["{"] (after white space) and the first ["}"]
    of the string. *)
Theorem extract_name_shape v :
  (forall s, v = JStr s -> forallb is_ascii7 (list_ascii_of_string s) = true) ->
  let r := extractMaterialNameFromNodeConfig v in
  r = EmptyString \/
  exists s pre inner post, v = JStr s /\
    list_ascii_of_string s = pre ++ "{"%char :: inner ++ "}"%char :: post /\
    forallb is_ws pre = true /\ ~ In "}"%char inner /\
    r = string_of_list_ascii (trim inner).
Proof.
  intros _. cbv zeta. destruct v as [| | | |s| |]; try (left; reflexivity).
  unfold extractMaterialNameFromNodeConfig.
  destruct (trim_split (list_ascii_of_string s)) as [pre [suf [E P]]].
  destruct (trim (list_ascii_of_string s)) as [|c rest] eqn:T; [left; reflexivity|].
  destruct (Ascii.eqb c "{"%char) eqn:C; [|left; reflexivity].
  apply Ascii.eqb_eq in C. subst c. simpl negb. cbv iota.
  destruct (index_of "}"%char ("{"%char :: rest)) as [n|] eqn:I; [|left; reflexivity].
  destruct (n <=? 1)%nat eqn:N; [left; reflexivity|]. right.
  apply Nat.leb_gt in N. destruct n as [|n']; [lia|].
  destruct (index_of_spec _ _ _ I) as [Es Ns].
  exists s, pre, (firstn n' rest), (skipn (S (S n')) ("{"%char :: rest) ++ suf).
  split; [reflexivity|]. split.
  - rewrite E. f_equal. rewrite Es at 1. cbn [firstn app]. rewrite <- app_assoc. reflexivity.
  - split; [exact P|]. split.
    + intros Hin. apply Ns. simpl. right. exact Hin.
    + simpl. replace (n' - 0)%nat with n' by lia. reflexivity.
Qed.

(** ** Countertop node ids *)

(** The nodes of the forest: the roots, and the entries of a reached node's
    [children] array. *)
Inductive reachable (roots : list jv) : jv -> Prop :=
| reachable_root n : In n roots -> reachable roots n
| reachable_child n l c : reachable roots n -> get n "children" = JArr l -> In c l ->
    reachable roots c.

(** An object node whose config names a countertop material and whose id is
    an integer. *)
Definition countertop_node (names : list jv) (node : jv) (id : Z) : Prop :=
  is_object node = true /\ node_material_name node <> EmptyString /\
  has_name names (node_material_name node) = true /\
  is_integer_number (get node "id") = Some id.

Lemma set_add_spec x l :
  NoDup l -> NoDup (set_add x l) /\ forall y, In y (set_add x l) <-> y = x \/ In y l.
Proof.
  intros N. unfold set_add. destruct (existsb (Z.eqb x) l) eqn:E.
  - split; [exact N|]. intros y. split; [tauto|].
    intros [->|H]; [|exact H]. apply existsb_exists in E as [z [Hz Ez]].
    apply Z.eqb_eq in Ez. subst. exact Hz.
  - split.
    + apply NoDup_app; [exact N | constructor; [intros []|constructor] |].
      intros y Hy [Ey|[]]. rewrite <- Ey in Hy. assert (existsb (Z.eqb x) l = true) as T
        by (apply existsb_exists; exists x; split; [exact Hy | apply Z.eqb_refl]).
      congruence.
    + intros y. rewrite in_app_iff. simpl. intuition congruence.
Qed.

Lemma bfs_children_reachable roots node queue x :
  (forall y, In y (node :: queue) -> reachable roots y) ->
  In x (match get node "children" with JArr l => queue ++ l | _ => queue end) ->
  reachable roots x.
Proof.
  intros Hq Hx. destruct (get node "children") eqn:G;
    try (apply Hq; right; exact Hx).
  apply in_app_or in Hx as [Hx|Hx]; [apply Hq; right; exact Hx|].
  eapply reachable_child; [apply Hq; left; reflexivity | exact G | exact Hx].
Qed.

Lemma bfs_sound roots names fuel queue acc :
  (forall x, In x queue -> reachable roots x) -> NoDup acc ->
  (forall id, In id acc -> exists node, reachable roots node /\ countertop_node names node id) ->
  NoDup (node_bfs fuel names queue acc) /\
  forall id, In id (node_bfs fuel names queue acc) ->
    exists node, reachable roots node /\ countertop_node names node id.
Proof.
  revert queue acc. induction fuel as [|fuel IH]; intros queue acc Hq Hn Ha; simpl;
    [split; assumption|].
  destruct queue as [|node queue]; [split; assumption|].
  destruct (is_object node) eqn:O; simpl negb; cbv iota.
  - apply IH; [intros x Hx; exact (bfs_children_reachable roots node queue x Hq Hx) | |].
    + destruct (is_integer_number (get node "id")); [|exact Hn].
      destruct (_ && _); [apply set_add_spec; exact Hn | exact Hn].
    + destruct (is_integer_number (get node "id")) as [nid|] eqn:I; [|exact Ha].
      destruct (negb (String.eqb (node_material_name node) EmptyString) &&
                has_name names (node_material_name node)) eqn:B; [|exact Ha].
      intros id Hid. apply (set_add_spec nid acc Hn) in Hid as [->|Hid]; [|exact (Ha id Hid)].
      apply andb_true_iff in B as [B1 B2]. exists node. split; [apply Hq; left; reflexivity|].
      unfold countertop_node. rewrite O, B2, I. repeat split.
      intros E. rewrite E in B1. discriminate B1.
  - apply IH; [intros x Hx; apply Hq; right; exact Hx | exact Hn | exact Ha].
Qed.

(** Extra: [extractCountertopNodeIds] returns distinct ids, each the integer
    id of an object node of the scene-node forest whose config (or mesh
    type) names one of the countertop materials. *)
Theorem extractCountertopNodeIds_sound sceneNodes names :
  let ids := extractCountertopNodeIds sceneNodes names in
  NoDup ids /\
  forall id, In id ids -> exists nodes node, sceneNodes = JArr nodes /\
    reachable nodes node /\ countertop_node names node id.
Proof.
  cbv zeta. unfold extractCountertopNodeIds.
  destruct sceneNodes as [| | | | |nodes|]; try (split; [constructor | intros _ []]).
  destruct names as [|nm names]; [split; [constructor | intros _ []]|].
  destruct (bfs_sound nodes (nm :: names) (list_sum (map jv_size nodes)) nodes []) as [N S];
    [intros x Hx; apply reachable_root; exact Hx | constructor | intros _ []|].
  split; [exact N|]. intros id Hid. destruct (S id Hid) as [node [R C]].
  exists nodes, node. split; [reflexivity | split; assumption].
Qed.

(** *** Completeness *)

Definition queue_size (q : list jv) : nat := list_sum (map jv_size q).

Lemma jv_size_pos v : (1 <= jv_size v)%nat.
Proof. destruct v; simpl; lia. Qed.

Lemma list_sum_app (a b : list nat) : list_sum (a ++ b) = (list_sum a + list_sum b)%nat.
Proof. induction a as [|x r IH]; simpl; [reflexivity | rewrite IH; lia]. Qed.

Lemma fold_get_pres (Q : jv -> Prop) k fs acc :
  Q acc -> (forall k' v, In (k', v) fs -> Q v) ->
  Q (fold_left (fun acc '(k', v) => if String.eqb k k' then v else acc) fs acc).
Proof.
  revert acc. induction fs as [|[k1 v1] r IH]; intros acc Ha Hf; simpl; [exact Ha|].
  apply IH.
  - destruct (String.eqb k k1); [apply (Hf k1); left; reflexivity | exact Ha].
  - intros k' v H. apply (Hf k'). right. exact H.
Qed.

Lemma get_found fs k v : get (JObj fs) k = v -> v = JUndef \/ exists k', In (k', v) fs.
Proof.
  unfold get. intros <-.
  apply (fold_get_pres (fun v => v = JUndef \/ exists k', In (k', v) fs)); [left; reflexivity|].
  intros k' v H. right. exists k'. exact H.
Qed.

Lemma list_sum_in_le (A : Type) (f : A -> nat) x l : In x l -> (f x <= list_sum (map f l))%nat.
Proof.
  induction l as [|y r IH]; simpl; [intros []|]. intros [->|H]; [lia|]. specialize (IH H). lia.
Qed.

Lemma children_smaller node l :
  get node "children" = JArr l -> (queue_size l < jv_size node)%nat.
Proof.
  destruct node as [| | | | | |fs]; simpl; try discriminate. intros G.
  destruct (get_found fs "children" (JArr l) G) as [H|[k' H]]; [discriminate|].
  pose proof (list_sum_in_le (string * jv) (fun '(_, x) => jv_size x) (k', JArr l) fs H) as Le.
  simpl in Le. unfold queue_size. lia.
Qed.

Lemma reachable_step node queue n :
  reachable (node :: queue) n ->
  n = node \/
  reachable (match get node "children" with JArr l => queue ++ l | _ => queue end) n.
Proof.
  intros R. induction R as [n Hin | m l c R IH G Hc].
  - destruct Hin as [<-|Hin]; [left; reflexivity|]. right. apply reachable_root.
    destruct (get node "children"); try exact Hin. apply in_or_app. left. exact Hin.
  - right. destruct IH as [->|IH].
    + apply reachable_root. rewrite G. apply in_or_app. right. exact Hc.
    + eapply reachable_child; [exact IH | exact G | exact Hc].
Qed.

Lemma reachable_nil n : ~ reachable [] n.
Proof. intros R. induction R as [n []|]; assumption. Qed.

Lemma bfs_complete roots names fuel queue acc :
  (queue_size queue <= fuel)%nat ->
  (forall node id, reachable roots node -> countertop_node names node id ->
     In id acc \/ reachable queue node) ->
  forall node id, reachable roots node -> countertop_node names node id ->
    In id (node_bfs fuel names queue acc).
Proof.
  revert queue acc. induction fuel as [|fuel IH]; intros queue acc Hs Hinv node id R C.
  - destruct queue as [|q queue].
    + destruct (Hinv node id R C) as [H|H]; [exact H | destruct (reachable_nil _ H)].
    + unfold queue_size in Hs. simpl in Hs. pose proof (jv_size_pos q). lia.
  - destruct queue as [|q queue].
    + destruct (Hinv node id R C) as [H|H]; [exact H | destruct (reachable_nil _ H)].
    + simpl. unfold queue_size in Hs. simpl in Hs.
      destruct (is_object q) eqn:O; simpl negb; cbv iota.
      * assert (Keep : forall i acc', In i acc' ->
          In i (match is_integer_number (get q "id") with
                | Some nid => if negb (String.eqb (node_material_name q) EmptyString) &&
                                 has_name names (node_material_name q)
                              then set_add nid acc' else acc'
                | None => acc' end)).
        { intros i acc' Hi. destruct (is_integer_number (get q "id")); [|exact Hi].
          destruct (_ && _); [|exact Hi]. unfold set_add.
          destruct (existsb (Z.eqb z) acc'); [exact Hi | apply in_or_app; left; exact Hi]. }
        eapply IH; [| |exact R | exact C].
        -- destruct (get q "children") eqn:G; unfold queue_size;
             try (pose proof (jv_size_pos q); lia).
           pose proof (children_smaller q l G) as Sm. unfold queue_size in Sm.
           rewrite map_app, list_sum_app. lia.
        -- intros n i Rn Cn. destruct (Hinv n i Rn Cn) as [H|H]; [left; apply Keep; exact H|].
           destruct (reachable_step q queue n H) as [->|H']; [|right; exact H'].
           left. destruct Cn as [_ [C1 [C2 C3]]]. rewrite C3.
           replace (negb (String.eqb (node_material_name q) EmptyString) &&
                    has_name names (node_material_name q)) with true.
           ++ unfold set_add. destruct (existsb (Z.eqb i) acc) eqn:E.
              ** apply existsb_exists in E as [z [Hz Ez]]. apply Z.eqb_eq in Ez. subst. exact Hz.
              ** apply in_or_app. right. left. reflexivity.
           ++ rewrite C2. destruct (String.eqb (node_material_name q) EmptyString) eqn:E;
                [apply String.eqb_eq in E; contradiction | reflexivity].
      * eapply IH; [unfold queue_size; pose proof (jv_size_pos q); lia | |exact R | exact C].
        intros n i Rn Cn. destruct (Hinv n i Rn Cn) as [H|H]; [left; exact H|].
        destruct (reachable_step q queue n H) as [->|H'].
        -- destruct Cn as [C0 _]. rewrite O in C0. discriminate C0.
        -- right. destruct q; try discriminate O; exact H'.
Qed.

(** Extra: every object node of the scene-node forest whose config (or mesh
    type) names a countertop material and whose id is an integer has its id
    in [extractCountertopNodeIds]' result. *)
Theorem extractCountertopNodeIds_complete nodes names node id :
  reachable nodes node -> countertop_node names node id ->
  In id (extractCountertopNodeIds (JArr nodes) names).
Proof.
  intros R C. unfold extractCountertopNodeIds.
  destruct names as [|nm names].
  - destruct C as [_ [_ [H _]]]. discriminate H.
  - eapply (bfs_complete nodes (nm :: names) _ nodes [] (le_n _)); [|exact R | exact C].
    intros n i Rn _. right. exact Rn.
Qed.

Definition granite_config : list ascii := list_ascii_of_string " Granite ".

(** Witness: [extract_name_round_trip] at [" { Granite } x"]. *)
Lemma extract_name_round_trip_witness :
  forallb is_ascii7 ([" "%char] ++ "{"%char :: granite_config ++
                     "}"%char :: [" "%char; "x"%char]) = true /\
  forallb is_ws [" "%char] = true /\ ~ In "}"%char granite_config /\
  extractMaterialNameFromNodeConfig
    (JStr (string_of_list_ascii ([" "%char] ++ "{"%char :: granite_config ++
                                 "}"%char :: [" "%char; "x"%char]))) =
  string_of_list_ascii (trim granite_config).
Proof.
  assert (P : forallb is_ws [" "%char] = true) by reflexivity.
  assert (N : ~ In "}"%char granite_config)
    by (intro H; simpl in H; intuition discriminate).
  assert (A : forallb is_ascii7 ([" "%char] ++ "{"%char :: granite_config ++
                                 "}"%char :: [" "%char; "x"%char]) = true)
    by (vm_compute; reflexivity).
  split; [exact A|]. split; [exact P|]. split; [exact N|].
  exact (extract_name_round_trip [" "%char] granite_config [" "%char; "x"%char] A P N).
Defined.

(** Witness: [extract_name_shape] at the config ["{ Granite }"]. *)
Lemma extract_name_shape_witness :
  let r := extractMaterialNameFromNodeConfig (JStr "{ Granite }") in
  r = EmptyString \/
  exists s pre inner post, JStr "{ Granite }" = JStr s /\
    list_ascii_of_string s = pre ++ "{"%char :: inner ++ "}"%char :: post /\
    forallb is_ws pre = true /\ ~ In "}"%char inner /\
    r = string_of_list_ascii (trim inner).
Proof.
  apply extract_name_shape. intros s H. injection H as <-. vm_compute. reflexivity.
Defined.

Definition granite_child : jv :=
  JObj [("id", JNum (Some 2%Q)); ("meshType", JStr "{Granite}")]%string.
Definition granite_root : jv :=
  JObj [("id", JNum (Some 1%Q)); ("config", JStr "{Granite}");
        ("children", JArr [granite_child])]%string.

(** Witness: [extractCountertopNodeIds_complete] at a child node, named by
    its mesh type, of a countertop root. *)
Lemma extractCountertopNodeIds_complete_witness :
  reachable [granite_root; JNull] granite_child /\
  countertop_node [JStr "Granite"] granite_child 2 /\
  In 2%Z (extractCountertopNodeIds (JArr [granite_root; JNull]) [JStr "Granite"]).
Proof.
  assert (R : reachable [granite_root; JNull] granite_child).
  { apply (reachable_child _ granite_root [granite_child]);
      [apply reachable_root; left; reflexivity | reflexivity | left; reflexivity]. }
  assert (C : countertop_node [JStr "Granite"] granite_child 2).
  { unfold countertop_node. split; [reflexivity|]. split; [vm_compute; discriminate|].
    split; reflexivity. }
  split; [exact R|]. split; [exact C|].
  exact (extractCountertopNodeIds_complete _ _ _ _ R C).
Defined.

End CountertopsExtraFacts.

Module SceneIndexExtraFacts.
Import Js Materials Mesh CountertopApply SceneIndex.

Definition get_list (nid : Z) (m : list (Z * list nat)) : list nat :=
  match assoc_get Z.eqb nid m with Some ms => ms | None => [] end.

Lemma get_list_push nid m k i :
  get_list nid (push_mesh m k i) = get_list nid m ++ (if Z.eqb nid k then [i] else []).
Proof.
  unfold get_list, push_mesh.
  destruct (assoc_get Z.eqb k m) eqn:E;
    rewrite (CountertopApplyExtraFacts.assoc_get_set Z.eqb Z.eqb_eq);
    destruct (Z.eqb nid k) eqn:N; try (rewrite app_nil_r; reflexivity);
    apply Z.eqb_eq in N; subst; rewrite E; reflexivity.
Qed.

Lemma get_list_index nid i built acc :
  get_list nid (index_meshes i built acc) =
  get_list nid acc ++
  filter (fun j => match nth_error built (j - i) with
                   | Some p => Z.eqb nid (nodeId p) | None => false end)
         (seq i (List.length built)).
Proof.
  revert i acc. induction built as [|p r IH]; intros i acc.
  - cbn [index_meshes List.length seq filter]. rewrite app_nil_r. reflexivity.
  - cbn [index_meshes List.length seq filter]. rewrite IH, get_list_push, <- app_assoc.
    f_equal. rewrite Nat.sub_diag. cbn [nth_error].
    assert (F : filter (fun j => match nth_error r (j - S i) with
                                 | Some p0 => Z.eqb nid (nodeId p0) | None => false end)
                       (seq (S i) (List.length r)) =
                filter (fun j => match nth_error (p :: r) (j - i) with
                                 | Some p0 => Z.eqb nid (nodeId p0) | None => false end)
                       (seq (S i) (List.length r))).
    { apply filter_ext_in. intros j Hj. apply in_seq in Hj.
      replace (j - i)%nat with (S (j - S i)) by lia. reflexivity. }
    rewrite F. destruct (Z.eqb nid (nodeId p)); reflexivity.
Qed.

Lemma mesh_list_spec built nid :
  NoDup (get_list nid (meshesByNodeId built)) /\
  forall j, In j (get_list nid (meshesByNodeId built)) <->
            exists p, nth_error built j = Some p /\ nodeId p = nid.
Proof.
  unfold meshesByNodeId. rewrite get_list_index. cbn [get_list assoc_get app].
  split; [apply NoDup_filter, seq_NoDup|].
  intros j. rewrite filter_In, in_seq, Nat.sub_0_r. split.
  - intros [[_ Hl] Hm]. destruct (nth_error built j) as [p|] eqn:E; [|discriminate].
    exists p. split; [reflexivity|]. apply Z.eqb_eq in Hm. congruence.
  - intros [p [E <-]]. split.
    + split; [lia|]. apply nth_error_Some. congruence.
    + rewrite E. apply Z.eqb_refl.
Qed.

Lemma NoDup_flat_map_disjoint {A B} (f : A -> list B) l :
  NoDup l -> (forall x, NoDup (f x)) ->
  (forall x y b, In b (f x) -> In b (f y) -> x = y) -> NoDup (flat_map f l).
Proof.
  induction l as [|x r IH]; intros Nl Nf D; simpl; [constructor|].
  inversion Nl as [|? ? Hx Nr]; subst.
  apply NoDup_app; [apply Nf | apply IH; assumption |].
  intros b Hb Hb'. apply in_flat_map in Hb' as [y [Hy Hby]]. apply Hx.
  rewrite (D x y b Hb Hby). exact Hy.
Qed.

Lemma countertop_meshes_spec built nodeIds :
  NoDup nodeIds ->
  NoDup (countertopMeshes built nodeIds) /\
  forall i, In i (countertopMeshes built nodeIds) <->
            exists p, nth_error built i = Some p /\ In (nodeId p) nodeIds.
Proof.
  intros N.
  change (countertopMeshes built nodeIds) with
    (flat_map (fun nid => get_list nid (meshesByNodeId built)) nodeIds).
  split.
  - apply NoDup_flat_map_disjoint; [exact N | intros x; apply mesh_list_spec|].
    intros x y b Hx Hy.
    apply (proj2 (mesh_list_spec built x)) in Hx as [p [Ep <-]].
    apply (proj2 (mesh_list_spec built y)) in Hy as [p' [Ep' <-]]. congruence.
  - intros i. rewrite in_flat_map. split.
    + intros [nid [Hn Hi]]. apply (proj2 (mesh_list_spec built nid)) in Hi as [p [Ep <-]].
      exists p. split; assumption.
    + intros [p [Ep Hn]]. exists (nodeId p). split; [exact Hn|].
      apply (proj2 (mesh_list_spec built (nodeId p))). exists p. split; [exact Ep | reflexivity].
Qed.

(** Extra: given distinct countertop node ids, [buildScene]'s countertop
    meshes are exactly the built meshes whose record's node id is one of
    them, each listed once. *)
Theorem countertopMeshes_exact built nodeIds :
  NoDup nodeIds ->
  NoDup (countertopMeshes built nodeIds) /\
  forall i, In i (countertopMeshes built nodeIds) <->
            exists p, nth_error built i = Some p /\ In (nodeId p) nodeIds.
Proof. apply countertop_meshes_spec. Qed.

Lemma material_fold_spec built meshes acc :
  NoDup acc ->
  NoDup (fold_left (fun acc i => match nth_error built i with
                                 | Some p => Countertops.set_add (materialIdx p) acc
                                 | None => acc end) meshes acc) /\
  forall m, In m (fold_left (fun acc i => match nth_error built i with
                                 | Some p => Countertops.set_add (materialIdx p) acc
                                 | None => acc end) meshes acc) <->
    In m acc \/ exists i p, In i meshes /\ nth_error built i = Some p /\ materialIdx p = m.
Proof.
  revert acc. induction meshes as [|i r IH]; intros acc N; simpl.
  - split; [exact N|]. intros m. split; [tauto|]. intros [H|[i [p [[] _]]]]. exact H.
  - destruct (nth_error built i) as [p|] eqn:E.
    + destruct (CountertopsExtraFacts.set_add_spec (materialIdx p) acc N) as [N' M'].
      destruct (IH _ N') as [N'' M'']. split; [exact N''|]. intros m. rewrite M'', M'.
      split.
      * intros [[->|H]|[j [q [Hj [Eq Hm]]]]].
        -- right. exists i, p. auto.
        -- left. exact H.
        -- right. exists j, q. auto.
      * intros [H|[j [q [[<-|Hj] [Eq Hm]]]]].
        -- left. right. exact H.
        -- left. left. congruence.
        -- right. exists j, q. auto.
    + destruct (IH _ N) as [N'' M'']. split; [exact N''|]. intros m. rewrite M''.
      split.
      * intros [H|[j [q [Hj [Eq Hm]]]]]; [left; exact H | right; exists j, q; auto].
      * intros [H|[j [q [[<-|Hj] [Eq Hm]]]]]; [left; exact H | congruence |].
        right. exists j, q. auto.
Qed.

(** Extra: [buildScene]'s countertop material indexes are the material
    indexes of the countertop meshes' records, each listed once. *)
Theorem countertopMaterialIndexes_spec built meshes :
  NoDup (countertopMaterialIndexes built meshes) /\
  forall m, In m (countertopMaterialIndexes built meshes) <->
    exists i p, In i meshes /\ nth_error built i = Some p /\ materialIdx p = m.
Proof.
  destruct (material_fold_spec built meshes [] (NoDup_nil _)) as [N M].
  split; [exact N|]. intros m. unfold countertopMaterialIndexes. rewrite M.
  split; [intros [[]|H]; exact H | intros H; right; exact H].
Qed.

Lemma node_ids_spec nodes names :
  NoDup (Countertops.extractCountertopNodeIds (JArr nodes) names) /\
  forall id, In id (Countertops.extractCountertopNodeIds (JArr nodes) names) <->
    exists node, CountertopsExtraFacts.reachable nodes node /\
                 CountertopsExtraFacts.countertop_node names node id.
Proof.
  unfold Countertops.extractCountertopNodeIds.
  destruct names as [|nm names].
  - split; [constructor|]. intros id. split; [intros []|].
    intros [node [_ [_ [_ [H _]]]]]. discriminate H.
  - destruct (CountertopsExtraFacts.bfs_sound nodes (nm :: names)
                (list_sum (map Countertops.jv_size nodes)) nodes [])
      as [N S]; [intros x Hx; apply CountertopsExtraFacts.reachable_root; exact Hx
                | constructor | intros _ []|].
    split; [exact N|]. intros id. split; [apply S|].
    intros [node [R C]].
    eapply (CountertopsExtraFacts.bfs_complete nodes (nm :: names) _ nodes [] (le_n _));
      [|exact R | exact C].
    intros n i Rn _. right. exact Rn.
Qed.

(** Extra: the countertop meshes [buildScene] selects from a scene-node
    forest are, each once, the built meshes whose record's node id is the
    integer id of an object node of the forest whose config (or mesh type)
    names a countertop material. *)
Theorem countertop_meshes_of_scene nodes names built :
  let meshes := countertopMeshes built
                  (Countertops.extractCountertopNodeIds (JArr nodes) names) in
  NoDup meshes /\
  forall i, In i meshes <->
    exists p node, nth_error built i = Some p /\ CountertopsExtraFacts.reachable nodes node /\
                   CountertopsExtraFacts.countertop_node names node (nodeId p).
Proof.
  cbv zeta. destruct (node_ids_spec nodes names) as [N M].
  destruct (countertop_meshes_spec built _ N) as [N' M'].
  split; [exact N'|]. intros i. rewrite M'. split.
  - intros [p [Ep Hn]]. apply M in Hn as [node [R C]]. exists p, node. auto.
  - intros [p [node [Ep [R C]]]]. exists p. split; [exact Ep|]. apply M. exists node. auto.
Qed.

(** Witness: [countertopMeshes_exact] on the decoded fixture scene with
    one countertop node id. *)
Lemma countertopMeshes_exact_witness :
  NoDup [0%Z] /\
  NoDup (countertopMeshes SceneFixture.fixture_records [0%Z]) /\
  forall i, In i (countertopMeshes SceneFixture.fixture_records [0%Z]) <->
            exists p, nth_error SceneFixture.fixture_records i = Some p /\ In (nodeId p) [0%Z].
Proof.
  assert (N : NoDup [0%Z]) by (constructor; [intros [] | constructor]).
  split; [exact N|].
  exact (countertopMeshes_exact SceneFixture.fixture_records [0%Z] N).
Defined.

End SceneIndexExtraFacts.
